(** * Codec and channel-modelling core of informationTheoryAndCoding

    A shallow embedding of
      - [ori/new_src/coding.py]   (repetition encoder, N = 3),
      - [ori/new_src/decoding.py] (majority-vote decoder),
      - [ori/new_src/byteSource.py], [ori/new_src/channel.py] (samplers),
      - [ori/new_src/channelIndexCalc.py] (transition matrix, mutual
        information),
      - [src/source_encoder.py], [src/source_decoder.py] (blob writer and
        reader around the prefix codec),
      - [src/calaDMSInfo.py] (byte and bit statistics of a file),
      - [ori/new_src/calculate.py] (bit strings and Hamming distance),
      - [ori/new_src/Top.py] (the channel-coded path of a scenario),
    together with the properties the specification states about them and
    further properties read off the code. *)

From Stdlib Require Import List ZArith Lia Bool Ascii QArith Permutation Sorted.
From Stdlib Require String.
From Equations Require Import Equations.
From Stdlib Require PrimFloat FloatOps Uint63.
Import ListNotations.

Set Implicit Arguments.

(** ** Python values shared by all modules *)

(** Python exceptions and process exits the modelled code can end in. *)
Inductive py_error : Type :=
  | ValueError
  | ZeroDivisionError
  | IndexError
  | KeyError
  | OverflowError
  | SysExit (code : Z).

Inductive result (A : Type) : Type :=
  | Ok (a : A)
  | Err (e : py_error).
Arguments Ok {A} a.
Arguments Err {A} e.

Definition bind {A B} (r : result A) (k : A -> result B) : result B :=
  match r with
  | Ok a => k a
  | Err e => Err e
  end.

Notation "x <- r ;; k" := (bind r (fun x => k))
  (at level 61, r at next level, right associativity).
Notation "' p <- r ;; k" := (bind r (fun p => k))
  (at level 61, p pattern, r at next level, right associativity).

(** [l[i:j]] for [0 <= i], [0 <= j]: Python slices clamp at the end of [l]. *)
Definition py_slice {A} (l : list A) (i j : nat) : list A :=
  firstn (j - i) (skipn i l).

(** [range(0, stop, step)] for [step > 0]. *)
Definition py_range0 (stop step : nat) : list nat :=
  map (fun k => k * step)%nat (seq 0 ((stop + step - 1) / step)).

(** ** Repetition code, N = 3 *)

Module Repetition.

Local Open Scope char_scope.
Local Open Scope nat_scope.

(** A Python [str] as its list of characters. *)
Definition str := list ascii.

(** [c in '01'] for a one-character string [c]. *)
Definition in_01 (c : ascii) : bool :=
  Ascii.eqb c "0" || Ascii.eqb c "1".

(** [coding.py], [RepetitionCodeEncoder.__init__]: [self.N = 3]. *)
Definition N : nat := 3.

(** [coding.py], [RepetitionCodeEncoder.validate_bit_string]. *)
Definition validate_bit_string (bit_string : str) : bool :=
  match bit_string with
  | [] => false
  | _ => forallb in_01 bit_string
  end.

(** [coding.py], [RepetitionCodeEncoder.encode_bit_string]:
    [''.join(bit * self.N for bit in bit_string)]. *)
Definition encode_bit_string (bit_string : str) : result str :=
  if negb (validate_bit_string bit_string) then Err ValueError
  else Ok (concat (map (fun bit => repeat bit N) bit_string)).

(** [group.count(c)] for a one-character [c]. *)
Fixpoint count (c : ascii) (group : str) : nat :=
  match group with
  | [] => 0
  | x :: group' => (if Ascii.eqb x c then 1 else 0) + count c group'
  end.

(** Body of the loop of [majority_vote_decode] for the group starting at
    index [i]. *)
Definition vote (encoded_bits : str) (n : nat) (decoded_bits : str) (i : nat)
  : str :=
  let group := py_slice encoded_bits i (i + n) in
  let count_0 := count "0" group in
  let count_1 := count "1" group in
  if count_1 <? count_0 then decoded_bits ++ ["0"]
  else if count_0 <? count_1 then decoded_bits ++ ["1"]
  else decoded_bits ++ ["0"].

(** [decoding.py], [majority_vote_decode(encoded_bits, n=3)]. *)
Definition majority_vote_decode (encoded_bits : str) (n : nat) : result str :=
  match encoded_bits with
  | [] => Err ValueError
  | _ =>
    if n =? 0 then Err ZeroDivisionError
    else
      let encoded_bits :=
        if negb (length encoded_bits mod n =? 0) then
          let truncated_length := (length encoded_bits / n) * n in
          py_slice encoded_bits 0 truncated_length
        else encoded_bits in
      Ok (fold_left (vote encoded_bits n)
                    (py_range0 (length encoded_bits) n) [])
  end.

(** The bit chosen for one group: the three branches of the loop body. *)
Definition majority (group : str) : ascii :=
  if count "1" group <? count "0" group then "0"
  else if count "0" group <? count "1" group then "1"
  else "0".

(** The groups [encoded_bits[i:i+n]] for [i = 0, n, 2n, ...], [m] of them. *)
Definition groups (encoded_bits : str) (n m : nat) : list str :=
  map (fun k => py_slice encoded_bits (k * n) (k * n + n)) (seq 0 m).

End Repetition.

(** ** float64 *)

Module Float64.

(** A float64 value is modelled by the rational it stands for.  Where a
    result depends on the rounding of an operation, the operation is an
    argument of the definition ([fdiv], [fadd] below) and the theorems
    assume of it what IEEE 754 arithmetic gives.  [div64] and [add64] are
    the division and the addition of the kernel's binary64 arithmetic. *)

(** The unit roundoff of float64: a result that is rounded to nearest
    differs from the exact one by at most this, relatively. *)
Definition unit_roundoff : Q := 1 # (2 ^ 53).

(** The float64 quotient of the numerator and the denominator of [q]: it
    is [q] itself when [q] is a float64 value that is not negative, with a
    numerator below 2^53 and a denominator below 2^63, as for a count below
    2^53 and for the probabilities used below. *)
Definition float_of_Q (q : Q) : PrimFloat.float :=
  PrimFloat.div (PrimFloat.of_uint63 (Uint63.of_Z (Qnum q)))
                (PrimFloat.of_uint63 (Uint63.of_Z (Zpos (Qden q)))).

(** The rational that a finite float64 stands for. *)
Definition Q_of_float (f : PrimFloat.float) : Q :=
  match FloatOps.Prim2SF f with
  | SpecFloat.S754_finite s m e =>
    ((if s then -1 else 1) * inject_Z (Zpos m) * 2 ^ e)%Q
  | _ => 0%Q
  end.

(** [a / b] on two float64 values. *)
Definition div64 (a b : Q) : Q :=
  Q_of_float (PrimFloat.div (float_of_Q a) (float_of_Q b)).

(** [a + b] on two float64 values. *)
Definition add64 (a b : Q) : Q :=
  Q_of_float (PrimFloat.add (float_of_Q a) (float_of_Q b)).

End Float64.

(** ** Inverse-CDF samplers *)

Module Sampler.

(** float64 values are only compared and added here; they are modelled by
    rationals.  The uniform draws of [np.random.uniform] are an explicit
    argument. *)

(** [np.cumsum] with exact sums: what numpy computes when no sum is
    rounded, as for the dyadic values below; [cumsum_f64] keeps the
    rounding. *)
Fixpoint cumsum_from (acc : Q) (p : list Q) : list Q :=
  match p with
  | [] => []
  | x :: p' => (acc + x)%Q :: cumsum_from (acc + x)%Q p'
  end.

Definition cumsum (p : list Q) : list Q := cumsum_from 0%Q p.

(** [np.searchsorted(a, v)] ([side='left']) on a sorted [a]: the index [i]
    with [a[i-1] < v <= a[i]]. *)
Fixpoint searchsorted_left (a : list Q) (v : Q) : Z :=
  match a with
  | [] => 0
  | x :: a' => if Qle_bool v x then 0 else 1 + searchsorted_left a' v
  end.

(** [np.searchsorted(a, v, side='right')] on a sorted [a]: the index [i]
    with [a[i-1] <= v < a[i]]. *)
Fixpoint searchsorted_right (a : list Q) (v : Q) : Z :=
  match a with
  | [] => 0
  | x :: a' => if Qle_bool x v then 1 + searchsorted_right a' v else 0
  end.

(** [np.clip(x, lo, hi)] on one element. *)
Definition clip (lo hi x : Z) : Z := Z.min (Z.max x lo) hi.

(** [.astype(np.uint8)] on one int64 element: reduction modulo 256. *)
Definition astype_uint8 (x : Z) : Z := x mod 256.

(** [byteSource.py], [generate_msg]. *)
Definition generate_msg (symbol_prob : list Q) (symbol_random : list Q)
  : list Z :=
  let cdf := cumsum symbol_prob in
  map (searchsorted_left cdf) symbol_random.

(** [byteSource.py], [write_output]: the bytes written to the file. *)
Definition write_output (msg : list Z) : list Z :=
  map (fun x => astype_uint8 (clip 0 255 x)) msg.

(** [channel.py], [compute_cdf]. *)
Definition compute_cdf (p : list Q) : list Q := cumsum p.

(** [channel.py], [get_data]. *)
Definition get_data (cdf : list Q) (symbol_random : list Q) : list Z :=
  map (fun v => astype_uint8 (searchsorted_right cdf v)) symbol_random.

Section Rounded.

(** float64 addition. *)
Variable fadd : Q -> Q -> Q.

(** [np.cumsum] on a float64 array: the first entry is [p[0]], every
    further entry is the float64 sum of the entry before it and [p[i]]. *)
Fixpoint cumsum_f64_from (acc : Q) (p : list Q) : list Q :=
  match p with
  | [] => []
  | x :: p' => fadd acc x :: cumsum_f64_from (fadd acc x) p'
  end.

Definition cumsum_f64 (p : list Q) : list Q :=
  match p with
  | [] => []
  | x :: p' => x :: cumsum_f64_from x p'
  end.

(** [byteSource.py], [generate_msg], with the sums of [np.cumsum]
    rounded. *)
Definition generate_msg_f64 (symbol_prob : list Q) (symbol_random : list Q)
  : list Z :=
  let cdf := cumsum_f64 symbol_prob in
  map (searchsorted_left cdf) symbol_random.

(** [channel.py], [compute_cdf], with the sums of [cumsum] rounded. *)
Definition compute_cdf_f64 (p : list Q) : list Q := cumsum_f64 p.

End Rounded.

(** A 256-symbol PMF that sums to 1/2; a draw of 3/4 lies above its last
    cumulative value. *)
Definition half_pmf : list Q := repeat (1 # 512)%Q 256.

(** The float64 values of [0.1] and of [1/7], and the PMFs of ten and of
    seven symbols of these probabilities. *)
Definition tenth : Q := (3602879701896397 # 36028797018963968)%Q.
Definition seventh : Q := (2573485501354569 # 18014398509481984)%Q.
Definition ten_tenths : list Q := repeat tenth 10.
Definition seven_sevenths : list Q := repeat seventh 7.

End Sampler.

(** ** Empirical channel metrics *)

Module ChannelIndexCalc.

Local Open Scope Q_scope.

(** A numpy 2-D array as its list of rows; a float64 entry is modelled by
    the rational it stands for.  Counts below 2^53 are exact in float64;
    the quotients are exact in [calculate_channel_probabilities] and
    rounded in [calculate_channel_probabilities_f64]. *)
Definition matrix := list (list Q).

Definition zeros (rows cols : nat) : matrix := repeat (repeat 0 cols) rows.

(** [x > 0] on numbers. *)
Definition gt0 (x : Q) : bool := negb (Qle_bool x 0).

Fixpoint update {A} (l : list A) (i : nat) (f : A -> A) : list A :=
  match l, i with
  | [], _ => []
  | x :: l', O => f x :: l'
  | x :: l', S i' => x :: update l' i' f
  end.

(** [np.sum] of a 1-D array. *)
Definition sum (l : list Q) : Q := fold_right Qplus 0 l.

(** [m[i][j]]. *)
Definition entry (m : matrix) (i j : nat) : Q := nth j (nth i m []) 0.

(** [np.sum(m, axis=1)]. *)
Definition sum_axis1 (m : matrix) : list Q := map sum m.

(** [np.sum(m, axis=0)]. *)
Definition sum_axis0 (m : matrix) : list Q :=
  map (fun j => sum (map (fun row => nth j row 0) m))
      (seq 0 (length (nth 0 m []))).

Definition num_states : nat := 256.

(** [transition_counts[x, y] += 1]. *)
Definition count_pair (transition_counts : matrix) (xy : Byte.byte * Byte.byte)
  : matrix :=
  update transition_counts (Byte.to_nat (fst xy))
         (fun row => update row (Byte.to_nat (snd xy)) (fun c => c + 1)).

(** [channelIndexCalc.py], [calculate_channel_probabilities], with exact
    quotients; [calculate_channel_probabilities_f64] keeps their
    rounding. *)
Definition calculate_channel_probabilities
    (input_data noise_data : list Byte.byte) : matrix :=
  let transition_counts :=
    fold_left count_pair (combine input_data noise_data)
              (zeros num_states num_states) in
  let row_sums := sum_axis1 transition_counts in
  map (fun '(row, row_sum) =>
         map (fun c => if gt0 row_sum then c / row_sum else 0) row)
      (combine transition_counts row_sums).

Section Rounded.

(** float64 division. *)
Variable fdiv : Q -> Q -> Q.

(** [channelIndexCalc.py], [calculate_channel_probabilities], with the
    quotients [transition_counts / row_sums] rounded.  The counts and the
    row sums are integers, which float64 holds exactly below 2^53. *)
Definition calculate_channel_probabilities_f64
    (input_data noise_data : list Byte.byte) : matrix :=
  let transition_counts :=
    fold_left count_pair (combine input_data noise_data)
              (zeros num_states num_states) in
  let row_sums := sum_axis1 transition_counts in
  map (fun '(row, row_sum) =>
         map (fun c => if gt0 row_sum then fdiv c row_sum else 0) row)
      (combine transition_counts row_sums).

(** [np.where(row_sums > 0, counts / row_sums, 0)] on one row. *)
Definition normalise_f64 (row : list Q) : list Q :=
  map (fun c => if gt0 (sum row) then fdiv c (sum row) else 0) row.

End Rounded.

(** Seventeen occurrences of the input byte 5, each with another output
    byte. *)
Definition seventeen_inputs : list Byte.byte := repeat Byte.x05 17.
Definition seventeen_outputs : list Byte.byte :=
  [Byte.x00; Byte.x01; Byte.x02; Byte.x03; Byte.x04; Byte.x05; Byte.x06;
   Byte.x07; Byte.x08; Byte.x09; Byte.x0a; Byte.x0b; Byte.x0c; Byte.x0d;
   Byte.x0e; Byte.x0f; Byte.x10].

(** Row-wise normalisation, [np.where(row_sums > 0, counts / row_sums, 0)]
    on one row. *)
Definition normalise (row : list Q) : list Q :=
  map (fun c => if gt0 (sum row) then c / sum row else 0) row.

(** The input symbols of the compared prefix, as row indices. *)
Definition prefix_inputs (pairs : list (Byte.byte * Byte.byte)) : list nat :=
  map (fun xy => Byte.to_nat (fst xy)) pairs.

Definition occurrences (pairs : list (Byte.byte * Byte.byte)) (i : nat) : Q :=
  inject_Z (Z.of_nat (count_occ Nat.eq_dec (prefix_inputs pairs) i)).

(** The pairs of the compared prefix with input [i] and output [j]. *)
Definition pair_count (pairs : list (Byte.byte * Byte.byte)) (i j : nat) : Q :=
  inject_Z (Z.of_nat (length (filter
    (fun xy => Nat.eqb (Byte.to_nat (fst xy)) i
               && Nat.eqb (Byte.to_nat (snd xy)) j) pairs))).

(** What the counting loop maintains: a 256 x 256 array of non-negative
    counts whose row [i] sums to the number of pairs seen with input [i]. *)
Record counts_inv (seen : list (Byte.byte * Byte.byte)) (m : matrix)
  : Prop := {
  inv_rows : length m = num_states;
  inv_cols : Forall (fun row => length row = num_states) m;
  inv_nonneg : Forall (Forall (Qle 0)) m;
  inv_sums : forall i, (i < num_states)%nat ->
             sum (nth i m []) == occurrences seen i
}.

(** A matrix whose rows are non-negative and sum to 1 or to 0. *)
Definition row_stochastic (tp : matrix) : Prop :=
  Forall (fun row => Forall (Qle 0) row /\ (sum row == 1 \/ sum row == 0)) tp.

Section MutualInformation.

(** [np.log2], left abstract. *)
Variable log2 : Q -> Q.

(** Body of the inner loop of [calculate_mutual_information]. *)
Definition mi_step (transition_probabilities : matrix) (p_x p_y : list Q)
    (i : nat) (mi : Q) (j : nat) : Q :=
  if gt0 (entry transition_probabilities i j) then
    if gt0 (nth i p_x 0) && gt0 (nth j p_y 0) then
      let ratio :=
        entry transition_probabilities i j / (nth i p_x 0 * nth j p_y 0) in
      if gt0 ratio then mi + entry transition_probabilities i j * log2 ratio
      else mi
    else mi
  else mi.

(** The two nested loops: the value of [mi] when they are left. *)
Definition mi_loops (transition_probabilities : matrix) : Q :=
  let p_x := sum_axis1 transition_probabilities in
  let p_y := sum_axis0 transition_probabilities in
  fold_left
    (fun mi i =>
       fold_left (mi_step transition_probabilities p_x p_y i)
                 (seq 0 (length p_y)) mi)
    (seq 0 (length p_x)) 0.

(** [channelIndexCalc.py], [calculate_mutual_information]. *)
Definition calculate_mutual_information (transition_probabilities : matrix)
  : Q :=
  let mi := mi_loops transition_probabilities in
  if negb (Qle_bool 0 mi) then 0 else mi.

End MutualInformation.

End ChannelIndexCalc.

(** ** Python containers and byte conversions used by the codec *)

Module Py.

Local Open Scope Z_scope.

Section Dict.

Variables (K V : Type) (eqb : K -> K -> bool).

(** A [dict] as its items in insertion order. *)
Definition dict := list (K * V).

(** [d.get(k)]. *)
Fixpoint dict_get (d : dict) (k : K) : option V :=
  match d with
  | [] => None
  | (k', v) :: d' => if eqb k' k then Some v else dict_get d' k
  end.

(** [d[k] = v]: an existing key keeps its place. *)
Fixpoint dict_set (d : dict) (k : K) (v : V) : dict :=
  match d with
  | [] => [(k, v)]
  | (k', v') :: d' =>
    if eqb k' k then (k', v) :: d' else (k', v') :: dict_set d' k v
  end.

(** [dict(items)]. *)
Definition dict_of_items (items : list (K * V)) : dict :=
  fold_left (fun d kv => dict_set d (fst kv) (snd kv)) items [].

End Dict.

Definition is_byte (x : Z) : bool := (0 <=? x) && (x <? 256).

(** [bytearray.append(x)]: [ValueError] unless [x] is in [range(256)]. *)
Definition bytearray_append (b : list Z) (x : Z) : result (list Z) :=
  if is_byte x then Ok (b ++ [x]) else Err ValueError.

Fixpoint little_digits (x : Z) (length : nat) : list Z :=
  match length with
  | O => []
  | S length' => x mod 256 :: little_digits (x / 256) length'
  end.

(** [x.to_bytes(length, 'little')]. *)
Definition to_bytes_little (x : Z) (length : nat) : result (list Z) :=
  if (x <? 0) || (256 ^ Z.of_nat length <=? x) then Err OverflowError
  else Ok (little_digits x length).

(** [int.from_bytes(b, 'little')]. *)
Fixpoint from_bytes_little (b : list Z) : Z :=
  match b with
  | [] => 0
  | x :: b' => x + 256 * from_bytes_little b'
  end.

(** [l[pos]] for [pos >= 0]. *)
Definition index {A} (l : list A) (pos : nat) : result A :=
  match nth_error l pos with
  | Some x => Ok x
  | None => Err IndexError
  end.

Fixpoint insert_sorted (x : Z) (l : list Z) : list Z :=
  match l with
  | [] => [x]
  | y :: l' => if x <=? y then x :: y :: l' else y :: insert_sorted x l'
  end.

(** [sorted(l)] on integers. *)
Definition sorted (l : list Z) : list Z := fold_right insert_sorted [] l.

End Py.

(** ** The prefix codec *)

Module Huffman.

Local Open Scope Z_scope.

(** Modelled from the spec: the module [dahuffman_no_EOF] imported by
    [source_encoder.py] and [source_decoder.py] is not among the sources.
    Section 4.2 describes it: the code table comes from repeatedly merging
    the two lowest-weight nodes into a parent, with 0/1 on the two branches
    and bit-length equal to tree depth. *)
Inductive tree : Type :=
  | Leaf (symbol : Z)
  | Node (zero one : tree).

(** Symbol -> (bit-length, code value), section 3 "Code Table". *)
Definition code_dict := Py.dict Z (Z * Z).

Definition table_get (t : code_dict) (s : Z) : option (Z * Z) :=
  Py.dict_get Z.eqb t s.

Definition table_set (t : code_dict) (s : Z) (c : Z * Z) : code_dict :=
  Py.dict_set Z.eqb t s c.

Definition branch0 (e : Z * (Z * Z)) : Z * (Z * Z) :=
  let '(s, (n, v)) := e in (s, (n + 1, v)).

Definition branch1 (e : Z * (Z * Z)) : Z * (Z * Z) :=
  let '(s, (n, v)) := e in (s, (n + 1, 2 ^ n + v)).

(** Modelled from the spec: the codes of the leaves of a tree; the branch
    taken at the root is the most significant bit of the code value. *)
Fixpoint tree_codes (t : tree) : list (Z * (Z * Z)) :=
  match t with
  | Leaf s => [(s, (0, 0))]
  | Node a b => map branch0 (tree_codes a) ++ map branch1 (tree_codes b)
  end.

(** The symbols at the leaves of a tree, left to right. *)
Fixpoint leaves (t : tree) : list Z :=
  match t with
  | Leaf s => [s]
  | Node a b => leaves a ++ leaves b
  end.

(** The branches taken from the root to each leaf. *)
Fixpoint paths (t : tree) : list (Z * list bool) :=
  match t with
  | Leaf s => [(s, [])]
  | Node a b =>
    map (fun sp => (fst sp, false :: snd sp)) (paths a)
    ++ map (fun sp => (fst sp, true :: snd sp)) (paths b)
  end.

(** The number a bit string denotes, first bit most significant. *)
Fixpoint bits_value (bits : list bool) : Z :=
  match bits with
  | [] => 0
  | bit :: bits' =>
    Z.b2z bit * 2 ^ Z.of_nat (length bits') + bits_value bits'
  end.

(** (bit-length, value) of the code that spells the path [p]. *)
Definition path_code (p : list bool) : Z * Z :=
  (Z.of_nat (length p), bits_value p).

(** Modelled from the spec: the codec object; it owns its code table. *)
Record codec : Type := { table : code_dict }.

Section FromFrequencies.

(** Weights are float64 in the source; only their sum and the order of the
    queue are used, and both are left abstract.  The order compares whole
    nodes, so that it may break ties between equal weights by symbol. *)
Variable W : Type.
Variable wadd : W -> W -> W.
Variable node_leb : W * tree -> W * tree -> bool.

(** The priority queue, lowest weight first. *)
Definition heap := list (W * tree).

Fixpoint heap_push (x : W * tree) (h : heap) : heap :=
  match h with
  | [] => [x]
  | y :: h' =>
    if node_leb y x then y :: heap_push x h' else x :: y :: h'
  end.

Definition heapify (l : list (W * tree)) : heap := fold_right heap_push [] l.

(** All symbols held by the nodes of the queue. *)
Definition heap_leaves (h : heap) : list Z :=
  concat (map (fun x => leaves (snd x)) h).

Lemma heap_push_length x h : length (heap_push x h) = S (length h).
Proof.
  induction h as [|y h IH]; simpl; [reflexivity|].
  destruct (node_leb y x); simpl; rewrite ?IH; reflexivity.
Qed.

(** Modelled from the spec: "repeatedly merge the two lowest-probability
    nodes into a parent" until one node is left. *)
Equations? merge_lowest (h : heap) : option tree by wf (length h) lt :=
  merge_lowest [] := None;
  merge_lowest [a] := Some (snd a);
  merge_lowest (a :: b :: h) :=
    merge_lowest (heap_push (wadd (fst a) (fst b), Node (snd a) (snd b)) h).
Proof. rewrite heap_push_length. simpl. lia. Qed.

(** Modelled from the spec: [HuffmanCodec.from_frequencies]. *)
Definition from_frequencies (frequencies : Py.dict Z W) : result codec :=
  match merge_lowest (heapify (map (fun sf => (snd sf, Leaf (fst sf)))
                                   frequencies)) with
  | Some t => Ok {| table := Py.dict_of_items Z.eqb (tree_codes t) |}
  | None => Err ValueError
  end.

End FromFrequencies.

(** The queue order that looks at the weights only. *)
Definition by_weight {W} (wleb : W -> W -> bool) (x y : W * tree) : bool :=
  wleb (fst x) (fst y).

(** Modelled from the spec: [codec.get_code_table()] hands out the table
    the codec itself encodes with. *)
Definition get_code_table (c : codec) : code_dict := table c.

(** Modelled from the spec: [HuffmanCodec(code_table)]. *)
Definition HuffmanCodec (t : code_dict) : codec := {| table := t |}.

(** The [b] bits of code value [v], most significant first. *)
Definition code_bits (b v : Z) : list bool :=
  map (fun k => Z.testbit v (Z.of_nat k)) (rev (seq 0 (Z.to_nat b))).

(** Modelled from the spec: the payload is "the concatenated bitstream". *)
Fixpoint encode_bits (t : code_dict) (data : list Z) : result (list bool) :=
  match data with
  | [] => Ok []
  | s :: data' =>
    match table_get t s with
    | None => Err KeyError
    | Some (b, v) =>
      rest <- encode_bits t data' ;;
      Ok (code_bits b v ++ rest)
    end
  end.

(** Modelled from the spec: bits are packed into bytes, first bit in the
    most significant position; the last byte is padded with zero bits. *)
Fixpoint pack (bits : list bool) (buffer : Z) (size : nat) : list Z :=
  match bits with
  | [] => if Nat.eqb size 0 then [] else [buffer * 2 ^ (8 - Z.of_nat size)]
  | bit :: bits' =>
    let buffer := 2 * buffer + Z.b2z bit in
    if Nat.eqb (S size) 8 then buffer :: pack bits' 0 0
    else pack bits' buffer (S size)
  end.

(** Modelled from the spec: [codec.encode(data)]. *)
Definition encode (c : codec) (data : list Z) : result (list Z) :=
  bits <- encode_bits (table c) data ;;
  Ok (pack bits 0 0).

Definition byte_bits (byte : Z) : list bool :=
  map (Z.testbit byte) [7; 6; 5; 4; 3; 2; 1; 0].

Definition code_eqb (c c' : Z * Z) : bool :=
  (fst c =? fst c') && (snd c =? snd c').

(** An item of the code table, turned into an item of the decoding
    table. *)
Definition swap (e : Z * (Z * Z)) : (Z * Z) * Z := (snd e, fst e).

(** (bit-length, value) -> symbol, the decoding table re-derived from the
    code table. *)
Definition lookup_table (t : code_dict) : Py.dict (Z * Z) Z :=
  fold_left (fun d e => Py.dict_set code_eqb d (snd e) (fst e)) t [].

Definition max_bitsize (t : code_dict) : Z :=
  fold_left Z.max (map (fun e => fst (snd e)) t) 0.

(** Error of section 4.2: "unknown code encountered while walking payload
    -> reject". *)
Definition undecodable : py_error := ValueError.

(** Modelled from the spec: walk the payload bit by bit, emitting one
    symbol per matched code; a run of bits longer than every code of the
    table matches no code and is rejected. *)
Fixpoint walk (lookup : Py.dict (Z * Z) Z) (maxlen : Z) (bits : list bool)
    (buffer size : Z) : result (list Z) :=
  match bits with
  | [] => Ok []
  | bit :: bits' =>
    let buffer := 2 * buffer + Z.b2z bit in
    let size := size + 1 in
    match Py.dict_get code_eqb lookup (size, buffer) with
    | Some symbol =>
      rest <- walk lookup maxlen bits' 0 0 ;;
      Ok (symbol :: rest)
    | None =>
      if maxlen <=? size then Err undecodable
      else walk lookup maxlen bits' buffer size
    end
  end.

(** Modelled from the spec: [codec.decode(data)]. *)
Definition decode (c : codec) (data : list Z) : result (list Z) :=
  walk (lookup_table (table c)) (max_bitsize (table c))
       (concat (map byte_bits data)) 0 0.

End Huffman.

(** ** The Compressed Blob format *)

Module BlobFormat.

Local Open Scope Z_scope.

(** Sections 3 and 6 of the specification, in their words: one table entry
    is "1-byte symbol, 1-byte bit-length, ceil(bitlen/8)-byte little-endian
    code value". *)
Definition entry_bytes (e : Z * (Z * Z)) : list Z :=
  let '(symbol, (bits, value)) := e in
  [symbol; bits] ++ Py.little_digits value (Z.to_nat ((bits + 7) / 8)).

Definition table_bytes (entries : list (Z * (Z * Z))) : list Z :=
  concat (map entry_bytes entries).

(** "2-byte little-endian header length; 1-byte (symbol-count - 1); 4-byte
    little-endian original length; repeated entries; followed by the packed
    payload bits."  The header length counts its own two bytes. *)
Definition header_size (entries : list (Z * (Z * Z))) : Z :=
  2 + 1 + 4 + Z.of_nat (length (table_bytes entries)).

Definition blob_layout (entries : list (Z * (Z * Z))) (original_len : Z)
    (payload : list Z) : list Z :=
  Py.little_digits (header_size entries) 2
  ++ [Z.of_nat (length entries) - 1]
  ++ Py.little_digits original_len 4
  ++ table_bytes entries
  ++ payload.

(** An entry whose three fields fit the bytes they are written to. *)
Definition entry_fits (e : Z * (Z * Z)) : Prop :=
  let '(symbol, (bits, value)) := e in
  0 <= symbol < 256 /\ 0 <= bits < 256
  /\ 0 <= value < 256 ^ Z.of_nat (Z.to_nat ((bits + 7) / 8)).

(** The item of [symbol] in a code table that has it. *)
Definition entry_of (code_table : Huffman.code_dict) (symbol : Z)
  : Z * (Z * Z) :=
  (symbol,
   match Huffman.table_get code_table symbol with
   | Some code => code
   | None => (0, 0)
   end).

(** The items of a code table, by ascending symbol. *)
Definition sorted_entries (code_table : Huffman.code_dict)
  : list (Z * (Z * Z)) :=
  map (entry_of code_table) (Py.sorted (map fst code_table)).

End BlobFormat.

(** ** [src/source_encoder.py] *)

Module SourceEncoder.

Import Huffman.
Local Open Scope Z_scope.

(** Lines 105-112: a table of one symbol whose code has length 0 gets the
    code (1, 0).  [code_table] is the dict handed out by
    [get_code_table], that is the codec's own table, so the item assignment
    [code_table[symbol] = (1, 0)] is seen by the later [codec.encode]: the
    shared dict is the [table] field, updated in place. *)
Definition force_unique_symbol (c : codec) : codec :=
  match get_code_table c with
  | [(symbol, (bits, value))] =>
    if bits =? 0 then {| table := table_set (table c) symbol (1, 0) |}
    else c
  | _ => c
  end.

(** Lines 127-131, the body of the loop over [sorted(code_table.keys())]. *)
Definition header_entry (code_table : code_dict) (header : list Z)
    (symbol : Z) : result (list Z) :=
  match table_get code_table symbol with
  | None => Err KeyError
  | Some (bits, value) =>
    let bytes_needed := (bits + 7) / 8 in
    header <- Py.bytearray_append header symbol ;;
    header <- Py.bytearray_append header bits ;;
    value_bytes <- Py.to_bytes_little value (Z.to_nat bytes_needed) ;;
    Ok (header ++ value_bytes)
  end.

Fixpoint header_entries (code_table : code_dict) (header : list Z)
    (symbols : list Z) : result (list Z) :=
  match symbols with
  | [] => Ok header
  | symbol :: symbols' =>
    header <- header_entry code_table header symbol ;;
    header_entries code_table header symbols'
  end.

Section Main.

Variable W : Type.
Variable wadd : W -> W -> W.
Variable node_leb : W * Huffman.tree -> W * Huffman.tree -> bool.

(** [main], from the dict [frequencies] of the rows with positive
    probability (line 86) and the bytes [data] of the message file, to the
    bytes written to the output file. *)
Definition main (frequencies : Py.dict Z W) (data : list Z)
  : result (list Z) :=
  match frequencies with
  | [] => Err (SysExit 1)
  | _ =>
    codec <- from_frequencies wadd node_leb frequencies ;;
    let original_len := Z.of_nat (length data) in
    if original_len =? 0 then Err (SysExit 1)
    else
      let codec := force_unique_symbol codec in
      let code_table := get_code_table codec in
      match encode codec data with
      | Err _ => Err (SysExit 1)
      | Ok encoded_payload =>
        header <- Py.bytearray_append []
                    (Z.of_nat (length code_table) - 1) ;;
        len_bytes <- Py.to_bytes_little original_len 4 ;;
        let header := header ++ len_bytes in
        header <- header_entries code_table header
                    (Py.sorted (map fst code_table)) ;;
        let header_size := Z.of_nat (length header) + 2 in
        size_bytes <- Py.to_bytes_little header_size 2 ;;
        let full_header := size_bytes ++ header in
        Ok (full_header ++ encoded_payload)
      end
  end.

End Main.

End SourceEncoder.

(** ** [src/source_decoder.py] *)

Module SourceDecoder.

Import Huffman.
Local Open Scope Z_scope.

(** Lines 56-64, [for _ in range(symbol_count)]: the table and the position
    reached. *)
Fixpoint rebuild (header : list Z) (symbol_count : nat) (pos : nat)
    (code_table : code_dict) : result (code_dict * nat) :=
  match symbol_count with
  | O => Ok (code_table, pos)
  | S symbol_count' =>
    symbol <- Py.index header pos ;;
    bits <- Py.index header (pos + 1) ;;
    let pos := (pos + 2)%nat in
    let bytes_needed := Z.to_nat ((bits + 7) / 8) in
    let value :=
      Py.from_bytes_little (py_slice header pos (pos + bytes_needed)) in
    let code_table := table_set code_table symbol (bits, value) in
    let pos := (pos + bytes_needed)%nat in
    rebuild header symbol_count' pos code_table
  end.

(** Lines 75-78 and 81-84: decode with the rebuilt table. *)
Definition decode_payload (code_table : code_dict) (payload : list Z)
    (original_len : Z) : result (list Z) :=
  let codec := HuffmanCodec code_table in
  decoded <- decode codec payload ;;
  Ok (firstn (Z.to_nat original_len) decoded).

(** Lines 66-84: the direct fill for a table of one symbol with a code of
    at most one bit, the codec otherwise. *)
Definition decode_with (code_table : code_dict) (payload : list Z)
    (original_len : Z) : result (list Z) :=
  match code_table with
  | [(symbol, (bits, value))] =>
    if bits <=? 1 then Ok (repeat symbol (Z.to_nat original_len))
    else decode_payload code_table payload original_len
  | _ => decode_payload code_table payload original_len
  end.

(** Lines 50-84: reading the table out of [header] and decoding
    [payload]. *)
Definition decode_blob (header payload : list Z) : result (list Z) :=
  let pos := 0%nat in
  count_byte <- Py.index header pos ;;
  let symbol_count := count_byte + 1 in
  let pos := (pos + 1)%nat in
  let original_len :=
    Py.from_bytes_little (py_slice header pos (pos + 4)) in
  let pos := (pos + 4)%nat in
  '(code_table, pos) <- rebuild header (Z.to_nat symbol_count) pos [] ;;
  decode_with code_table payload original_len.

(** [main], from the bytes of the input file to the bytes written to the
    output file. *)
Definition main (data : list Z) : result (list Z) :=
  if (length data <? 6)%nat then Err (SysExit 1)
  else
    let header_size := Py.from_bytes_little (py_slice data 0 2) in
    let header := py_slice data 2 (Z.to_nat header_size) in
    let payload := skipn (Z.to_nat header_size) data in
    decode_blob header payload.

(** The 2-byte header-length field of a blob (line 45). *)
Definition header_size_field (data : list Z) : Z :=
  Py.from_bytes_little (py_slice data 0 2).

(** The 4-byte original-length field of a blob: bytes 3 to 6, read at
    line 52 as [header[1:5]] of [header = data[2:header_size]]. *)
Definition original_len_field (data : list Z) : Z :=
  Py.from_bytes_little (py_slice data 3 7).

(** A ten-byte input whose header-length field says 1000. *)
Definition oversized_header_blob : list Z :=
  [232; 3; 0; 5; 0; 0; 0; 65; 1; 0].

End SourceDecoder.

(** ** [ori/new_src/channel.py]: the byte-level channel *)

Module Channel.

Local Open Scope Z_scope.

(** [np.bitwise_xor] on two 1-D uint8 arrays: element by element on equal
    lengths, an array of length 1 is broadcast, any other pair of lengths
    raises [ValueError]. *)
Definition bitwise_xor (a b : list Z) : result (list Z) :=
  if Nat.eqb (length a) (length b) then
    Ok (map (fun xy => Z.lxor (fst xy) (snd xy)) (combine a b))
  else
    match a, b with
    | [x], _ => Ok (map (fun y => Z.lxor x y) b)
    | _, [y] => Ok (map (fun x => Z.lxor x y) a)
    | _, _ => Err ValueError
    end.

(** [channel.py], [simulate_bsc]. *)
Definition simulate_bsc (input_data noise_data : list Z) : result (list Z) :=
  bitwise_xor input_data noise_data.

(** [channel.py], [generate_probability_csv] followed by [read_input]: the
    dict of the two rows written, read back after the title row. *)
Definition noise_prob (p_one : Q) : Py.dict Z Q :=
  let p_zero := (1 - p_one)%Q in
  [(0, p_zero); (1, p_one)].

(** [channel.py], [bsc_workflow]: the noise bytes and the output bytes
    written, from the input bytes and the uniform draws of [get_data], one
    for each input byte. *)
Definition bsc_workflow (input_data : list Z) (p_one : Q)
    (symbol_random : list Q) : result (list Z * list Z) :=
  let noise_cdf := Sampler.compute_cdf (map snd (noise_prob p_one)) in
  let noise_data := Sampler.get_data noise_cdf symbol_random in
  output_data <- simulate_bsc input_data noise_data ;;
  Ok (noise_data, output_data).

End Channel.

(** ** [ori/new_src/calculate.py] *)

Module Calculate.

Local Open Scope char_scope.
Local Open Scope nat_scope.

Definition str := list ascii.

(** The binary digits of a positive number, most significant first. *)
Fixpoint pos_digits (p : positive) : str :=
  match p with
  | xH => ["1"]
  | xO p' => pos_digits p' ++ ["0"]
  | xI p' => pos_digits p' ++ ["1"]
  end.

(** [format(n, 'b')] for [n >= 0]. *)
Definition bin (n : N) : str :=
  match n with
  | N0 => ["0"]
  | Npos p => pos_digits p
  end.

(** [f'{n:08b}']: zero-padded on the left to width 8. *)
Definition format_08b (n : N) : str :=
  repeat "0" (8 - length (bin n)) ++ bin n.

(** [''.join(f'{byte:08b}' for byte in file_bytes)]. *)
Definition bit_string_of (file_bytes : list Byte.byte) : str :=
  concat (map (fun byte => format_08b (Byte.to_N byte)) file_bytes).


(** The pairs of [zip(bits1, bits2)] whose two characters differ. *)
Definition differing (bits1 bits2 : str) : list (ascii * ascii) :=
  filter (fun b => negb (Ascii.eqb (fst b) (snd b))) (combine bits1 bits2).

(** [calculate.py], [ChannelCodingMetrics.calculate_hamming_distance]. *)
Definition calculate_hamming_distance (bits1 bits2 : str) : nat * nat :=
  let min_length := Nat.min (length bits1) (length bits2) in
  let bits1 := py_slice bits1 0 min_length in
  let bits2 := py_slice bits2 0 min_length in
  let distance :=
    list_sum (map (fun _ => 1)
                  (filter (fun b => negb (Ascii.eqb (fst b) (snd b)))
                          (combine bits1 bits2))) in
  (distance, min_length).


(** [x / y] on two ints, as the code guards it: 0.0 unless [y > 0]. *)
Definition ratio (x y : nat) : Q :=
  if 0 <? y then (inject_Z (Z.of_nat x) / inject_Z (Z.of_nat y))%Q else 0%Q.



End Calculate.

(** ** [src/calaDMSInfo.py] *)

Module CalaDMSInfo.

Local Open Scope Q_scope.

(** [byte_counts[byte] += 1] on the int array of counts. *)
Definition count_byte (byte_counts : list Z) (byte : Byte.byte) : list Z :=
  ChannelIndexCalc.update byte_counts (Byte.to_nat byte)
                          (fun c => (c + 1)%Z).

(** [calaDMSInfo.py], [read_byte_dat]: counts over total, with the quotient
    of float64 taken as exact.  On an empty file numpy divides 0 by 0 and
    returns NaN, which the rationals do not have: the model stands for
    non-empty files. *)
Definition read_byte_dat (data : list Byte.byte) : list Q :=
  let byte_counts := fold_left count_byte data (repeat 0%Z 256) in
  let total_bytes := Z.of_nat (length data) in
  map (fun c => inject_Z c / inject_Z total_bytes) byte_counts.

(** [calaDMSInfo.py], [DMS_2bit_from_byte_dat]: the rows
    [i, symbol_prob_2bit[i]] written to the CSV file, which
    [calculate_binary_probabilities] reads back through [int] and [float]. *)
Definition DMS_2bit_from_byte_dat (data : list Byte.byte) : list (N * Q) :=
  let symbol_prob_2bit := read_byte_dat data in
  map (fun i => (N.of_nat i, nth i symbol_prob_2bit 0)) (seq 0 256).

(** [format(symbol, '08b').count('1')] for [symbol >= 0]. *)
Definition count_ones (symbol : N) : Q :=
  inject_Z (Z.of_nat (Repetition.count "1"%char (Calculate.format_08b symbol))).

(** Entry [i] of an array of 256 zeros that the loop over the rows fills
    at the indices of the rows. *)
Definition filled (rows : list (N * Q)) (f : N * Q -> Q) (i : nat) : Q :=
  match nth_error rows i with
  | Some row => f row
  | None => 0
  end.

(** [calaDMSInfo.py], [calculate_binary_probabilities], from the rows of
    the CSV file; a row of index 256 or more is outside the three
    arrays. *)
Definition calculate_binary_probabilities (rows : list (N * Q))
  : result (Q * Q) :=
  if (256 <? length rows)%nat then Err IndexError
  else
    let count_0_p :=
      map (filled rows (fun row => (8 - count_ones (fst row)) / 8))
          (seq 0 256) in
    let count_1_p :=
      map (filled rows (fun row => count_ones (fst row) / 8)) (seq 0 256) in
    let P := map (filled rows snd) (seq 0 256) in
    let times := map (fun pc => fst pc * snd pc) in
    Ok (ChannelIndexCalc.sum (times (combine P count_0_p)),
        ChannelIndexCalc.sum (times (combine P count_1_p))).

End CalaDMSInfo.

(** ** [ori/new_src/Top.py]: the channel-coded path of [simulate_scenario] *)

Module Top.

Import Repetition.
Local Open Scope char_scope.
Local Open Scope nat_scope.

(** Lines 224 and 264: [''.join(c for c in f.read() if c in '01')]. *)
Definition only_bits (content : str) : str := filter in_01 content.

(** Line 232: [''.join('1' if a != b else '0' for a, b in zip(...))]. *)
Definition xor_bits (encoded_bits noise_bits : str) : str :=
  map (fun ab => if negb (Ascii.eqb (fst ab) (snd ab)) then "1" else "0")
      (combine encoded_bits noise_bits).

Fixpoint int_base2_from (acc : Z) (s : str) : result Z :=
  match s with
  | [] => Ok acc
  | c :: s' =>
    if Ascii.eqb c "0" then int_base2_from (2 * acc)%Z s'
    else if Ascii.eqb c "1" then int_base2_from (2 * acc + 1)%Z s'
    else Err ValueError
  end.

(** [int(s, 2)] on the strings it is given here, which hold '0' and '1'
    only (a sign, blanks, underscores or a 0b prefix, which Python would
    also accept, cannot occur in them); the empty string and any other
    character raise [ValueError]. *)
Definition int_base2 (s : str) : result Z :=
  match s with
  | [] => Err ValueError
  | _ => int_base2_from 0%Z s
  end.

(** Lines 292-294, the body of [for i in range(0, len(decoded_bits), 8)]. *)
Definition collect_byte (decoded_bits : str) (acc : result (list Z))
    (i : nat) : result (list Z) :=
  bytes_list <- acc ;;
  let byte_str := py_slice decoded_bits i (i + 8) in
  if length byte_str =? 8 then
    value <- int_base2 byte_str ;;
    Ok (bytes_list ++ [value])
  else Ok bytes_list.

(** Lines 276-288: [decoded_bits] cut or padded with '0' to the expected
    number of bits, then padded with '0' to a multiple of 8.
    [original_binary_size] is an int on this path; 0 counts as unset. *)
Definition fit_bits (decoded_bits : str) (original_binary_size : nat) : str :=
  let expected_bits :=
    if negb (original_binary_size =? 0) then original_binary_size * 8
    else length decoded_bits in
  let decoded_bits :=
    if expected_bits <? length decoded_bits then
      py_slice decoded_bits 0 expected_bits
    else if length decoded_bits <? expected_bits then
      decoded_bits ++ repeat "0" (expected_bits - length decoded_bits)
    else decoded_bits in
  if negb (length decoded_bits mod 8 =? 0) then
    decoded_bits ++ repeat "0" (8 - length decoded_bits mod 8)
  else decoded_bits.

(** Lines 274 and 291-294: [bytes_list] when the loop is left. *)
Definition collect_bytes (decoded_bits : str) : result (list Z) :=
  fold_left (collect_byte decoded_bits)
            (py_range0 (length decoded_bits) 8) (Ok []).

(** Lines 274-298: from the decoded bit string and the size of the file that
    went into the channel coder to [bytes_list], the bytes written after
    decoding. *)
Definition restore_bytes (decoded_bits : str) (original_binary_size : nat)
  : result (list Z) :=
  let decoded_bits := fit_bits decoded_bits original_binary_size in
  bytes_list <- collect_bytes decoded_bits ;;
  if negb (original_binary_size =? 0)
     && (original_binary_size <? length bytes_list)
  then Ok (py_slice bytes_list 0 original_binary_size)
  else Ok bytes_list.

(** A chunk of 8 characters that [int(byte_str, 2)] reads as [value]. *)
Definition chunk_value (byte_str : str) (value : Z) : Prop :=
  length byte_str = 8 /\ int_base2 byte_str = Ok value.

(** The value of a byte of [data] as a Python int. *)
Definition byte_value (byte : Byte.byte) : Z := Z.of_N (Byte.to_N byte).

(** Lines 188-298 with [channel_encode] set: from the bytes [data] of the
    file that enters the channel coder and the noise bit string drawn at
    line 228 to the bytes written after channel decoding. *)
Definition channel_coded_path (data : list Byte.byte) (noise_bits : str)
  : result (list Z) :=
  let original_binary_size := length data in
  let bit_string := Calculate.bit_string_of data in
  encoded_bits <- encode_bit_string bit_string ;;
  let encoded_bits := only_bits encoded_bits in
  let channel_output_bits := xor_bits encoded_bits noise_bits in
  let encoded_bits := only_bits channel_output_bits in
  decoded_bits <- majority_vote_decode encoded_bits 3 ;;
  restore_bytes decoded_bits original_binary_size.

End Top.

(** ** The text file between [coding.py] and [decoding.py] *)

Module EncodedFile.

Import String.StringSyntax.
Local Open Scope nat_scope.

(** A Python [str] as the list of its code points. *)
Definition text := list N.

(** The code points of a UTF-8 byte sequence. *)
Fixpoint utf8_points (bytes : list N) : text :=
  match bytes with
  | [] => []
  | b :: rest =>
    if (b <? 128)%N then b :: utf8_points rest
    else if (b <? 224)%N then
      match rest with
      | c :: rest' => ((b - 192) * 64 + (c - 128))%N :: utf8_points rest'
      | _ => []
      end
    else if (b <? 240)%N then
      match rest with
      | c :: d :: rest' =>
        ((b - 224) * 4096 + (c - 128) * 64 + (d - 128))%N
          :: utf8_points rest'
      | _ => []
      end
    else
      match rest with
      | c :: d :: e :: rest' =>
        ((b - 240) * 262144 + (c - 128) * 4096 + (d - 128) * 64
         + (e - 128))%N :: utf8_points rest'
      | _ => []
      end
  end.

(** A string literal of the source, written here as it is there. *)
Definition lit (s : String.string) : text :=
  utf8_points (map N_of_ascii (String.list_ascii_of_string s)).
Arguments lit s%_string_scope.

(** A bit string of the repetition coder as a [text], and back. *)
Definition points (s : Repetition.str) : text := map N_of_ascii s.
Definition chars (s : text) : Repetition.str := map ascii_of_N s.

(** [c in '01'] for a one-character string [c]. *)
Definition is_bit (c : N) : bool := (c =? 48)%N || (c =? 49)%N.

(** [str(n)] for [n >= 0]. *)
Fixpoint digits (u : Decimal.uint) : text :=
  match u with
  | Decimal.Nil => []
  | Decimal.D0 u' => 48%N :: digits u'
  | Decimal.D1 u' => 49%N :: digits u'
  | Decimal.D2 u' => 50%N :: digits u'
  | Decimal.D3 u' => 51%N :: digits u'
  | Decimal.D4 u' => 52%N :: digits u'
  | Decimal.D5 u' => 53%N :: digits u'
  | Decimal.D6 u' => 54%N :: digits u'
  | Decimal.D7 u' => 55%N :: digits u'
  | Decimal.D8 u' => 56%N :: digits u'
  | Decimal.D9 u' => 57%N :: digits u'
  end.

Definition str_of_nat (n : nat) : text := digits (Nat.to_uint n).

(** [sep.join(parts)]. *)
Fixpoint join (sep : text) (parts : list text) : text :=
  match parts with
  | [] => []
  | [part] => part
  | part :: parts' => part ++ sep ++ join sep parts'
  end.

(** [s.split(' ')], with [word] the characters read since the last
    space. *)
Fixpoint split_from (s : text) (word : text) : list text :=
  match s with
  | [] => [word]
  | c :: s' =>
    if (c =? 32)%N then word :: split_from s' []
    else split_from s' (word ++ [c])
  end.

Definition split_spaces (s : text) : list text := split_from s [].

(** [s.startswith(sub)]. *)
Fixpoint starts_with (s sub : text) {struct sub} : bool :=
  match sub, s with
  | [], _ => true
  | _ :: _, [] => false
  | c :: sub', d :: s' => (c =? d)%N && starts_with s' sub'
  end.

(** [s.find(sub)], searched from index [i] of the whole string on; [None]
    for -1.  [sub in s] holds when the result is not [None]. *)
Fixpoint find_from (s sub : text) (i : nat) : option nat :=
  if starts_with s sub then Some i
  else
    match s with
    | [] => None
    | _ :: s' => find_from s' sub (S i)
    end.

Definition find (s sub : text) : option nat := find_from s sub 0.

(** [sub] does not occur in [s]: [sub not in s]. *)
Definition free (sub s : text) : Prop := forall i, find_from s sub i = None.

(** [[l[i:i+n] for i in range(0, len(l), n)]]. *)
Definition chunks {A} (l : list A) (n : nat) : list (list A) :=
  map (fun i => py_slice l i (i + n)) (py_range0 (length l) n).

(** What the calls [f.write(line + '\n')] leave in the file. *)
Definition unlines (lines : list text) : text :=
  concat (map (fun line => line ++ [10%N]) lines).

Definition space : text := [32%N].

(** [coding.py], [save_encoded_result], lines 162-166: one line of the
    coding examples, without its newline. *)
Definition example_line (original_bits encoded_bits : text) (i : nat)
  : text :=
  lit "比特 " ++ str_of_nat (i + 1) ++ lit ": "
  ++ py_slice original_bits i (i + 1) ++ lit " -> "
  ++ py_slice encoded_bits (i * 3) ((i + 1) * 3).

Section Saved.

(** [coding.py], [clean_file_path] (lines 13-37: [strip], removal of
    quotes, [os.path.normpath]), left abstract. *)
Variable clean_file_path : text -> text.

(** Lines 123 and 138-153: the lines written before the original bits.
    [input_file_path] is cleaned first; [generated] is the time stamp of
    [strftime], [self.N] is 3 and [self.encoding_rate] formats as 0.3333. *)
Definition head_lines (generated input_file_path original_bits
                       encoded_bits : text) : list text :=
  let input_file_path := clean_file_path input_file_path in
  [ lit "# ====================================";
    lit "# 信道编码模块输出文件";
    lit "# 编码方案: 重复码 (N=3)";
    lit "# 生成时间: " ++ generated;
    lit "# 输入文件: " ++ input_file_path;
    lit "# ====================================";
    [];
    lit "# 编码参数";
    lit "编码类型: 重复码 (Repetition Code)";
    lit "码长 (N): 3";
    lit "编码率: 1/3 (0.3333)";
    lit "原始比特数: " ++ str_of_nat (length original_bits);
    lit "编码后比特数: " ++ str_of_nat (length encoded_bits);
    lit "扩展因子: 3倍";
    [] ].

(** Lines 155-168: the original bits, 80 to a line, and the coding
    examples of the first 10 bits. *)
Definition original_lines (original_bits encoded_bits : text) : list text :=
  [lit "# 1. 原始比特序列"]
  ++ chunks original_bits 80
  ++ [[]]
  ++ [lit "# 2. 编码示例"; lit "# 格式: [原始比特] -> [3比特码字]"]
  ++ map (example_line original_bits encoded_bits)
         (seq 0 (Nat.min 10 (length original_bits)))
  ++ [[]].

(** Lines 172-179: the code words, separated by spaces, 10 to a line. *)
Definition encoded_lines (encoded_bits : text) : list text :=
  let formatted_encoded := join space (chunks encoded_bits 3) in
  let groups := split_spaces formatted_encoded in
  map (join space) (chunks groups 10).

(** [coding.py], [save_encoded_result]: the text of the file written. *)
Definition saved_content (generated input_file_path original_bits
                          encoded_bits : text) : text :=
  unlines (head_lines generated input_file_path original_bits encoded_bits
           ++ original_lines original_bits encoded_bits
           ++ [lit "# 3. 编码后的完整比特序列"]
           ++ encoded_lines encoded_bits).

End Saved.

(** The heading that [extract_encoded_bits_from_file] looks for. *)
Definition heading : text := lit "编码后的完整比特序列".

(** [re.findall(r'[01]+', content)]: the maximal runs of '0' and '1', with
    [run] the run being read. *)
Fixpoint bit_runs (content : text) (run : text) : list text :=
  match content with
  | [] => match run with [] => [] | _ => [run] end
  | c :: content' =>
    if is_bit c then bit_runs content' (run ++ [c])
    else
      match run with
      | [] => bit_runs content' []
      | _ => run :: bit_runs content' []
      end
  end.

(** [max(patterns, key=len)] from the first pattern [best] on: the first
    pattern of the greatest length. *)
Definition longest (best : text) (patterns : list text) : text :=
  fold_left (fun best pattern =>
               if length best <? length pattern then pattern else best)
            patterns best.

(** [decoding.py], [extract_encoded_bits_from_file], from the text of a
    file that could be read. *)
Definition extract_encoded_bits (content : text) : text :=
  let all_bits := filter is_bit content in
  let by_runs :=
    match bit_runs content [] with
    | [] => all_bits
    | pattern :: patterns =>
      let longest_bits := longest pattern patterns in
      if 10 <=? length longest_bits then longest_bits else all_bits
    end in
  match find content heading with
  | Some idx =>
    let start_idx := idx + length heading in
    let remaining_content := skipn start_idx content in
    let bits := filter is_bit remaining_content in
    match bits with
    | [] => by_runs
    | _ => bits
    end
  | None => by_runs
  end.

(** [decoding.py], [repetition_decode_file], from the text of an input
    file that exists: the string returned. *)
Definition repetition_decode_file (content : text) : Repetition.str :=
  match extract_encoded_bits content with
  | [] => []
  | encoded_bits =>
    match Repetition.majority_vote_decode (chars encoded_bits) 3 with
    | Ok decoded_bits => decoded_bits
    | Err _ => []
    end
  end.

End EncodedFile.

(** * Properties *)

(** ** Repetition code: majority vote and round trip *)

Section RepetitionFacts.

Import Repetition.
Local Open Scope char_scope.
Local Open Scope nat_scope.

Lemma vote_majority e n acc i :
  vote e n acc i = acc ++ [majority (py_slice e i (i + n))].
Proof.
  unfold vote, majority.
  destruct (_ <? _); [reflexivity|].
  destruct (_ <? _); reflexivity.
Qed.

Lemma fold_vote e n idxs : forall acc,
  fold_left (vote e n) idxs acc
  = acc ++ map (fun i => majority (py_slice e i (i + n))) idxs.
Proof.
  induction idxs as [|i idxs IH]; intros acc; simpl.
  - now rewrite app_nil_r.
  - rewrite IH, vote_majority, <- app_assoc. reflexivity.
Qed.

Lemma py_slice_firstn {A} (l : list A) t i j :
  j <= t -> py_slice (firstn t l) i j = py_slice l i j.
Proof.
  intros Hj. unfold py_slice.
  rewrite skipn_firstn_comm, firstn_firstn.
  f_equal. lia.
Qed.

Lemma groups_firstn e n m t :
  m * n <= t -> groups (firstn t e) n m = groups e n m.
Proof.
  intros Ht. unfold groups. apply map_ext_in.
  intros k Hk. apply in_seq in Hk.
  apply py_slice_firstn. nia.
Qed.

Lemma py_range0_exact m n :
  0 < n -> py_range0 (m * n) n = map (fun k => k * n) (seq 0 m).
Proof.
  intros Hn. unfold py_range0. f_equal. f_equal.
  replace (m * n + n - 1) with (n - 1 + m * n) by lia.
  rewrite Nat.div_add by lia. rewrite Nat.div_small by lia. reflexivity.
Qed.

Lemma vote_loop e n m :
  0 < n -> length e = m * n ->
  fold_left (vote e n) (py_range0 (length e) n) []
  = map majority (groups e n m).
Proof.
  intros Hn Hlen. rewrite fold_vote, Hlen, py_range0_exact by assumption.
  unfold groups. rewrite !map_map. reflexivity.
Qed.

(** What [majority_vote_decode] computes, in closed form. *)
Lemma majority_vote_decode_eq e n :
  e <> [] -> 0 < n ->
  majority_vote_decode e n
  = Ok (map majority (groups e n (length e / n))).
Proof.
  intros He Hn. unfold majority_vote_decode.
  destruct e as [|c e']; [congruence|].
  set (e := c :: e') in *.
  destruct (Nat.eqb_spec n 0) as [->|_]; [lia|].
  f_equal.
  pose proof (Nat.div_mod_eq (length e) n) as Hdm.
  destruct (Nat.eqb_spec (length e mod n) 0) as [H0|H0]; simpl negb; cbv iota.
  - apply vote_loop; [assumption|lia].
  - unfold py_slice at 1 2. rewrite Nat.sub_0_r. simpl skipn.
    pose proof (Nat.mod_upper_bound (length e) n ltac:(lia)) as Hub.
    rewrite (@vote_loop _ n (length e / n)).
    + apply f_equal, groups_firstn. lia.
    + assumption.
    + rewrite length_firstn. lia.
Qed.

Lemma groups_length e n m : length (groups e n m) = m.
Proof. unfold groups. now rewrite length_map, length_seq. Qed.

Lemma groups_nth e n m k :
  k < m -> nth k (groups e n m) [] = py_slice e (k * n) (k * n + n).
Proof.
  intros Hk. unfold groups.
  rewrite (nth_indep _ [] (py_slice e (0 * n) (0 * n + n)))
    by (now rewrite length_map, length_seq).
  rewrite (map_nth (fun k => py_slice e (k * n) (k * n + n))).
  rewrite seq_nth by assumption. reflexivity.
Qed.

Lemma group_full_length (e : str) n k :
  k * n + n <= length e -> length (py_slice e (k * n) (k * n + n)) = n.
Proof.
  intros H. unfold py_slice. rewrite length_firstn, length_skipn. lia.
Qed.

Lemma groups_cons (g rest : str) n m :
  length g = n -> groups (g ++ rest) n (S m) = g :: groups rest n m.
Proof.
  intros Hg. unfold groups.
  rewrite <- cons_seq, <- seq_shift, map_cons, map_map. f_equal.
  - unfold py_slice. simpl. rewrite Nat.sub_0_r.
    rewrite firstn_app, <- Hg, firstn_all, Nat.sub_diag. simpl.
    apply app_nil_r.
  - apply map_ext. intros k. unfold py_slice.
    replace (S k * n) with (k * n + n) by lia.
    rewrite <- skipn_skipn. f_equal; [lia|]. f_equal.
    rewrite skipn_app, <- Hg, skipn_all, Nat.sub_diag. reflexivity.
Qed.

Lemma majority_bit c : c = "0" \/ c = "1" -> majority [c; c; c] = c.
Proof. intros [->| ->]; reflexivity. Qed.

Lemma majority_is_bit g : majority g = "0" \/ majority g = "1".
Proof.
  unfold majority. destruct (_ <? _); [now left|].
  destruct (_ <? _); [now right|now left].
Qed.

Lemma in_01_spec c : in_01 c = true <-> c = "0" \/ c = "1".
Proof.
  unfold in_01. rewrite orb_true_iff, !Ascii.eqb_eq. reflexivity.
Qed.

Lemma repeat3_length (s : str) :
  length (concat (map (fun bit => repeat bit N) s)) = length s * 3.
Proof. unfold N. induction s as [|c s IH]; simpl in *; [reflexivity|lia]. Qed.

Lemma repeat3_groups (s : str) :
  groups (concat (map (fun bit => repeat bit N) s)) 3 (length s)
  = map (fun bit => [bit; bit; bit]) s.
Proof.
  unfold N. induction s as [|c s IH]; [reflexivity|].
  cbn [map concat length].
  rewrite groups_cons by reflexivity. now rewrite IH.
Qed.

(** C10: on a non-empty string of length L, [majority_vote_decode] with
    n = 3 returns a string of exactly floor(L/3) characters, each of which
    is '0' or '1'. *)
Theorem majority_vote_decode_length (s : str) :
  s <> [] ->
  exists r, majority_vote_decode s 3 = Ok r
            /\ length r = length s / 3
            /\ Forall (fun c => c = "0" \/ c = "1") r.
Proof.
  intros Hs. eexists. split; [apply majority_vote_decode_eq; [assumption|lia]|].
  split.
  - now rewrite length_map, groups_length.
  - apply Forall_forall. intros c Hc.
    apply in_map_iff in Hc as [g [<- _]]. apply majority_is_bit.
Qed.

Lemma majority_vote_decode_length_witness :
  exists r, majority_vote_decode ["1"; "1"; "0"; "0"; "1"; "0"; "1"] 3 = Ok r
            /\ length r = 7 / 3
            /\ Forall (fun c => c = "0" \/ c = "1") r.
Proof.
  apply (@majority_vote_decode_length ["1"; "1"; "0"; "0"; "1"; "0"; "1"]).
  discriminate.
Defined.

(** C5: [majority_vote_decode] with n = 3 works on the non-overlapping
    groups s[0:3], s[3:6], ...; the k-th output character is '1' iff
    group k holds more '1' than '0', and '0' otherwise (more '0', or a
    tie); only the floor(L/3) full groups are used, so a trailing remainder
    of L mod 3 characters is dropped. *)
Theorem majority_vote_decode_groups (s : str) :
  s <> [] ->
  exists r,
    majority_vote_decode s 3 = Ok r
    /\ r = map majority (groups (firstn (length s / 3 * 3) s) 3 (length s / 3))
    /\ length r = length s / 3
    /\ forall k, k < length s / 3 ->
         let group := py_slice s (k * 3) (k * 3 + 3) in
         length group = 3
         /\ (nth k r "0" = "1" <-> count "0" group < count "1" group)
         /\ (nth k r "0" = "0" <-> count "1" group <= count "0" group).
Proof.
  intros Hs. eexists. split; [apply majority_vote_decode_eq; [assumption|lia]|].
  pose proof (Nat.div_mod_eq (length s) 3) as Hdm.
  split; [now rewrite groups_firstn by lia|].
  split; [now rewrite length_map, groups_length|].
  intros k Hk group.
  split; [apply group_full_length; lia|].
  change "0" with (majority []) at 1 3.
  rewrite !(map_nth majority), groups_nth by assumption.
  fold group. unfold majority.
  destruct (Nat.ltb_spec (count "1" group) (count "0" group));
    [|destruct (Nat.ltb_spec (count "0" group) (count "1" group))];
    split; (split; intros E; first [discriminate E | reflexivity | lia]).
Qed.

Lemma majority_vote_decode_groups_witness :
  exists r,
    majority_vote_decode ["1"; "0"; "1"; "0"; "x"; "1"; "1"; "1"] 3 = Ok r
    /\ r = ["1"; "0"].
Proof.
  destruct (@majority_vote_decode_groups
              ["1"; "0"; "1"; "0"; "x"; "1"; "1"; "1"]) as [r [Hr [Heq _]]].
  - discriminate.
  - exists r. split; [exact Hr|]. rewrite Heq. reflexivity.
Defined.

(** C4: for every non-empty string s over {'0','1'}, the repetition
    encoder accepts s and majority-vote decoding of its output gives s
    back. *)
Theorem repetition_round_trip (s : str) :
  s <> [] ->
  Forall (fun c => c = "0" \/ c = "1") s ->
  exists e, encode_bit_string s = Ok e /\ majority_vote_decode e 3 = Ok s.
Proof.
  intros Hs Hbits.
  assert (Hvalid : validate_bit_string s = true).
  { destruct s as [|c s']; [congruence|]. unfold validate_bit_string.
    apply forallb_forall. intros x Hx. apply in_01_spec.
    revert x Hx. now apply Forall_forall. }
  unfold encode_bit_string. rewrite Hvalid. simpl negb. cbv iota.
  eexists. split; [reflexivity|].
  rewrite majority_vote_decode_eq.
  - rewrite repeat3_length, Nat.div_mul by lia.
    rewrite repeat3_groups, map_map. f_equal.
    rewrite <- (map_id s) at 2. apply map_ext_in.
    intros c Hc. apply majority_bit. revert c Hc. now apply Forall_forall.
  - destruct s as [|c s']; [congruence|discriminate].
  - lia.
Qed.

Lemma repetition_round_trip_witness :
  exists e, encode_bit_string ["0"; "1"; "1"; "0"] = Ok e
            /\ majority_vote_decode e 3 = Ok ["0"; "1"; "1"; "0"].
Proof.
  apply (@repetition_round_trip ["0"; "1"; "1"; "0"]).
  - discriminate.
  - repeat (apply Forall_cons; [first [now left | now right]|]).
    apply Forall_nil.
Defined.

End RepetitionFacts.

(** ** Samplers: clamping and wrap-around *)

Section SamplerFacts.

Import Sampler.
Local Open Scope Z_scope.

(** [byteSource.write_output] clamps every raw index to [0, 255]. *)
Lemma write_output_clamps (msg : list Z) :
  write_output msg = map (clip 0 255) msg
  /\ Forall (fun b => 0 <= b <= 255) (write_output msg).
Proof.
  unfold write_output, astype_uint8, clip. split.
  - apply map_ext. intros x. apply Z.mod_small. lia.
  - apply Forall_forall. intros b Hb.
    apply in_map_iff in Hb as [x [<- _]].
    rewrite Z.mod_small; lia.
Qed.

(** [channel.get_data] reduces the raw index modulo 256 instead. *)
Lemma get_data_wraps (cdf : list Q) (vs : list Q) :
  get_data cdf vs = map (fun v => searchsorted_right cdf v mod 256) vs.
Proof. reflexivity. Qed.

(** C7, at the failing input: for the CDF of [half_pmf] and the draw 3/4
    the raw index is 256 on both paths; [byteSource] writes the clamped
    byte 255, [channel.get_data] returns the wrapped byte 0. *)
Theorem get_data_not_clamped :
  searchsorted_right (compute_cdf half_pmf) (3 # 4)%Q = 256
  /\ get_data (compute_cdf half_pmf) [(3 # 4)%Q] = [0]
  /\ generate_msg half_pmf [(3 # 4)%Q] = [256]
  /\ write_output (generate_msg half_pmf [(3 # 4)%Q]) = [255].
Proof. vm_compute. repeat split. Qed.

End SamplerFacts.

(** ** Blob decoder: rejection of malformed input *)

Section DecoderFacts.

Import Huffman SourceDecoder.
Local Open Scope Z_scope.

(** C6 as stated fails: the header-length field of this input exceeds its
    total length, and it is decoded to five bytes, not rejected. *)
Lemma oversized_header_length_is_decoded :
  header_size_field oversized_header_blob
    > Z.of_nat (length oversized_header_blob)
  /\ SourceDecoder.main oversized_header_blob = Ok [65; 65; 65; 65; 65].
Proof. vm_compute. split; reflexivity. Qed.

(** C6, amended: an input of fewer than 6 bytes is rejected (exit status 1)
    before anything is parsed; an input of 6 bytes or more whose
    header-length field exceeds its length is not rejected for that: all
    bytes after the first two are the header, the payload is empty, and
    decoding goes on from there. *)
Theorem decoder_rejects_short_input (data : list Z) :
  ((length data < 6)%nat -> SourceDecoder.main data = Err (SysExit 1))
  /\ ((6 <= length data)%nat ->
      header_size_field data > Z.of_nat (length data) ->
      SourceDecoder.main data = decode_blob (skipn 2 data) []).
Proof.
  unfold SourceDecoder.main, header_size_field. split.
  - intros Hlen. apply Nat.ltb_lt in Hlen. now rewrite Hlen.
  - intros Hlen Hfield.
    destruct (Nat.ltb_spec (length data) 6) as [Hlt|_]; [lia|].
    cbv zeta. set (hs := Py.from_bytes_little (py_slice data 0 2)) in *.
    clearbody hs. unfold py_slice.
    rewrite firstn_all2 by (rewrite length_skipn; lia).
    rewrite (skipn_all2 (n := Z.to_nat hs)) by lia. reflexivity.
Qed.

Lemma decoder_rejects_short_input_witness :
  SourceDecoder.main [9; 0; 0; 1; 0] = Err (SysExit 1)
  /\ SourceDecoder.main oversized_header_blob
     = decode_blob (skipn 2 oversized_header_blob) [].
Proof.
  split.
  - apply (proj1 (decoder_rejects_short_input [9; 0; 0; 1; 0])).
    simpl. lia.
  - apply (proj2 (decoder_rejects_short_input oversized_header_blob)).
    + simpl. lia.
    + vm_compute. reflexivity.
Defined.

End DecoderFacts.

(** ** Channel metrics: transition matrix and mutual information *)

Section ChannelFacts.

Import ChannelIndexCalc.
Local Open Scope Q_scope.

Lemma gt0_true x : gt0 x = true <-> 0 < x.
Proof.
  unfold gt0. rewrite negb_true_iff, <- not_true_iff_false, Qle_bool_iff.
  split; [apply Qnot_le_lt|apply Qlt_not_le].
Qed.

Lemma gt0_false x : gt0 x = false <-> x <= 0.
Proof. unfold gt0. now rewrite negb_false_iff, Qle_bool_iff. Qed.

(** C9: [calculate_mutual_information] returns a value >= 0 for every
    matrix: a loop step at an entry equal to zero leaves the accumulated sum
    unchanged, and an accumulated sum below 0 is replaced by 0 before it is
    returned (any other sum is returned as it is). *)
Theorem mutual_information_nonneg (log2 : Q -> Q) (tp : matrix) :
  0 <= calculate_mutual_information log2 tp
  /\ (forall p_x p_y i j mi,
        entry tp i j == 0 -> mi_step log2 tp p_x p_y i mi j = mi)
  /\ (mi_loops log2 tp < 0 -> calculate_mutual_information log2 tp = 0)
  /\ (0 <= mi_loops log2 tp ->
      calculate_mutual_information log2 tp = mi_loops log2 tp).
Proof.
  unfold calculate_mutual_information.
  destruct (Qle_bool 0 (mi_loops log2 tp)) eqn:Hle; simpl negb; cbv iota.
  - apply Qle_bool_iff in Hle. repeat split; trivial.
    + intros p_x p_y i j mi H0. unfold mi_step.
      replace (gt0 (entry tp i j)) with false; [reflexivity|].
      symmetry. apply gt0_false. rewrite H0. apply Qle_refl.
    + intros Hlt. exfalso. exact (Qlt_not_le _ _ Hlt Hle).
  - repeat split; try apply Qle_refl.
    + intros p_x p_y i j mi H0. unfold mi_step.
      replace (gt0 (entry tp i j)) with false; [reflexivity|].
      symmetry. apply gt0_false. rewrite H0. apply Qle_refl.
    + intros Hge. apply Qle_bool_iff in Hge. congruence.
Qed.

(** C9 on a two-row matrix whose accumulated sum is -2/3 (with x - 1 in
    the place of log2): the value returned is 0. *)
Lemma mutual_information_nonneg_witness :
  calculate_mutual_information (fun x => x - 1) [[1 # 2; 1 # 2]; [0; 1]] = 0.
Proof.
  apply (proj1 (proj2 (proj2
    (mutual_information_nonneg (fun x => x - 1) [[1 # 2; 1 # 2]; [0; 1]])))).
  vm_compute. reflexivity.
Defined.

Lemma update_length {A} (l : list A) i f : length (update l i f) = length l.
Proof.
  revert i. induction l as [|x l IH]; intros [|i]; simpl; auto.
Qed.

Lemma nth_update_same {A} (l : list A) i f d :
  (i < length l)%nat -> nth i (update l i f) d = f (nth i l d).
Proof.
  revert i. induction l as [|x l IH]; intros [|i] Hi; simpl in *;
    try lia; auto. apply IH. lia.
Qed.

Lemma nth_update_other {A} (l : list A) i k f d :
  i <> k -> nth i (update l k f) d = nth i l d.
Proof.
  revert i k. induction l as [|x l IH]; intros [|i] [|k] Hik; simpl;
    try congruence; auto.
Qed.

Lemma Forall_update {A} (P : A -> Prop) (l : list A) i f :
  (forall x, P x -> P (f x)) -> Forall P l -> Forall P (update l i f).
Proof.
  intros Hf. revert i. induction l as [|x l IH]; intros [|i] Hl; simpl;
    inversion Hl; subst; constructor; auto.
Qed.

Lemma sum_update_incr row j :
  (j < length row)%nat -> sum (update row j (fun c => c + 1)) == sum row + 1.
Proof.
  revert j. induction row as [|x row IH]; intros [|j] Hj; simpl in *;
    try lia.
  - ring.
  - rewrite IH by lia. ring.
Qed.

Lemma sum_zeros n : sum (repeat 0 n) == 0.
Proof. induction n as [|n IH]; simpl; [reflexivity|]. rewrite IH. ring. Qed.

Lemma sum_nonneg row : Forall (Qle 0) row -> 0 <= sum row.
Proof.
  induction 1 as [|x row Hx _ IH]; simpl; [apply Qle_refl|].
  rewrite <- (Qplus_0_r 0). now apply Qplus_le_compat.
Qed.

Lemma sum_scaled row d : sum (map (fun c => c / d) row) == sum row / d.
Proof.
  induction row as [|x row IH]; simpl.
  - unfold Qdiv. ring.
  - rewrite IH. unfold Qdiv. ring.
Qed.

Lemma byte_index_bounded b : (Byte.to_nat b < num_states)%nat.
Proof. pose proof (Byte.to_nat_bounded b). unfold num_states. lia. Qed.

Lemma counts_inv_zeros : counts_inv [] (zeros num_states num_states).
Proof.
  unfold zeros. split.
  - apply repeat_length.
  - apply Forall_forall. intros row Hrow.
    apply repeat_spec in Hrow. subst. apply repeat_length.
  - apply Forall_forall. intros row Hrow.
    apply repeat_spec in Hrow. subst.
    apply Forall_forall. intros c Hc.
    apply repeat_spec in Hc. subst. apply Qle_refl.
  - intros i Hi. rewrite nth_repeat_lt by assumption. apply sum_zeros.
Qed.

Lemma occurrences_snoc seen xy i :
  occurrences (seen ++ [xy]) i
  == occurrences seen i
     + (if Nat.eq_dec (Byte.to_nat (fst xy)) i then 1 else 0).
Proof.
  unfold occurrences, prefix_inputs.
  rewrite map_app, count_occ_app. simpl.
  destruct (Nat.eq_dec (Byte.to_nat (fst xy)) i).
  - rewrite Nat2Z.inj_add, inject_Z_plus. reflexivity.
  - rewrite Nat.add_0_r. ring.
Qed.

Lemma counts_inv_step seen m xy :
  counts_inv seen m -> counts_inv (seen ++ [xy]) (count_pair m xy).
Proof.
  intros [Hrows Hcols Hnn Hsums]. unfold count_pair.
  pose proof (byte_index_bounded (fst xy)) as Hx.
  pose proof (byte_index_bounded (snd xy)) as Hy.
  split.
  - now rewrite update_length.
  - apply Forall_update; [|assumption].
    intros row Hrow. now rewrite update_length.
  - apply Forall_update; [|assumption].
    intros row Hrow. apply Forall_update; [|assumption].
    intros c Hc. rewrite <- (Qplus_0_r 0).
    apply Qplus_le_compat; [assumption|discriminate].
  - intros i Hi. rewrite occurrences_snoc.
    destruct (Nat.eq_dec (Byte.to_nat (fst xy)) i) as [<-|Hne].
    + rewrite nth_update_same by lia.
      rewrite sum_update_incr.
      * now rewrite Hsums.
      * rewrite Forall_forall in Hcols. rewrite (Hcols (nth _ m [])).
        -- exact Hy.
        -- apply nth_In. lia.
    + rewrite nth_update_other by congruence.
      rewrite Hsums by assumption. ring.
Qed.

Lemma counts_inv_loop pairs : forall seen m,
  counts_inv seen m ->
  counts_inv (seen ++ pairs) (fold_left count_pair pairs m).
Proof.
  induction pairs as [|xy pairs IH]; intros seen m Hinv; simpl.
  - now rewrite app_nil_r.
  - replace (seen ++ xy :: pairs) with ((seen ++ [xy]) ++ pairs)
      by (now rewrite <- app_assoc).
    apply IH. now apply counts_inv_step.
Qed.

Lemma calculate_channel_probabilities_rows input_data noise_data :
  calculate_channel_probabilities input_data noise_data
  = map normalise
        (fold_left count_pair (combine input_data noise_data)
                   (zeros num_states num_states)).
Proof.
  unfold calculate_channel_probabilities, sum_axis1.
  generalize (fold_left count_pair (combine input_data noise_data)
                        (zeros num_states num_states)).
  intros m. induction m as [|row m IH]; simpl; [reflexivity|].
  now rewrite IH.
Qed.

Lemma normalise_positive row :
  0 < sum row -> normalise row = map (fun c => c / sum row) row.
Proof.
  intros Hpos. unfold normalise. apply map_ext. intros c.
  now rewrite (proj2 (gt0_true _) Hpos).
Qed.

Lemma normalise_zero row :
  sum row <= 0 -> normalise row = map (fun _ => 0) row.
Proof.
  intros Hz. unfold normalise. apply map_ext. intros c.
  now rewrite (proj2 (gt0_false _) Hz).
Qed.

Lemma normalise_nonneg row :
  Forall (Qle 0) row -> Forall (Qle 0) (normalise row).
Proof.
  intros Hrow. unfold normalise. rewrite Forall_forall in *.
  intros p Hp. apply in_map_iff in Hp as [c [<- Hc]].
  destruct (gt0 (sum row)) eqn:Hs; [|apply Qle_refl].
  apply gt0_true in Hs. apply Qle_shift_div_l; [assumption|].
  rewrite Qmult_0_l. now apply Hrow.
Qed.

End ChannelFacts.

(** ** Python containers and byte conversions *)

Section PyFacts.

Import Py.
Local Open Scope Z_scope.

Lemma is_byte_spec x : is_byte x = true <-> 0 <= x < 256.
Proof. unfold is_byte. rewrite andb_true_iff, Z.leb_le, Z.ltb_lt. tauto. Qed.

Lemma little_digits_length x n : length (little_digits x n) = n.
Proof. revert x. induction n as [|n IH]; intros x; simpl; auto. Qed.

Lemma little_digits_bytes x n :
  Forall (fun b => 0 <= b < 256) (little_digits x n).
Proof.
  revert x. induction n as [|n IH]; intros x; simpl; constructor.
  - apply Z.mod_pos_bound. lia.
  - apply IH.
Qed.

Lemma from_little_digits x n :
  0 <= x < 256 ^ Z.of_nat n -> from_bytes_little (little_digits x n) = x.
Proof.
  revert x. induction n as [|n IH]; intros x Hx.
  - simpl in *. lia.
  - cbn [little_digits from_bytes_little].
    rewrite Nat2Z.inj_succ, Z.pow_succ_r in Hx by lia.
    rewrite IH.
    + pose proof (Z.div_mod x 256). lia.
    + split; [apply Z.div_pos; lia|].
      apply Z.div_lt_upper_bound; lia.
Qed.

Lemma to_bytes_little_ok x n :
  0 <= x < 256 ^ Z.of_nat n -> to_bytes_little x n = Ok (little_digits x n).
Proof.
  intros Hx. unfold to_bytes_little.
  destruct (Z.ltb_spec x 0); [lia|].
  destruct (Z.leb_spec (256 ^ Z.of_nat n) x); [lia|]. reflexivity.
Qed.

Lemma to_bytes_little_inv x n b :
  to_bytes_little x n = Ok b ->
  0 <= x < 256 ^ Z.of_nat n /\ b = little_digits x n.
Proof.
  unfold to_bytes_little.
  destruct (Z.ltb_spec x 0); [discriminate|].
  destruct (Z.leb_spec (256 ^ Z.of_nat n) x); [discriminate|].
  simpl. intros [= <-]. split; [lia|reflexivity].
Qed.

Lemma bytearray_append_inv b x b' :
  bytearray_append b x = Ok b' -> 0 <= x < 256 /\ b' = b ++ [x].
Proof.
  unfold bytearray_append. destruct (is_byte x) eqn:Hx; [|discriminate].
  intros [= <-]. split; [now apply is_byte_spec|reflexivity].
Qed.

Lemma bytearray_append_ok b x :
  0 <= x < 256 -> bytearray_append b x = Ok (b ++ [x]).
Proof.
  intros Hx. unfold bytearray_append.
  now rewrite (proj2 (is_byte_spec x) Hx).
Qed.

Lemma index_app_middle {A} (pre post : list A) x :
  index (pre ++ x :: post) (length pre) = Ok x.
Proof.
  unfold index. rewrite nth_error_app2 by lia.
  now rewrite Nat.sub_diag.
Qed.

Lemma py_slice_app_middle {A} (pre mid post : list A) :
  py_slice (pre ++ mid ++ post) (length pre) (length pre + length mid) = mid.
Proof.
  unfold py_slice. rewrite skipn_app, skipn_all, Nat.sub_diag. simpl.
  replace (length pre + length mid - length pre)%nat with (length mid) by lia.
  rewrite firstn_app, firstn_all, Nat.sub_diag. simpl. apply app_nil_r.
Qed.

(** [sorted] returns its argument in ascending order. *)
Lemma insert_sorted_perm x l : Permutation (insert_sorted x l) (x :: l).
Proof.
  induction l as [|y l IH]; simpl; [reflexivity|].
  destruct (x <=? y); [reflexivity|].
  rewrite IH. apply perm_swap.
Qed.

Lemma sorted_perm l : Permutation (sorted l) l.
Proof.
  induction l as [|x l IH]; simpl; [reflexivity|].
  rewrite insert_sorted_perm. now constructor.
Qed.

Lemma insert_sorted_ascending x l :
  StronglySorted Z.le l -> StronglySorted Z.le (insert_sorted x l).
Proof.
  induction 1 as [|y l Hl IH Hy]; simpl.
  - repeat constructor.
  - destruct (Z.leb_spec x y).
    + constructor; [now constructor|].
      constructor; [assumption|].
      eapply Forall_impl; [|exact Hy]. simpl. intros; lia.
    + constructor; [assumption|].
      eapply Permutation_Forall.
      * symmetry. apply insert_sorted_perm.
      * constructor; [lia|assumption].
Qed.

Lemma sorted_ascending l : StronglySorted Z.le (sorted l).
Proof.
  induction l as [|x l IH]; simpl; [constructor|].
  now apply insert_sorted_ascending.
Qed.

Lemma ascending_strict l :
  NoDup l -> StronglySorted Z.le l -> StronglySorted Z.lt l.
Proof.
  intros Hnd Hs. induction Hs as [|x l Hl IH Hx]; [constructor|].
  inversion Hnd as [|? ? Hnotin Hnd']; subst.
  constructor; [now apply IH|].
  rewrite Forall_forall in *. intros y Hy.
  specialize (Hx y Hy).
  assert (x <> y) by (intros ->; contradiction). lia.
Qed.

Lemma sorted_strict l : NoDup l -> StronglySorted Z.lt (sorted l).
Proof.
  intros Hnd. apply ascending_strict; [|apply sorted_ascending].
  eapply Permutation_NoDup; [|exact Hnd]. symmetry. apply sorted_perm.
Qed.

End PyFacts.

Section DictFacts.

Import Py.

Variables (K V : Type) (eqb : K -> K -> bool).
Hypothesis eqb_eq : forall a b, eqb a b = true <-> a = b.

Lemma eqb_neq a b : eqb a b = false <-> a <> b.
Proof. rewrite <- eqb_eq. destruct (eqb a b); split; congruence. Qed.

Lemma dict_get_in (d : dict K V) k v :
  dict_get eqb d k = Some v -> In (k, v) d.
Proof.
  induction d as [|[k' v'] d IH]; simpl; [discriminate|].
  destruct (eqb k' k) eqn:E.
  - apply eqb_eq in E. intros [= <-]. left. now subst.
  - intros H. right. now apply IH.
Qed.

Lemma dict_get_none (d : dict K V) k :
  dict_get eqb d k = None <-> ~ In k (map fst d).
Proof.
  induction d as [|[k' v'] d IH]; simpl; [tauto|].
  destruct (eqb k' k) eqn:E.
  - apply eqb_eq in E. split; [discriminate|]. intros H. exfalso. auto.
  - apply eqb_neq in E. rewrite IH. tauto.
Qed.

Lemma in_dict_get (d : dict K V) k v :
  NoDup (map fst d) -> In (k, v) d -> dict_get eqb d k = Some v.
Proof.
  induction d as [|[k' v'] d IH]; simpl; [tauto|].
  intros Hnd [Heq|Hin].
  - injection Heq as -> ->.
    now rewrite (proj2 (eqb_eq k k) eq_refl).
  - inversion Hnd as [|? ? Hnotin Hnd']; subst.
    destruct (eqb k' k) eqn:E.
    + apply eqb_eq in E. subst. exfalso. apply Hnotin.
      change k with (fst (k, v)). now apply in_map.
    + now apply IH.
Qed.

Lemma dict_set_fresh (d : dict K V) k v :
  ~ In k (map fst d) -> dict_set eqb d k v = d ++ [(k, v)].
Proof.
  induction d as [|[k' v'] d IH]; simpl; [reflexivity|].
  intros Hnotin. destruct (eqb k' k) eqn:E.
  - apply eqb_eq in E. tauto.
  - rewrite IH by tauto. reflexivity.
Qed.

Lemma dict_set_keys (d : dict K V) k v :
  In k (map fst d) -> map fst (dict_set eqb d k v) = map fst d.
Proof.
  induction d as [|[k' v'] d IH]; simpl; [tauto|].
  intros Hin. destruct (eqb k' k) eqn:E; simpl; [reflexivity|].
  apply eqb_neq in E. rewrite IH; [reflexivity|].
  destruct Hin; [contradiction|assumption].
Qed.

Lemma dict_set_nodup (d : dict K V) k v :
  NoDup (map fst d) -> NoDup (map fst (dict_set eqb d k v)).
Proof.
  intros Hnd. destruct (dict_get eqb d k) eqn:Hget.
  - rewrite dict_set_keys; [assumption|].
    apply dict_get_in in Hget. change k with (fst (k, v0)). now apply in_map.
  - apply dict_get_none in Hget. rewrite dict_set_fresh by assumption.
    rewrite map_app. simpl.
    apply NoDup_app; [assumption|repeat constructor; auto|].
    intros x Hx [->|[]]. contradiction.
Qed.

Lemma fold_dict_set_nodup (items : list (K * V)) : forall d,
  NoDup (map fst d) ->
  NoDup (map fst (fold_left (fun d kv => dict_set eqb d (fst kv) (snd kv))
                            items d)).
Proof.
  induction items as [|kv items IH]; intros d Hd; simpl; [assumption|].
  apply IH. now apply dict_set_nodup.
Qed.

Lemma dict_of_items_nodup (items : list (K * V)) :
  NoDup (map fst (dict_of_items eqb items)).
Proof. apply fold_dict_set_nodup. constructor. Qed.

Lemma fold_dict_set_fresh (items : list (K * V)) : forall d,
  NoDup (map fst (d ++ items)) ->
  fold_left (fun d kv => dict_set eqb d (fst kv) (snd kv)) items d
  = d ++ items.
Proof.
  induction items as [|[k v] items IH]; intros d Hnd; simpl.
  - now rewrite app_nil_r.
  - rewrite dict_set_fresh.
    + rewrite IH; rewrite <- app_assoc; [reflexivity|assumption].
    + rewrite map_app in Hnd. simpl in Hnd.
      apply NoDup_remove_2 in Hnd. intros Hin. apply Hnd.
      apply in_or_app. now left.
Qed.

Lemma dict_of_items_id (items : list (K * V)) :
  NoDup (map fst items) -> dict_of_items eqb items = items.
Proof. intros Hnd. now apply (fold_dict_set_fresh items []). Qed.

End DictFacts.

(** ** The prefix codec: trees, codes and bit strings *)

Section CodeFacts.

Import Huffman.
Local Open Scope Z_scope.

Lemma tree_codes_paths t :
  tree_codes t = map (fun sp => (fst sp, path_code (snd sp))) (paths t).
Proof.
  induction t as [s|a IHa b IHb]; [reflexivity|].
  cbn [tree_codes paths]. rewrite IHa, IHb, map_app, !map_map.
  f_equal; apply map_ext; intros [s p]; unfold path_code;
    cbn -[Z.of_nat Z.pow Z.mul Z.add]; rewrite Nat2Z.inj_succ;
    do 2 f_equal; lia.
Qed.

Lemma paths_leaves t : map fst (paths t) = leaves t.
Proof.
  induction t as [s|a IHa b IHb]; [reflexivity|].
  cbn [paths leaves]. now rewrite map_app, !map_map, <- IHa, <- IHb.
Qed.

Lemma tree_codes_keys t : map fst (tree_codes t) = leaves t.
Proof. now rewrite tree_codes_paths, map_map, <- paths_leaves. Qed.

Lemma bits_value_bound p : 0 <= bits_value p < 2 ^ Z.of_nat (length p).
Proof.
  induction p as [|b p IH]; [simpl; lia|].
  cbn [bits_value length]. rewrite Nat2Z.inj_succ, Z.pow_succ_r by lia.
  destruct b; simpl Z.b2z; lia.
Qed.

Lemma bits_value_snoc p b : bits_value (p ++ [b]) = 2 * bits_value p + Z.b2z b.
Proof.
  induction p as [|x p IH]; [simpl; lia|].
  cbn [app bits_value]. rewrite IH, length_app. simpl length.
  rewrite Nat2Z.inj_add. change (Z.of_nat 1) with 1.
  rewrite Z.pow_add_r by lia. ring.
Qed.

Lemma testbit_top b n v :
  0 <= v < 2 ^ Z.of_nat n ->
  Z.testbit (Z.b2z b * 2 ^ Z.of_nat n + v) (Z.of_nat n) = b.
Proof.
  intros Hv. rewrite Z.testbit_eqb by lia.
  rewrite Z.add_comm, Z.div_add by lia.
  rewrite Z.div_small by lia. destruct b; reflexivity.
Qed.

Lemma testbit_below b n v k :
  (k < n)%nat ->
  Z.testbit (Z.b2z b * 2 ^ Z.of_nat n + v) (Z.of_nat k)
  = Z.testbit v (Z.of_nat k).
Proof.
  intros Hk.
  rewrite <- (Z.mod_pow2_bits_low _ (Z.of_nat n)) by lia.
  rewrite Z.add_comm, Z.mod_add by lia.
  apply Z.mod_pow2_bits_low. lia.
Qed.

Lemma code_bits_path p : code_bits (Z.of_nat (length p)) (bits_value p) = p.
Proof.
  unfold code_bits. rewrite Nat2Z.id.
  induction p as [|b p IH]; [reflexivity|].
  cbn [length bits_value]. rewrite seq_S, rev_app_distr. cbn [rev app map plus].
  f_equal.
  - apply testbit_top, bits_value_bound.
  - etransitivity; [|exact IH]. apply map_ext_in. intros k Hk.
    apply in_rev, in_seq in Hk. apply testbit_below. lia.
Qed.

Lemma path_code_inj p q : path_code p = path_code q -> p = q.
Proof.
  unfold path_code. intros [= Hlen Hval].
  rewrite <- (code_bits_path p), <- (code_bits_path q).
  now rewrite Hlen, Hval.
Qed.

(** No path to a leaf continues to another leaf. *)
Lemma paths_prefix_free t s p s' r :
  In (s, p) (paths t) -> In (s', p ++ r) (paths t) -> r = [] /\ s = s'.
Proof.
  revert p. induction t as [x|a IHa b IHb]; intros p; cbn [paths].
  - intros [[= <- <-]|[]] [[= <- Hr]|[]]. simpl in Hr. now subst.
  - rewrite !in_app_iff, !in_map_iff.
    intros [[[x q] [[= <- <-] Hq]]|[[x q] [[= <- <-] Hq]]]
           [[[y q'] [[= <- Hq'eq] Hq']]|[[y q'] [[= <- Hq'eq] Hq']]];
      cbn [fst snd app] in *; try discriminate.
    + subst q'. eapply IHa; eassumption.
    + subst q'. eapply IHb; eassumption.
Qed.

Lemma leaves_nonempty t : (1 <= length (leaves t))%nat.
Proof.
  induction t as [s|a IHa b IHb]; simpl; [lia|]. rewrite length_app. lia.
Qed.

(** A leaf is less deep than the tree has leaves. *)
Lemma paths_depth t s p :
  In (s, p) (paths t) -> (length p < length (leaves t))%nat.
Proof.
  revert p. induction t as [x|a IHa b IHb]; intros p; cbn [paths leaves].
  - intros [[= <- <-]|[]]. simpl. lia.
  - pose proof (leaves_nonempty a). pose proof (leaves_nonempty b).
    rewrite in_app_iff, !in_map_iff, length_app.
    intros [[[x q] [[= <- <-] Hq]]|[[x q] [[= <- <-] Hq]]];
      cbn [fst snd length].
    + apply IHa in Hq. lia.
    + apply IHb in Hq. lia.
Qed.

Lemma paths_node_nonempty a b s p : In (s, p) (paths (Node a b)) -> p <> [].
Proof.
  cbn [paths]. rewrite in_app_iff, !in_map_iff.
  intros [[[x q] [[= <- <-] _]]|[[x q] [[= <- <-] _]]]; discriminate.
Qed.

(** The leftmost leaf is reached by zeros only. *)
Lemma paths_leftmost t : exists s d, In (s, repeat false d) (paths t).
Proof.
  induction t as [x|a [s [d IHa]] b _].
  - exists x, 0%nat. now left.
  - exists s, (S d). cbn [paths repeat]. apply in_or_app. left.
    apply in_map_iff. exists (s, repeat false d).
    split; [reflexivity|assumption].
Qed.

End CodeFacts.

(** ** Building the code table *)

Section FromFrequenciesFacts.

Import Huffman.
Local Open Scope Z_scope.

Variable W : Type.
Variable wadd : W -> W -> W.
Variable node_leb : W * Huffman.tree -> W * Huffman.tree -> bool.

Lemma heap_push_leaves x (h : heap W) :
  Permutation (heap_leaves (heap_push node_leb x h))
              (leaves (snd x) ++ heap_leaves h).
Proof.
  induction h as [|y h IH]; simpl; [reflexivity|].
  destruct (node_leb y x); [|reflexivity].
  unfold heap_leaves in *. cbn [map concat].
  rewrite IH, !app_assoc. apply Permutation_app_tail, Permutation_app_comm.
Qed.

Lemma heapify_leaves (l : list (W * tree)) :
  Permutation (heap_leaves (heapify node_leb l)) (heap_leaves l).
Proof.
  induction l as [|x l IH]; simpl; [reflexivity|].
  rewrite heap_push_leaves. unfold heap_leaves at 2. cbn [map concat].
  now apply Permutation_app_head.
Qed.

Lemma heapify_length (l : list (W * tree)) :
  length (heapify node_leb l) = length l.
Proof.
  induction l as [|x l IH]; simpl; [reflexivity|].
  now rewrite heap_push_length, IH.
Qed.

(** Merging keeps every symbol and ends with one tree. *)
Lemma merge_lowest_leaves (h : heap W) :
  h <> [] ->
  exists t, merge_lowest wadd node_leb h = Some t
            /\ Permutation (leaves t) (heap_leaves h).
Proof.
  funelim (merge_lowest wadd node_leb h); intros Hne.
  - congruence.
  - exists (snd a). split; [reflexivity|].
    unfold heap_leaves. simpl. now rewrite app_nil_r.
  - destruct H as [t [Ht Hperm]].
    { destruct h; simpl; [discriminate|].
      destruct (node_leb _ _); discriminate. }
    exists t. split; [assumption|].
    rewrite Hperm, heap_push_leaves. unfold heap_leaves. simpl.
    now rewrite app_assoc.
Qed.

Lemma leaf_heap_leaves (frequencies : Py.dict Z W) :
  heap_leaves (map (fun sf => (snd sf, Leaf (fst sf))) frequencies)
  = map fst frequencies.
Proof.
  unfold heap_leaves. induction frequencies as [|[s w] f IH]; simpl;
    [reflexivity|]. now f_equal.
Qed.

(** [from_frequencies] on a non-empty dict: the table lists the codes of a
    tree whose leaves are the symbols of the dict. *)
Lemma from_frequencies_tree (frequencies : Py.dict Z W) :
  frequencies <> [] ->
  exists t,
    from_frequencies wadd node_leb frequencies
    = Ok {| table := Py.dict_of_items Z.eqb (tree_codes t) |}
    /\ Permutation (leaves t) (map fst frequencies).
Proof.
  intros Hne. unfold from_frequencies.
  destruct (@merge_lowest_leaves
              (heapify node_leb (map (fun sf => (snd sf, Leaf (fst sf)))
                                 frequencies))) as [t [Ht Hperm]].
  - intros Hnil. apply (f_equal (@length _)) in Hnil.
    rewrite heapify_length, length_map in Hnil.
    destruct frequencies; [congruence|discriminate].
  - exists t. rewrite Ht. split; [reflexivity|].
    now rewrite Hperm, heapify_leaves, leaf_heap_leaves.
Qed.

End FromFrequenciesFacts.

(** ** The encoder writes the blob layout *)

Section EncoderFacts.

Import Huffman SourceEncoder BlobFormat.
Local Open Scope Z_scope.

Lemma header_entry_inv code_table header symbol header' :
  header_entry code_table header symbol = Ok header' ->
  exists code,
    table_get code_table symbol = Some code
    /\ entry_fits (symbol, code)
    /\ header' = header ++ entry_bytes (symbol, code).
Proof.
  unfold header_entry.
  destruct (table_get code_table symbol) as [[bits value]|]; [|discriminate].
  destruct (Py.bytearray_append header symbol) as [h1|] eqn:H1;
    cbn [bind]; [|discriminate].
  destruct (Py.bytearray_append h1 bits) as [h2|] eqn:H2;
    cbn [bind]; [|discriminate].
  destruct (Py.to_bytes_little value _) as [vb|] eqn:H3;
    cbn [bind]; [|discriminate].
  intros [= <-].
  apply bytearray_append_inv in H1 as [Hs ->].
  apply bytearray_append_inv in H2 as [Hb ->].
  apply to_bytes_little_inv in H3 as [Hv ->].
  exists (bits, value). repeat split; try lia.
  unfold entry_bytes. now rewrite <- !app_assoc.
Qed.

Lemma header_entry_ok code_table header symbol code :
  table_get code_table symbol = Some code ->
  entry_fits (symbol, code) ->
  header_entry code_table header symbol
  = Ok (header ++ entry_bytes (symbol, code)).
Proof.
  destruct code as [bits value]. intros Hget (Hs & Hb & Hv).
  unfold header_entry. rewrite Hget.
  rewrite bytearray_append_ok by assumption. cbn [bind].
  rewrite bytearray_append_ok by assumption. cbn [bind].
  rewrite to_bytes_little_ok by assumption. cbn [bind].
  unfold entry_bytes. now rewrite <- !app_assoc.
Qed.

Lemma header_entries_inv code_table symbols : forall header header',
  header_entries code_table header symbols = Ok header' ->
  Forall (fun s => table_get code_table s <> None) symbols
  /\ Forall entry_fits (map (entry_of code_table) symbols)
  /\ header' = header ++ table_bytes (map (entry_of code_table) symbols).
Proof.
  induction symbols as [|s symbols IH]; intros header header'.
  - simpl. intros [= <-]. repeat split; try constructor.
    now rewrite app_nil_r.
  - cbn [header_entries].
    destruct (header_entry code_table header s) as [h1|] eqn:H1;
      cbn [bind]; [|discriminate].
    intros Hrest. apply IH in Hrest as (Hget & Hfits & ->).
    apply header_entry_inv in H1 as (code & Hcode & Hfit & ->).
    assert (Heq : entry_of code_table s = (s, code))
      by (unfold entry_of; now rewrite Hcode).
    repeat split.
    + constructor; [congruence|assumption].
    + cbn [map]. rewrite Heq. now constructor.
    + unfold table_bytes. cbn [map concat]. rewrite Heq.
      now rewrite <- app_assoc.
Qed.

Lemma header_entries_ok code_table symbols : forall header,
  Forall (fun s => table_get code_table s <> None) symbols ->
  Forall entry_fits (map (entry_of code_table) symbols) ->
  header_entries code_table header symbols
  = Ok (header ++ table_bytes (map (entry_of code_table) symbols)).
Proof.
  induction symbols as [|s symbols IH]; intros header Hget Hfits.
  - simpl. now rewrite app_nil_r.
  - inversion Hget as [|? ? Hs Hget']; subst.
    inversion Hfits as [|? ? Hf Hfits']; subst.
    cbn [header_entries].
    destruct (table_get code_table s) as [code|] eqn:Hcode; [|congruence].
    assert (Heq : entry_of code_table s = (s, code))
      by (unfold entry_of; now rewrite Hcode).
    rewrite Heq in Hf.
    rewrite (@header_entry_ok code_table header s code Hcode Hf). cbn [bind].
    rewrite IH by assumption.
    unfold table_bytes. cbn [map concat]. rewrite Heq.
    now rewrite <- app_assoc.
Qed.

Lemma table_get_key (code_table : code_dict) s :
  In s (map fst code_table) -> table_get code_table s <> None.
Proof.
  intros Hin Hnone. unfold table_get in Hnone.
  apply (dict_get_none Z.eqb Z.eqb_eq) in Hnone. contradiction.
Qed.

Lemma sorted_keys_get (code_table : code_dict) :
  Forall (fun s => table_get code_table s <> None)
         (Py.sorted (map fst code_table)).
Proof.
  apply Forall_forall. intros s Hs. apply table_get_key.
  eapply Permutation_in; [apply sorted_perm|exact Hs].
Qed.

(** [(bits + 7) // 8] is ceil(bits / 8). *)
Lemma bytes_needed_ceiling bits :
  8 * ((bits + 7) / 8 - 1) < bits <= 8 * ((bits + 7) / 8).
Proof.
  pose proof (Z.div_mod (bits + 7) 8 ltac:(lia)).
  pose proof (Z.mod_pos_bound (bits + 7) 8 ltac:(lia)). lia.
Qed.

Lemma entry_bytes_length e :
  entry_fits e -> (2 <= length (entry_bytes e) <= 34)%nat.
Proof.
  destruct e as [s [bits value]]. intros (Hs & Hb & Hv).
  unfold entry_bytes. rewrite length_app, little_digits_length.
  cbn [length].
  assert ((bits + 7) / 8 < 33) by (apply Z.div_lt_upper_bound; lia).
  assert (0 <= (bits + 7) / 8) by (apply Z.div_pos; lia).
  lia.
Qed.

Lemma table_bytes_length entries :
  Forall entry_fits entries ->
  (2 * length entries <= length (table_bytes entries)
   <= 34 * length entries)%nat.
Proof.
  unfold table_bytes.
  induction 1 as [|e entries He _ IH]; cbn [map concat length]; [lia|].
  rewrite length_app. pose proof (@entry_bytes_length e He). lia.
Qed.

Lemma sorted_entries_length (code_table : code_dict) :
  length (sorted_entries code_table) = length code_table.
Proof.
  unfold sorted_entries. rewrite length_map.
  now rewrite (Permutation_length (sorted_perm (map fst code_table))),
    length_map.
Qed.

Lemma header_length (c l : Z) entries :
  Z.of_nat (length ((([] ++ [c]) ++ Py.little_digits l 4)
                    ++ table_bytes entries)) + 2
  = header_size entries.
Proof.
  unfold header_size. rewrite !length_app, little_digits_length.
  simpl length. lia.
Qed.

Section Main.

Variable W : Type.
Variable wadd : W -> W -> W.
Variable node_leb : W * Huffman.tree -> W * Huffman.tree -> bool.

(** Every blob [main] writes has the layout of the format, filled with the
    items of the code table the codec encodes with. *)
Lemma main_inv (frequencies : Py.dict Z W) (data blob : list Z) :
  main wadd node_leb frequencies data = Ok blob ->
  exists codec0 payload,
    from_frequencies wadd node_leb frequencies = Ok codec0
    /\ encode (force_unique_symbol codec0) data = Ok payload
    /\ data <> []
    /\ (1 <= length (table (force_unique_symbol codec0)) <= 256)%nat
    /\ Z.of_nat (length data) < 2 ^ 32
    /\ Forall entry_fits (sorted_entries (table (force_unique_symbol codec0)))
    /\ header_size (sorted_entries (table (force_unique_symbol codec0)))
       < 65536
    /\ blob = blob_layout (sorted_entries (table (force_unique_symbol codec0)))
                          (Z.of_nat (length data)) payload.
Proof.
  unfold main. destruct frequencies as [|f0 frequencies]; [discriminate|].
  destruct (from_frequencies wadd node_leb (f0 :: frequencies)) as [codec0|];
    cbn [bind]; [|discriminate].
  destruct (Z.eqb_spec (Z.of_nat (length data)) 0) as [|Hlen]; [discriminate|].
  unfold get_code_table.
  set (ct := table (force_unique_symbol codec0)).
  destruct (encode (force_unique_symbol codec0) data) as [payload|] eqn:Henc;
    [|discriminate].
  destruct (Py.bytearray_append [] _) as [h0|] eqn:H0;
    cbn [bind]; [|discriminate].
  destruct (Py.to_bytes_little (Z.of_nat (length data)) 4) as [lb|] eqn:H1;
    cbn [bind]; [|discriminate].
  destruct (header_entries ct (h0 ++ lb) _) as [h2|] eqn:H2;
    cbn [bind]; [|discriminate].
  destruct (Py.to_bytes_little _ 2) as [sb|] eqn:H3;
    cbn [bind]; [|discriminate].
  intros [= <-].
  apply bytearray_append_inv in H0 as [Hcnt ->].
  apply to_bytes_little_inv in H1 as [HL ->].
  apply header_entries_inv in H2 as (_ & Hfits & ->).
  apply to_bytes_little_inv in H3 as [Hhs ->].
  fold (sorted_entries ct) in *.
  rewrite header_length in *.
  change (256 ^ Z.of_nat 4) with (2 ^ 32) in HL.
  change (256 ^ Z.of_nat 2) with 65536 in Hhs.
  exists codec0, payload. fold ct. clearbody ct.
  split; [reflexivity|]. split; [assumption|].
  split; [destruct data; [simpl in Hlen; lia|discriminate]|].
  split; [lia|]. split; [lia|]. split; [assumption|]. split; [lia|].
  unfold blob_layout. rewrite sorted_entries_length.
  rewrite <- !app_assoc. reflexivity.
Qed.

Lemma main_ok (frequencies : Py.dict Z W) (data payload : list Z) codec0 :
  frequencies <> [] ->
  from_frequencies wadd node_leb frequencies = Ok codec0 ->
  encode (force_unique_symbol codec0) data = Ok payload ->
  data <> [] ->
  (1 <= length (table (force_unique_symbol codec0)) <= 256)%nat ->
  Z.of_nat (length data) < 2 ^ 32 ->
  Forall entry_fits (sorted_entries (table (force_unique_symbol codec0))) ->
  main wadd node_leb frequencies data
  = Ok (blob_layout (sorted_entries (table (force_unique_symbol codec0)))
                    (Z.of_nat (length data)) payload).
Proof.
  intros Hf Hc0 Henc Hdata Hcnt HL Hfits.
  unfold main. destruct frequencies as [|f0 frequencies]; [congruence|].
  rewrite Hc0. cbn [bind].
  destruct (Z.eqb_spec (Z.of_nat (length data)) 0) as [Hlen|_].
  { destruct data; [congruence|simpl in Hlen; lia]. }
  unfold get_code_table.
  set (ct := table (force_unique_symbol codec0)) in *.
  rewrite Henc.
  rewrite bytearray_append_ok by lia. cbn [bind].
  rewrite to_bytes_little_ok by (change (256 ^ Z.of_nat 4) with (2 ^ 32); lia).
  cbn [bind].
  rewrite header_entries_ok; [|apply sorted_keys_get|exact Hfits].
  cbn [bind]. fold (sorted_entries ct).
  rewrite header_length.
  rewrite to_bytes_little_ok.
  - cbn [bind]. unfold blob_layout. rewrite sorted_entries_length.
    rewrite <- !app_assoc. reflexivity.
  - pose proof (@table_bytes_length _ Hfits) as Hb.
    rewrite sorted_entries_length in Hb. clearbody ct.
    unfold header_size. change (256 ^ Z.of_nat 2) with 65536. lia.
Qed.

End Main.

End EncoderFacts.

(** ** The decoder reads the blob layout back *)

Section ParserFacts.

Import Huffman SourceDecoder BlobFormat.
Local Open Scope Z_scope.

Lemma index_at {A} (pre post : list A) x n :
  n = length pre -> Py.index (pre ++ x :: post) n = Ok x.
Proof. intros ->. apply index_app_middle. Qed.

Lemma py_slice_at {A} (pre mid post : list A) i j :
  i = length pre -> j = (length pre + length mid)%nat ->
  py_slice (pre ++ mid ++ post) i j = mid.
Proof. intros -> ->. apply py_slice_app_middle. Qed.

Lemma py_slice_prefix {A} (pre rest : list A) n :
  n = length pre -> py_slice (pre ++ rest) 0 n = pre.
Proof.
  intros ->. apply (@py_slice_at _ [] pre rest); reflexivity.
Qed.

Lemma table_set_fresh (t : code_dict) s c :
  ~ In s (map fst t) -> table_set t s c = t ++ [(s, c)].
Proof. apply (dict_set_fresh Z.eqb Z.eqb_eq). Qed.

(** The loop of lines 56-64 reads back the entries it is given. *)
Lemma rebuild_entries entries : forall pre post acc,
  Forall entry_fits entries ->
  NoDup (map fst (acc ++ entries)) ->
  rebuild (pre ++ table_bytes entries ++ post) (length entries)
          (length pre) acc
  = Ok (acc ++ entries, (length pre + length (table_bytes entries))%nat).
Proof.
  induction entries as [|[s [bits value]] entries IH];
    intros pre post acc Hfits Hnd.
  - simpl. now rewrite app_nil_r, Nat.add_0_r.
  - inversion Hfits as [|? ? Hfit Hfits']; subst.
    destruct Hfit as (Hs & Hb & Hv).
    cbn [length rebuild].
    unfold table_bytes. cbn [map concat]. fold (table_bytes entries).
    set (k := Z.to_nat ((bits + 7) / 8)) in *.
    set (vb := Py.little_digits value k).
    assert (Hvb : length vb = k) by apply little_digits_length.
    unfold entry_bytes. fold k. fold vb.
    replace (pre ++ (([s; bits] ++ vb) ++ table_bytes entries) ++ post)
      with (pre ++ s :: (bits :: vb ++ table_bytes entries ++ post))
      by (now rewrite <- !app_assoc).
    rewrite index_at by reflexivity. cbn [bind].
    replace (pre ++ s :: bits :: vb ++ table_bytes entries ++ post)
      with ((pre ++ [s]) ++ bits :: (vb ++ table_bytes entries ++ post))
      by (now rewrite <- app_assoc).
    rewrite index_at by (rewrite length_app; simpl; lia). cbn [bind].
    replace ((pre ++ [s]) ++ bits :: vb ++ table_bytes entries ++ post)
      with ((pre ++ [s; bits]) ++ vb ++ (table_bytes entries ++ post))
      by (now rewrite <- !app_assoc).
    rewrite py_slice_at
      by (rewrite length_app; simpl; rewrite ?Hvb; lia).
    replace (Py.from_bytes_little vb) with value
      by (symmetry; apply from_little_digits; assumption).
    fold k. rewrite table_set_fresh.
    2:{ rewrite map_app in Hnd. simpl in Hnd.
        apply NoDup_remove_2 in Hnd. intros Hin. apply Hnd.
        apply in_or_app. now left. }
    replace ((pre ++ [s; bits]) ++ vb ++ table_bytes entries ++ post)
      with (((pre ++ [s; bits]) ++ vb) ++ table_bytes entries ++ post)
      by (now rewrite <- !app_assoc).
    replace (length pre + 2 + k)%nat
      with (length ((pre ++ [s; bits]) ++ vb))
      by (rewrite !length_app; simpl; lia).
    rewrite IH.
    + rewrite <- app_assoc. simpl app. f_equal. f_equal.
      rewrite !length_app. cbn [length]. rewrite length_app. lia.
    + assumption.
    + now rewrite <- app_assoc.
Qed.

Lemma decode_blob_layout entries original_len payload :
  (1 <= length entries <= 256)%nat ->
  Forall entry_fits entries ->
  NoDup (map fst entries) ->
  0 <= original_len < 2 ^ 32 ->
  decode_blob ([Z.of_nat (length entries) - 1]
               ++ Py.little_digits original_len 4 ++ table_bytes entries)
              payload
  = decode_with entries payload original_len.
Proof.
  intros Hn Hfits Hnd HL. unfold decode_blob.
  cbn [app]. cbn [Py.index nth_error bind].
  replace (Z.to_nat (Z.of_nat (length entries) - 1 + 1))
    with (length entries) by lia.
  rewrite (@py_slice_at _ [Z.of_nat (length entries) - 1]
             (Py.little_digits original_len 4) (table_bytes entries))
    by (rewrite ?little_digits_length; reflexivity).
  rewrite from_little_digits by (change (256 ^ Z.of_nat 4) with (2 ^ 32); lia).
  pose proof (@rebuild_entries entries
                (Z.of_nat (length entries) - 1
                 :: Py.little_digits original_len 4) [] [] Hfits Hnd) as Hre.
  rewrite app_nil_r in Hre. cbn [app length] in Hre.
  rewrite little_digits_length in Hre.
  change (0 + 1 + 4)%nat with 5%nat.
  rewrite Hre. cbn [bind]. reflexivity.
Qed.

(** The decoder on a well-formed blob: the header fields are read back and
    the payload is decoded with the table of the header. *)
Lemma main_blob_layout entries original_len payload :
  (1 <= length entries <= 256)%nat ->
  Forall entry_fits entries ->
  NoDup (map fst entries) ->
  0 <= original_len < 2 ^ 32 ->
  SourceDecoder.main (blob_layout entries original_len payload)
  = decode_with entries payload original_len.
Proof.
  intros Hn Hfits Hnd HL. unfold SourceDecoder.main, blob_layout.
  pose proof (@table_bytes_length _ Hfits) as Hb.
  assert (Hhs : 0 <= header_size entries < 65536)
    by (unfold header_size; lia).
  set (header := [Z.of_nat (length entries) - 1]
                 ++ Py.little_digits original_len 4 ++ table_bytes entries).
  assert (Hheader : Z.to_nat (header_size entries) = (2 + length header)%nat).
  { unfold header, header_size.
    rewrite !length_app, little_digits_length. simpl length. lia. }
  replace (Py.little_digits (header_size entries) 2
           ++ [Z.of_nat (length entries) - 1]
           ++ Py.little_digits original_len 4
           ++ table_bytes entries ++ payload)
    with (Py.little_digits (header_size entries) 2 ++ header ++ payload)
    by (unfold header; now rewrite <- !app_assoc).
  set (size_bytes := Py.little_digits (header_size entries) 2).
  assert (Hsb : length size_bytes = 2%nat) by apply little_digits_length.
  destruct (Nat.ltb_spec (length (size_bytes ++ header ++ payload)) 6)
    as [Hshort|_].
  { assert (5 <= length header)%nat
      by (unfold header; rewrite !length_app, little_digits_length;
          simpl; lia).
    rewrite !length_app in Hshort. lia. }
  cbv zeta.
  assert (Hfield : py_slice (size_bytes ++ header ++ payload) 0 2 = size_bytes).
  { apply py_slice_prefix. now rewrite Hsb. }
  rewrite Hfield.
  replace (Py.from_bytes_little size_bytes) with (header_size entries)
    by (symmetry; apply from_little_digits;
        change (256 ^ Z.of_nat 2) with 65536; lia).
  rewrite Hheader.
  rewrite (@py_slice_at _ size_bytes header payload) by lia.
  replace (skipn (2 + length header) (size_bytes ++ header ++ payload))
    with payload.
  - apply decode_blob_layout; assumption.
  - rewrite app_assoc, skipn_app, skipn_all2
      by (rewrite length_app; lia).
    rewrite length_app, Hsb.
    replace (2 + length header - (2 + length header))%nat with 0%nat by lia.
    reflexivity.
Qed.

End ParserFacts.

(** ** Packing bits into bytes and back *)

Section PackFacts.

Import Huffman.
Local Open Scope Z_scope.

Lemma byte_bits_value w : length w = 8%nat -> byte_bits (bits_value w) = w.
Proof.
  intros Hw. rewrite <- (code_bits_path w) at 2. now rewrite Hw.
Qed.

Lemma bits_value_zeros w k :
  bits_value (w ++ repeat false k) = bits_value w * 2 ^ Z.of_nat k.
Proof.
  induction k as [|k IH].
  - simpl. rewrite app_nil_r. lia.
  - cbn [repeat]. rewrite repeat_cons, app_assoc, bits_value_snoc, IH.
    rewrite Nat2Z.inj_succ, Z.pow_succ_r by lia. simpl Z.b2z. ring.
Qed.

(** Unpacking what [pack] wrote gives the bits back, followed by the zero
    bits that fill the last byte. *)
Lemma unpack_pack bits : forall acc,
  (length acc < 8)%nat ->
  exists k,
    concat (map byte_bits (pack bits (bits_value acc) (length acc)))
    = acc ++ bits ++ repeat false k.
Proof.
  induction bits as [|b bits IH]; intros acc Hacc.
  - cbn [pack]. destruct (Nat.eqb_spec (length acc) 0) as [H0|H0].
    + exists 0%nat. destruct acc; [reflexivity|discriminate].
    + exists (8 - length acc)%nat. cbn [map concat].
      replace (8 - Z.of_nat (length acc)) with (Z.of_nat (8 - length acc))
        by lia.
      rewrite <- bits_value_zeros, byte_bits_value, app_nil_r;
        [reflexivity|].
      rewrite length_app, repeat_length. lia.
  - cbn [pack]. rewrite <- bits_value_snoc.
    destruct (Nat.eqb_spec (S (length acc)) 8) as [H8|H8].
    + destruct (IH [] ltac:(simpl; lia)) as [k Hk].
      exists k. cbn [map concat]. simpl in Hk. rewrite Hk.
      rewrite byte_bits_value by (rewrite length_app; simpl; lia).
      now rewrite <- app_assoc.
    + destruct (IH (acc ++ [b])) as [k Hk].
      { rewrite length_app. simpl. lia. }
      exists k. rewrite length_app in Hk. simpl length in Hk.
      rewrite Nat.add_1_r in Hk. rewrite Hk. now rewrite <- app_assoc.
Qed.

End PackFacts.

(** ** Walking a payload with the table of a tree *)

Section WalkFacts.

Import Huffman.
Local Open Scope Z_scope.

Variable t : tree.
Variable lookup : Py.dict (Z * Z) Z.
Variable maxlen : Z.

(** The decoding table holds exactly the codes of the paths of [t], and no
    code is longer than [maxlen]. *)
Hypothesis lookup_path : forall s p,
  In (s, p) (paths t) ->
  Py.dict_get code_eqb lookup (path_code p) = Some s.
Hypothesis lookup_only_paths : forall s p,
  Py.dict_get code_eqb lookup (path_code p) = Some s ->
  In (s, p) (paths t).
Hypothesis maxlen_bound : forall s p,
  In (s, p) (paths t) -> Z.of_nat (length p) <= maxlen.
Hypothesis branching : forall s p, In (s, p) (paths t) -> p <> [].

Lemma walk_step bit bits q :
  walk lookup maxlen (bit :: bits) (bits_value q) (Z.of_nat (length q))
  = match Py.dict_get code_eqb lookup (path_code (q ++ [bit])) with
    | Some symbol =>
      rest <- walk lookup maxlen bits 0 0 ;; Ok (symbol :: rest)
    | None =>
      if maxlen <=? Z.of_nat (length (q ++ [bit])) then Err undecodable
      else walk lookup maxlen bits (bits_value (q ++ [bit]))
                (Z.of_nat (length (q ++ [bit])))
    end.
Proof.
  cbn [walk]. unfold path_code.
  rewrite bits_value_snoc, length_app. simpl length.
  now rewrite Nat2Z.inj_add.
Qed.

(** Reading the rest [p'] of a path to a leaf emits the symbol of that
    leaf and starts again at the root. *)
Lemma walk_path p' : forall q s bits,
  In (s, q ++ p') (paths t) -> p' <> [] ->
  walk lookup maxlen (p' ++ bits) (bits_value q) (Z.of_nat (length q))
  = (rest <- walk lookup maxlen bits 0 0 ;; Ok (s :: rest)).
Proof.
  induction p' as [|bit p' IH]; intros q s bits Hin Hne; [congruence|].
  cbn [app]. rewrite walk_step.
  replace (q ++ bit :: p') with ((q ++ [bit]) ++ p') in Hin
    by (now rewrite <- app_assoc).
  destruct p' as [|bit' p'].
  - rewrite app_nil_r in Hin. now rewrite (@lookup_path _ _ Hin).
  - destruct (Py.dict_get code_eqb lookup (path_code (q ++ [bit])))
      as [s'|] eqn:Hget.
    + apply lookup_only_paths in Hget.
      destruct (@paths_prefix_free _ _ _ _ _ Hget Hin) as [Hnil _].
      discriminate.
    + pose proof (@maxlen_bound _ _ Hin) as Hmax.
      rewrite length_app in Hmax. simpl length in Hmax.
      destruct (Z.leb_spec maxlen (Z.of_nat (length (q ++ [bit]))));
        [lia|].
      apply IH; [assumption|discriminate].
Qed.

(** Reading a proper prefix of a path emits nothing and raises nothing. *)
Lemma walk_partial p1 : forall q s p2,
  In (s, q ++ p1 ++ p2) (paths t) -> p2 <> [] ->
  walk lookup maxlen p1 (bits_value q) (Z.of_nat (length q)) = Ok [].
Proof.
  induction p1 as [|bit p1 IH]; intros q s p2 Hin Hne; [reflexivity|].
  rewrite walk_step.
  replace (q ++ (bit :: p1) ++ p2) with ((q ++ [bit]) ++ p1 ++ p2) in Hin
    by (now rewrite <- app_assoc).
  destruct (Py.dict_get code_eqb lookup (path_code (q ++ [bit])))
    as [s'|] eqn:Hget.
  - apply lookup_only_paths in Hget.
    destruct (@paths_prefix_free _ _ _ _ _ Hget Hin) as [Hnil _].
    apply app_eq_nil in Hnil as [_ Hnil]. congruence.
  - pose proof (@maxlen_bound _ _ Hin) as Hmax.
    rewrite !length_app in Hmax.
    assert (1 <= length p2)%nat by (destruct p2; [congruence|simpl; lia]).
    destruct (Z.leb_spec maxlen (Z.of_nat (length (q ++ [bit])))).
    + rewrite length_app in *. lia.
    + eapply IH; eassumption.
Qed.

(** The bits of a whole message, followed by anything. *)
Lemma walk_message (message : list (Z * list bool)) bits :
  incl message (paths t) ->
  walk lookup maxlen (concat (map snd message) ++ bits) 0 0
  = (rest <- walk lookup maxlen bits 0 0 ;; Ok (map fst message ++ rest)).
Proof.
  induction message as [|[s p] message IH]; intros Hincl.
  - simpl. now destruct (walk lookup maxlen bits 0 0).
  - cbn [map concat fst snd]. rewrite <- app_assoc.
    assert (Hin : In (s, p) (paths t)) by (apply Hincl; now left).
    rewrite (@walk_path p [] s _ Hin (@branching _ _ Hin)).
    rewrite IH by (intros x Hx; apply Hincl; now right).
    now destruct (walk lookup maxlen bits 0 0).
Qed.

(** Padding zeros never raise: they spell the leftmost leaf again or stop
    inside its path. *)
Lemma walk_zeros k :
  exists extra, walk lookup maxlen (repeat false k) 0 0 = Ok extra.
Proof.
  destruct (paths_leftmost t) as [s [d Hin]].
  assert (Hd : (1 <= d)%nat).
  { destruct d; [|lia]. now apply branching in Hin. }
  induction k as [k IH] using lt_wf_ind.
  destruct (Nat.lt_ge_cases k d) as [Hlt|Hge].
  - exists [].
    apply (@walk_partial (repeat false k) [] s (repeat false (d - k))).
    + cbn [app]. rewrite <- repeat_app.
      now replace (k + (d - k))%nat with d by lia.
    + destruct (d - k)%nat eqn:E; [lia|discriminate].
  - destruct (IH (k - d)%nat ltac:(lia)) as [extra Hextra].
    exists (s :: extra).
    replace k with (d + (k - d))%nat at 1 by lia.
    rewrite repeat_app.
    rewrite (@walk_path (repeat false d) [] s _ Hin).
    + now rewrite Hextra.
    + destruct d; [lia|discriminate].
Qed.

End WalkFacts.

(** ** Encoding and decoding with the table of a tree *)

Section TableFacts.

Import Huffman.
Local Open Scope Z_scope.

Lemma code_eqb_eq c c' : code_eqb c c' = true <-> c = c'.
Proof.
  destruct c as [b v], c' as [b' v']. unfold code_eqb. cbn [fst snd].
  rewrite andb_true_iff, !Z.eqb_eq. split; [intros [-> ->]|intros [= -> ->]];
    auto.
Qed.

Lemma lookup_table_fold (T : code_dict) : forall d,
  fold_left (fun d e => Py.dict_set code_eqb d (snd e) (fst e)) T d
  = fold_left (fun d kv => Py.dict_set code_eqb d (fst kv) (snd kv))
              (map swap T) d.
Proof.
  induction T as [|e T IH]; intros d; [reflexivity|]. simpl. apply IH.
Qed.

Lemma lookup_table_items (T : code_dict) :
  NoDup (map snd T) -> lookup_table T = map swap T.
Proof.
  intros Hnd. unfold lookup_table. rewrite lookup_table_fold.
  apply (fold_dict_set_fresh code_eqb code_eqb_eq (map swap T) []).
  simpl. rewrite map_map. exact Hnd.
Qed.

Lemma fold_max_ge l : forall a, a <= fold_left Z.max l a.
Proof.
  induction l as [|x l IH]; intros a; simpl; [lia|].
  specialize (IH (Z.max a x)). lia.
Qed.

Lemma fold_max_in l x : forall a, In x l -> x <= fold_left Z.max l a.
Proof.
  induction l as [|y l IH]; intros a; simpl; [tauto|].
  intros [->|Hin]; [|now apply IH].
  pose proof (fold_max_ge l (Z.max a x)). lia.
Qed.

Lemma max_bitsize_bound (T : code_dict) s b v :
  In (s, (b, v)) T -> b <= max_bitsize T.
Proof.
  intros Hin. unfold max_bitsize. apply fold_max_in.
  apply in_map_iff. exists (s, (b, v)). split; [reflexivity|assumption].
Qed.

Lemma paths_nodup t : NoDup (map snd (paths t)).
Proof.
  induction t as [s|a IHa b IHb]; cbn [paths].
  - repeat constructor. simpl. tauto.
  - rewrite map_app, !map_map. cbn [snd].
    rewrite <- (map_map snd (cons false)), <- (map_map snd (cons true)).
    apply NoDup_app.
    + apply Finite.Injective_map_NoDup; [|assumption]. intros x y [= ->].
      reflexivity.
    + apply Finite.Injective_map_NoDup; [|assumption]. intros x y [= ->].
      reflexivity.
    + intros p Hp Hp'. apply in_map_iff in Hp as [x [<- _]].
      apply in_map_iff in Hp' as [y [[=] _]].
Qed.

Lemma tree_codes_nodup t : NoDup (map snd (tree_codes t)).
Proof.
  rewrite tree_codes_paths, map_map. cbn [snd].
  rewrite <- (map_map snd path_code).
  apply Finite.Injective_map_NoDup; [|apply paths_nodup].
  intros p q. apply path_code_inj.
Qed.

Lemma in_tree_codes t s c :
  In (s, c) (tree_codes t) <-> exists p, c = path_code p /\ In (s, p) (paths t).
Proof.
  rewrite tree_codes_paths, in_map_iff. split.
  - intros [[s' p] [[= <- <-] Hin]]. now exists p.
  - intros [p [-> Hin]]. now exists (s, p).
Qed.

Section Decoding.

Variable t : tree.
Variable T : code_dict.
Hypothesis same_items : Permutation T (tree_codes t).
Hypothesis distinct_symbols : NoDup (leaves t).

Lemma table_lookup_path s p :
  In (s, p) (paths t) ->
  Py.dict_get code_eqb (lookup_table T) (path_code p) = Some s.
Proof.
  intros Hin.
  assert (Hnd : NoDup (map snd T)).
  { eapply Permutation_NoDup; [|apply (tree_codes_nodup t)].
    symmetry. now apply Permutation_map. }
  rewrite lookup_table_items by assumption.
  apply (in_dict_get code_eqb code_eqb_eq).
  - now rewrite map_map.
  - apply in_map_iff. exists (s, path_code p). split; [reflexivity|].
    eapply Permutation_in; [symmetry; exact same_items|].
    apply in_tree_codes. now exists p.
Qed.

Lemma table_lookup_only_paths s p :
  Py.dict_get code_eqb (lookup_table T) (path_code p) = Some s ->
  In (s, p) (paths t).
Proof.
  assert (Hnd : NoDup (map snd T)).
  { eapply Permutation_NoDup; [|apply (tree_codes_nodup t)].
    symmetry. now apply Permutation_map. }
  rewrite lookup_table_items by assumption.
  intros Hget. apply (dict_get_in code_eqb code_eqb_eq) in Hget.
  apply in_map_iff in Hget as [[s' c] [[= -> ->] Hin]].
  apply (Permutation_in _ same_items) in Hin.
  apply in_tree_codes in Hin as [q [Hq Hin]].
  apply path_code_inj in Hq. now subst.
Qed.

Lemma table_maxlen s p :
  In (s, p) (paths t) -> Z.of_nat (length p) <= max_bitsize T.
Proof.
  intros Hin. apply (@max_bitsize_bound T s _ (bits_value p)).
  eapply Permutation_in; [symmetry; exact same_items|].
  apply in_tree_codes. now exists p.
Qed.

End Decoding.

(** The encoder side: the bits of a message are the paths of its symbols. *)
Lemma encode_bits_paths t (message : list (Z * list bool)) :
  NoDup (leaves t) ->
  incl message (paths t) ->
  encode_bits (tree_codes t) (map fst message)
  = Ok (concat (map snd message)).
Proof.
  intros Hnd. induction message as [|[s p] message IH]; intros Hincl;
    [reflexivity|].
  cbn [map fst snd encode_bits concat].
  assert (Hin : In (s, p) (paths t)) by (apply Hincl; now left).
  unfold table_get.
  rewrite (@in_dict_get _ _ Z.eqb Z.eqb_eq (tree_codes t) s (path_code p)).
  - unfold path_code at 1. rewrite IH by (intros x Hx; apply Hincl; now right).
    cbn [bind]. unfold path_code. now rewrite code_bits_path.
  - now rewrite tree_codes_keys.
  - apply in_tree_codes. now exists p.
Qed.

Lemma message_paths t (M : list Z) :
  incl M (leaves t) ->
  exists message, map fst message = M /\ incl message (paths t).
Proof.
  induction M as [|s M IH]; intros Hincl.
  - exists []. split; [reflexivity|]. intros x [].
  - destruct IH as [message [Hm Hi]]; [intros x Hx; apply Hincl; now right|].
    assert (Hs : In s (map fst (paths t)))
      by (rewrite paths_leaves; apply Hincl; now left).
    apply in_map_iff in Hs as [[s' p] [Hs' Hp]]. simpl in Hs'. subst s'.
    exists ((s, p) :: message). split; [simpl; now f_equal|].
    intros x [<-|Hx]; [assumption|now apply Hi].
Qed.

End TableFacts.

(** ** Round trip through the blob *)

Section RoundTripFacts.

Import Huffman SourceEncoder SourceDecoder BlobFormat.
Local Open Scope Z_scope.

Lemma entry_of_item (ct : code_dict) e :
  NoDup (map fst ct) -> In e ct -> entry_of ct (fst e) = e.
Proof.
  intros Hnd Hin. destruct e as [s c]. unfold entry_of, table_get.
  cbn [fst]. now rewrite (@in_dict_get _ _ Z.eqb Z.eqb_eq ct s c Hnd Hin).
Qed.

Lemma sorted_entries_perm (ct : code_dict) :
  NoDup (map fst ct) -> Permutation (sorted_entries ct) ct.
Proof.
  intros Hnd. unfold sorted_entries.
  rewrite (Permutation_map (entry_of ct) (sorted_perm (map fst ct))).
  rewrite map_map.
  rewrite (map_ext_in _ (fun e => e)); [now rewrite map_id|].
  intros e He. now apply entry_of_item.
Qed.

Lemma sorted_entries_keys (ct : code_dict) :
  map fst (sorted_entries ct) = Py.sorted (map fst ct).
Proof.
  unfold sorted_entries. rewrite map_map. cbn [entry_of fst]. apply map_id.
Qed.

Lemma byte_count (l : list Z) :
  NoDup l -> Forall (fun b => 0 <= b < 256) l -> (length l <= 256)%nat.
Proof.
  intros Hnd Hb. rewrite Forall_forall in Hb.
  assert (Hnd' : NoDup (map Z.to_nat l)).
  { apply Finite.Injective_map_NoDup_in; [|assumption].
    intros x y Hx Hy Heq. apply Hb in Hx, Hy. lia. }
  assert (Hincl : incl (map Z.to_nat l) (seq 0 256)).
  { intros n Hn. apply in_map_iff in Hn as [x [<- Hx]].
    apply Hb in Hx. apply in_seq. lia. }
  pose proof (NoDup_incl_length Hnd' Hincl) as Hlen.
  now rewrite length_map, length_seq in Hlen.
Qed.

Lemma code_value_fits b :
  0 <= b -> 2 ^ b <= 256 ^ Z.of_nat (Z.to_nat ((b + 7) / 8)).
Proof.
  intros Hb.
  assert (0 <= (b + 7) / 8) by (apply Z.div_pos; lia).
  rewrite Z2Nat.id by assumption.
  change 256 with (2 ^ 8). rewrite <- Z.pow_mul_r by lia.
  apply Z.pow_le_mono_r; [lia|].
  pose proof (Z.div_mod (b + 7) 8 ltac:(lia)).
  pose proof (Z.mod_pos_bound (b + 7) 8 ltac:(lia)). lia.
Qed.

(** The items of the table of a tree fit their header fields when the
    leaves are at most 256 distinct bytes. *)
Lemma tree_codes_fit t :
  NoDup (leaves t) ->
  Forall (fun b => 0 <= b < 256) (leaves t) ->
  Forall entry_fits (tree_codes t).
Proof.
  intros Hnd Hbytes. pose proof (byte_count Hnd Hbytes) as Hcount.
  apply Forall_forall. intros [s c] Hin.
  pose proof Hin as Hkey. apply (in_map fst) in Hkey.
  rewrite tree_codes_keys in Hkey. cbn [fst] in Hkey.
  apply in_tree_codes in Hin as [p [-> Hp]].
  pose proof (paths_depth _ _ _ Hp) as Hdepth.
  pose proof (bits_value_bound p) as Hval.
  pose proof (@code_value_fits (Z.of_nat (length p)) ltac:(lia)) as Hfit.
  rewrite Forall_forall in Hbytes.
  unfold entry_fits, path_code. repeat split; try lia.
  - now apply Hbytes.
  - now apply Hbytes.
Qed.

Lemma tree_codes_length t : length (tree_codes t) = length (leaves t).
Proof. now rewrite <- tree_codes_keys, length_map. Qed.

Lemma force_unique_symbol_node a b :
  force_unique_symbol {| table := tree_codes (Node a b) |}
  = {| table := tree_codes (Node a b) |}.
Proof.
  unfold force_unique_symbol, get_code_table. cbn [table].
  pose proof (tree_codes_length (Node a b)) as Hlen.
  cbn [leaves] in Hlen. rewrite length_app in Hlen.
  pose proof (leaves_nonempty a). pose proof (leaves_nonempty b).
  destruct (tree_codes (Node a b)) as [|[s [bits value]] [|e l]];
    simpl in Hlen; try lia; reflexivity.
Qed.

Lemma force_unique_symbol_leaf s :
  force_unique_symbol {| table := tree_codes (Leaf s) |}
  = {| table := [(s, (1, 0))] |}.
Proof.
  unfold force_unique_symbol, get_code_table, table_set. cbn.
  now rewrite Z.eqb_refl.
Qed.

Lemma sorted_entries_single s c : sorted_entries [(s, c)] = [(s, c)].
Proof.
  unfold sorted_entries, entry_of, table_get. cbn. now rewrite Z.eqb_refl.
Qed.

(** Encoding with the one-symbol table: one zero bit per symbol. *)
Lemma encode_bits_single s (data : list Z) :
  Forall (fun x => x = s) data ->
  encode_bits [(s, (1, 0))] data = Ok (repeat false (length data)).
Proof.
  induction 1 as [|x data -> _ IH]; [reflexivity|].
  cbn [encode_bits]. unfold table_get. cbn [Py.dict_get].
  rewrite Z.eqb_refl, IH. reflexivity.
Qed.

Lemma encode_bits_single_inv s (data : list Z) bits :
  encode_bits [(s, (1, 0))] data = Ok bits ->
  Forall (fun x => x = s) data /\ bits = repeat false (length data).
Proof.
  revert bits. induction data as [|x data IH]; intros bits.
  - intros [= <-]. split; [constructor|reflexivity].
  - cbn [encode_bits]. unfold table_get. cbn [Py.dict_get].
    destruct (Z.eqb_spec s x) as [<-|Hne]; [|discriminate].
    destruct (encode_bits [(s, (1, 0))] data) as [rest|]; [|discriminate].
    destruct (IH rest eq_refl) as [Hall ->].
    intros [= <-]. split; [now constructor|reflexivity].
Qed.

Lemma all_same_repeat s (data : list Z) :
  Forall (fun x => x = s) data -> data = repeat s (length data).
Proof. induction 1 as [|x data -> _ IH]; simpl; [reflexivity|now f_equal]. Qed.

Lemma unpack_length payload :
  length (concat (map byte_bits payload)) = (8 * length payload)%nat.
Proof.
  induction payload as [|b payload IH]; [reflexivity|].
  cbn [map concat]. rewrite length_app, IH. unfold byte_bits.
  rewrite length_map. simpl length. lia.
Qed.

(** Decoding the packed paths of a message with a permutation of the table
    of a branching tree gives the message, then whatever the padding spells. *)
Lemma decode_packed_paths a b (T : code_dict) (message : list (Z * list bool)) :
  Permutation T (tree_codes (Node a b)) ->
  incl message (paths (Node a b)) ->
  exists extra,
    decode (HuffmanCodec T) (pack (concat (map snd message)) 0 0)
    = Ok (map fst message ++ extra).
Proof.
  intros Hperm Hincl. unfold decode, HuffmanCodec. cbn [table].
  destruct (unpack_pack (concat (map snd message)) [] ltac:(simpl; lia))
    as [k Hk].
  simpl in Hk. rewrite Hk.
  assert (Hbranch : forall s p, In (s, p) (paths (Node a b)) -> p <> [])
    by (intros s p; apply paths_node_nonempty).
  rewrite (@walk_message (Node a b) (lookup_table T) (max_bitsize T)
             (@table_lookup_path _ _ Hperm)
             (@table_lookup_only_paths _ _ Hperm)
             (@table_maxlen _ _ Hperm) Hbranch message _ Hincl).
  destruct (@walk_zeros (Node a b) (lookup_table T) (max_bitsize T)
              (@table_lookup_path _ _ Hperm)
              (@table_lookup_only_paths _ _ Hperm)
              (@table_maxlen _ _ Hperm) Hbranch k) as [extra Hextra].
  exists extra. now rewrite Hextra.
Qed.

(** The fields of a well-formed blob, at their offsets. *)
Lemma layout_fields entries original_len payload :
  (length entries <= 256)%nat ->
  Forall entry_fits entries ->
  0 <= original_len < 2 ^ 32 ->
  let blob := blob_layout entries original_len payload in
  header_size_field blob = header_size entries
  /\ Py.index blob 2 = Ok (Z.of_nat (length entries) - 1)
  /\ original_len_field blob = original_len
  /\ py_slice blob 7 (Z.to_nat (header_size_field blob)) = table_bytes entries
  /\ skipn (Z.to_nat (header_size_field blob)) blob = payload.
Proof.
  intros Hn Hfits HL blob.
  pose proof (@table_bytes_length _ Hfits) as Hb.
  assert (Hhs : 0 <= header_size entries < 65536)
    by (unfold header_size; lia).
  set (sb := Py.little_digits (header_size entries) 2).
  set (lb := Py.little_digits original_len 4).
  assert (Hsb : length sb = 2%nat) by apply little_digits_length.
  assert (Hlb : length lb = 4%nat) by apply little_digits_length.
  assert (Hfield : header_size_field blob = header_size entries).
  { unfold header_size_field, blob, blob_layout. fold sb.
    rewrite py_slice_prefix by (now rewrite Hsb).
    apply from_little_digits. change (256 ^ Z.of_nat 2) with 65536. lia. }
  rewrite Hfield. unfold blob, blob_layout. fold sb. fold lb.
  split; [reflexivity|]. split; [|split; [|split]].
  - now apply index_at.
  - unfold original_len_field.
    replace (sb ++ [Z.of_nat (length entries) - 1] ++ lb
             ++ table_bytes entries ++ payload)
      with ((sb ++ [Z.of_nat (length entries) - 1]) ++ lb
            ++ (table_bytes entries ++ payload))
      by (now rewrite <- !app_assoc).
    rewrite py_slice_at
      by (rewrite ?length_app, ?Hsb, ?Hlb; cbn [length]; lia).
    apply from_little_digits. change (256 ^ Z.of_nat 4) with (2 ^ 32). lia.
  - replace (sb ++ [Z.of_nat (length entries) - 1] ++ lb
             ++ table_bytes entries ++ payload)
      with ((sb ++ [Z.of_nat (length entries) - 1] ++ lb)
            ++ table_bytes entries ++ payload)
      by (now rewrite <- !app_assoc).
    apply py_slice_at;
      rewrite !length_app, ?Hsb, ?Hlb; cbn [length];
      unfold header_size; lia.
  - replace (sb ++ [Z.of_nat (length entries) - 1] ++ lb
             ++ table_bytes entries ++ payload)
      with ((sb ++ [Z.of_nat (length entries) - 1] ++ lb
             ++ table_bytes entries) ++ payload)
      by (now rewrite <- !app_assoc).
    assert (Hlen : length (sb ++ [Z.of_nat (length entries) - 1] ++ lb
                           ++ table_bytes entries)
                   = Z.to_nat (header_size entries)).
    { rewrite !length_app, ?Hsb, ?Hlb; cbn [length];
        unfold header_size; lia. }
    rewrite <- Hlen, skipn_app, skipn_all, Nat.sub_diag. reflexivity.
Qed.

Section RoundTrip.

Variable W : Type.
Variable wadd : W -> W -> W.
Variable node_leb : W * Huffman.tree -> W * Huffman.tree -> bool.

(** The round trip for messages the 4-byte length field can record. *)
Lemma encode_then_decode (frequencies : Py.dict Z W) (M : list Z) :
  M <> [] ->
  Forall (fun b => 0 <= b < 256) M ->
  NoDup (map fst frequencies) ->
  (forall s, In s (map fst frequencies) <-> In s M) ->
  Z.of_nat (length M) < 2 ^ 32 ->
  exists entries payload,
    SourceEncoder.main wadd node_leb frequencies M
    = Ok (blob_layout entries (Z.of_nat (length M)) payload)
    /\ (1 <= length entries <= 256)%nat
    /\ Forall entry_fits entries
    /\ SourceDecoder.main (blob_layout entries (Z.of_nat (length M)) payload)
       = Ok M.
Proof.
  intros HM Hbytes Hnd Hsame HL.
  assert (Hf : frequencies <> []).
  { destruct M as [|x M]; [congruence|]. intros ->.
    apply (Hsame x). now left. }
  destruct (from_frequencies_tree wadd node_leb Hf) as [t [Hc0 Hperm]].
  assert (Hleaves : NoDup (leaves t))
    by (eapply Permutation_NoDup; [symmetry; exact Hperm|exact Hnd]).
  assert (Hin_leaves : forall s, In s (leaves t) <-> In s M).
  { intros s. rewrite <- Hsame. split; apply Permutation_in;
      [exact Hperm|symmetry; exact Hperm]. }
  assert (Hleaf_bytes : Forall (fun b => 0 <= b < 256) (leaves t)).
  { rewrite Forall_forall in *. intros s Hs. apply Hbytes.
    now apply Hin_leaves. }
  rewrite (dict_of_items_id Z.eqb Z.eqb_eq)
    in Hc0 by (now rewrite tree_codes_keys).
  destruct t as [s|a b].
  - (* one symbol: the forced 1-bit code and the decoder's direct fill *)
    assert (Hall : Forall (fun x => x = s) M).
    { apply Forall_forall. intros x Hx. apply Hin_leaves in Hx.
      destruct Hx as [->|[]]. reflexivity. }
    pose proof (@main_ok W wadd node_leb frequencies M
                  (pack (repeat false (length M)) 0 0) _ Hf Hc0) as Hmain.
    rewrite force_unique_symbol_leaf in Hmain. cbn [table] in Hmain.
    rewrite sorted_entries_single in Hmain.
    assert (Hs : 0 <= s < 256).
    { rewrite Forall_forall in Hleaf_bytes. apply Hleaf_bytes. now left. }
    assert (Hfit : Forall entry_fits [(s, (1, 0))]).
    { constructor; [|constructor]. unfold entry_fits. simpl. lia. }
    eexists _, _. split; [|split; [|split; [exact Hfit|]]].
    + apply Hmain; try assumption.
      * unfold encode. cbn [table]. now rewrite encode_bits_single.
      * simpl. lia.
    + simpl. lia.
    + rewrite main_blob_layout; try assumption.
      * unfold decode_with. change (1 <=? 1) with true. cbv iota.
        rewrite Nat2Z.id. f_equal. symmetry. now apply all_same_repeat.
      * simpl. lia.
      * lia.
  - (* two symbols or more: walk the payload with the table of the tree *)
    destruct (@message_paths (Node a b) M) as [message [Hmsg Hincl]].
    { intros x Hx. now apply Hin_leaves. }
    set (T0 := tree_codes (Node a b)) in *.
    assert (Hkeys : NoDup (map fst T0))
      by (unfold T0; now rewrite tree_codes_keys).
    pose proof (@sorted_entries_perm T0 Hkeys) as HpermT.
    assert (Hfits : Forall entry_fits (sorted_entries T0)).
    { eapply Permutation_Forall; [symmetry; exact HpermT|].
      now apply tree_codes_fit. }
    assert (Hcount : (2 <= length T0 <= 256)%nat).
    { unfold T0. rewrite tree_codes_length. split.
      - cbn [leaves]. rewrite length_app.
        pose proof (leaves_nonempty a). pose proof (leaves_nonempty b). lia.
      - now apply byte_count. }
    pose proof (@main_ok W wadd node_leb frequencies M
                  (pack (concat (map snd message)) 0 0) _ Hf Hc0) as Hmain.
    unfold T0 in Hmain.
    rewrite force_unique_symbol_node in Hmain. cbn [table] in Hmain.
    fold T0 in Hmain.
    eexists _, _. split; [|split; [|split; [exact Hfits|]]].
    + apply Hmain; try assumption; [|lia].
      unfold encode. cbn [table]. fold T0. unfold T0.
      rewrite <- Hmsg. now rewrite encode_bits_paths.
    + rewrite sorted_entries_length. lia.
    + rewrite main_blob_layout; try assumption.
      * destruct (@decode_packed_paths a b (sorted_entries T0) message
                    HpermT Hincl) as [extra Hextra].
        assert (Hlen2 : (2 <= length (sorted_entries T0))%nat)
          by (rewrite sorted_entries_length; lia).
        unfold decode_with.
        destruct (sorted_entries T0) as [|[s1 [b1 v1]] [|e2 l]] eqn:HT;
          simpl in Hlen2; try lia.
        unfold decode_payload. rewrite Hextra. cbn [bind].
        rewrite Hmsg, Nat2Z.id.
        rewrite firstn_app, firstn_all, Nat.sub_diag. simpl.
        now rewrite app_nil_r.
      * rewrite sorted_entries_length. lia.
      * rewrite sorted_entries_keys.
        eapply Permutation_NoDup; [symmetry; apply sorted_perm|exact Hkeys].
      * lia.
Qed.

Lemma from_frequencies_single s (w : W) :
  from_frequencies wadd node_leb [(s, w)] = Ok {| table := [(s, (0, 0))] |}.
Proof.
  unfold from_frequencies. cbn [map heapify fold_right heap_push fst snd].
  simp merge_lowest. reflexivity.
Qed.

Lemma from_frequencies_keys (frequencies : Py.dict Z W) c :
  from_frequencies wadd node_leb frequencies = Ok c ->
  NoDup (map fst (table c)).
Proof.
  unfold from_frequencies. destruct (merge_lowest _ _ _); [|discriminate].
  intros [= <-]. cbn [table]. apply (dict_of_items_nodup Z.eqb Z.eqb_eq).
Qed.

Lemma force_unique_symbol_keys c :
  NoDup (map fst (table c)) -> NoDup (map fst (table (force_unique_symbol c))).
Proof.
  destruct c as [ct]. unfold force_unique_symbol, get_code_table.
  cbn [table]. intros Hnd.
  destruct ct as [|[s [bits value]] [|e l]]; try assumption.
  destruct (bits =? 0); cbn [table]; [|assumption].
  apply (dict_set_nodup Z.eqb Z.eqb_eq). assumption.
Qed.

(** With one symbol, a message of 2^32 bytes or more is encoded but the
    4-byte length field cannot take its length. *)
Lemma main_length_overflow s (w : W) n :
  2 ^ 32 <= Z.of_nat n ->
  SourceEncoder.main wadd node_leb [(s, w)] (repeat s n) = Err OverflowError.
Proof.
  intros Hn. unfold SourceEncoder.main.
  rewrite from_frequencies_single. cbn [bind].
  rewrite repeat_length.
  destruct (Z.eqb_spec (Z.of_nat n) 0) as [H0|_]; [lia|].
  change {| table := [(s, (0, 0))] |}
    with {| table := tree_codes (Leaf s) |}.
  rewrite force_unique_symbol_leaf. unfold encode, get_code_table.
  cbn [table].
  rewrite encode_bits_single by (apply Forall_forall; apply repeat_spec).
  cbn [bind length]. change (Z.of_nat 1 - 1) with 0.
  rewrite bytearray_append_ok by lia. cbn [bind].
  unfold Py.to_bytes_little at 1.
  destruct (Z.ltb_spec (Z.of_nat n) 0); [reflexivity|].
  change (256 ^ Z.of_nat 4) with (2 ^ 32).
  destruct (Z.leb_spec (2 ^ 32) (Z.of_nat n)); [reflexivity|lia].
Qed.

(** C3: every blob the encoder writes is [blob_layout] of the codec's
    table and payload: bytes 0-1 hold the header size (little-endian),
    byte 2 the number of table entries minus 1, bytes 3-6 the message
    length (little-endian), then one entry per symbol in ascending order
    (symbol, bit-length, ceil(bit-length/8) little-endian value bytes), and
    the payload starts at the offset the header-size field gives. *)
Theorem encoder_writes_layout (frequencies : Py.dict Z W) (data blob : list Z) :
  SourceEncoder.main wadd node_leb frequencies data = Ok blob ->
  exists codec0 payload,
    let codec := force_unique_symbol codec0 in
    let code_table := get_code_table codec in
    let entries := sorted_entries code_table in
    from_frequencies wadd node_leb frequencies = Ok codec0
    /\ encode codec data = Ok payload
    /\ blob = Py.little_digits (header_size entries) 2
              ++ [Z.of_nat (length code_table) - 1]
              ++ Py.little_digits (Z.of_nat (length data)) 4
              ++ concat (map entry_bytes entries)
              ++ payload
    /\ Permutation entries code_table
    /\ StronglySorted Z.lt (map fst entries)
    /\ header_size_field blob = 7 + Z.of_nat (length (table_bytes entries))
    /\ Py.index blob 2 = Ok (Z.of_nat (length code_table) - 1)
    /\ original_len_field blob = Z.of_nat (length data)
    /\ py_slice blob 7 (Z.to_nat (header_size_field blob))
       = table_bytes entries
    /\ skipn (Z.to_nat (header_size_field blob)) blob = payload.
Proof.
  intros Hmain.
  apply main_inv in Hmain
    as (codec0 & payload & Hc0 & Henc & Hdata & Hcnt & HL & Hfits & Hhs & ->).
  exists codec0, payload.
  unfold get_code_table. cbv zeta. split; [exact Hc0|].
  set (ct := table (force_unique_symbol codec0)) in *.
  assert (Hkeys : NoDup (map fst ct)).
  { apply force_unique_symbol_keys. eapply from_frequencies_keys. exact Hc0. }
  assert (Hn : (length (sorted_entries ct) <= 256)%nat)
    by (rewrite sorted_entries_length; lia).
  destruct (@layout_fields (sorted_entries ct) (Z.of_nat (length data))
              payload Hn Hfits ltac:(lia)) as (F1 & F2 & F3 & F4 & F5).
  rewrite sorted_entries_length in F2.
  split; [exact Henc|]. split.
  { unfold blob_layout. now rewrite sorted_entries_length. }
  split; [now apply sorted_entries_perm|]. split.
  { rewrite sorted_entries_keys. now apply sorted_strict. }
  split; [rewrite F1; unfold header_size; lia|].
  repeat split; assumption.
Qed.

(** C2: when exactly one symbol has positive probability, the code
    [from_frequencies] gives it has length 0, and the encoder replaces it by
    the code (1, 0) in the table the codec encodes with.  The blob then
    records bit-length 1 and value 0 for that symbol, its payload holds one
    zero bit per message symbol (then zero padding), so at least one bit
    per symbol, and the decoder's direct fill gives the message back. *)
Theorem degenerate_source_blob (symbol : Z) (w : W) (data blob : list Z) :
  SourceEncoder.main wadd node_leb [(symbol, w)] data = Ok blob ->
  from_frequencies wadd node_leb [(symbol, w)]
  = Ok {| table := [(symbol, (0, 0))] |}
  /\ get_code_table (force_unique_symbol {| table := [(symbol, (0, 0))] |})
     = [(symbol, (1, 0))]
  /\ exists payload k,
       encode (force_unique_symbol {| table := [(symbol, (0, 0))] |}) data
       = Ok payload
       /\ blob = [10; 0] ++ [0]
                 ++ Py.little_digits (Z.of_nat (length data)) 4
                 ++ [symbol; 1; 0] ++ payload
       /\ concat (map byte_bits payload)
          = repeat false (length data) ++ repeat false k
       /\ (length data <= 8 * length payload)%nat
       /\ SourceDecoder.main blob = Ok data.
Proof.
  intros Hmain. split; [apply from_frequencies_single|].
  change {| table := [(symbol, (0, 0))] |}
    with {| table := tree_codes (Leaf symbol) |}.
  rewrite force_unique_symbol_leaf. split; [reflexivity|].
  apply main_inv in Hmain
    as (codec0 & payload & Hc0 & Henc & Hdata & Hcnt & HL & Hfits & Hhs & ->).
  rewrite from_frequencies_single in Hc0. injection Hc0 as <-.
  change {| table := [(symbol, (0, 0))] |}
    with {| table := tree_codes (Leaf symbol) |} in *.
  rewrite force_unique_symbol_leaf in *. cbn [table] in *.
  rewrite sorted_entries_single in *.
  unfold encode in Henc. cbn [table] in Henc.
  destruct (encode_bits [(symbol, (1, 0))] data) as [bits|] eqn:Hbits;
    [|discriminate].
  apply encode_bits_single_inv in Hbits as [Hall ->].
  cbn [bind] in Henc. injection Henc as <-.
  destruct (unpack_pack (repeat false (length data)) [] ltac:(simpl; lia))
    as [k Hk].
  simpl in Hk.
  exists (pack (repeat false (length data)) 0 0), k.
  split; [unfold encode; cbn [table]; now rewrite encode_bits_single|].
  split; [reflexivity|]. split; [exact Hk|]. split.
  - apply (f_equal (@length _)) in Hk.
    rewrite unpack_length, length_app, !repeat_length in Hk. lia.
  - rewrite main_blob_layout; try assumption.
    + unfold decode_with. change (1 <=? 1) with true. cbv iota.
      rewrite Nat2Z.id. f_equal. symmetry. now apply all_same_repeat.
    + simpl. constructor; [intros []|constructor].
    + lia.
Qed.

(** C1, amended: for every non-empty byte message M of fewer than 2^32
    bytes and every PMF that gives positive probability exactly to the
    symbols occurring in M, the encoder writes a blob, the blob records
    original_len = len(M), and the decoder recovers M from it. *)
Theorem round_trip_below_4GiB (frequencies : Py.dict Z W) (M : list Z) :
  M <> [] ->
  Forall (fun b => 0 <= b < 256) M ->
  NoDup (map fst frequencies) ->
  (forall s, In s (map fst frequencies) <-> In s M) ->
  Z.of_nat (length M) < 2 ^ 32 ->
  exists blob,
    SourceEncoder.main wadd node_leb frequencies M = Ok blob
    /\ original_len_field blob = Z.of_nat (length M)
    /\ SourceDecoder.main blob = Ok M.
Proof.
  intros HM Hbytes Hnd Hsame HL.
  destruct (@encode_then_decode frequencies M HM Hbytes Hnd Hsame HL)
    as (entries & payload & Henc & Hn & Hfits & Hdec).
  eexists. split; [exact Henc|]. split; [|exact Hdec].
  apply layout_fields; [lia|assumption|lia].
Qed.

End RoundTrip.

(** C3, on a three-symbol source. *)
Lemma encoder_writes_layout_witness :
  exists codec payload,
    let code_table := get_code_table (force_unique_symbol codec) in
    let entries := sorted_entries code_table in
    encode (force_unique_symbol codec) [65; 66; 67; 65; 65] = Ok payload
    /\ [16; 0; 2; 5; 0; 0; 0; 65; 1; 0; 66; 2; 3; 67; 2; 2; 112]
       = Py.little_digits (header_size entries) 2
         ++ [Z.of_nat (length code_table) - 1]
         ++ Py.little_digits 5 4
         ++ concat (map entry_bytes entries)
         ++ payload.
Proof.
  destruct (@encoder_writes_layout Q Qplus (Huffman.by_weight Qle_bool)
              [(65, (1 # 2)%Q); (66, (1 # 4)%Q); (67, (1 # 4)%Q)]
              [65; 66; 67; 65; 65]
              [16; 0; 2; 5; 0; 0; 0; 65; 1; 0; 66; 2; 3; 67; 2; 2; 112])
    as (codec & payload & _ & Henc & Hblob & _).
  - vm_compute. reflexivity.
  - exists codec, payload. split; [exact Henc|exact Hblob].
Defined.

(** C2, on a three-byte message of the one symbol 65. *)
Lemma degenerate_source_blob_witness :
  exists payload k,
    encode (force_unique_symbol {| table := [(65, (0, 0))] |}) [65; 65; 65]
    = Ok payload
    /\ [10; 0; 0; 3; 0; 0; 0; 65; 1; 0; 0]
       = [10; 0] ++ [0] ++ Py.little_digits 3 4 ++ [65; 1; 0] ++ payload
    /\ concat (map byte_bits payload) = repeat false 3 ++ repeat false k.
Proof.
  destruct (@degenerate_source_blob Q Qplus (Huffman.by_weight Qle_bool)
              65 1%Q [65; 65; 65]
              [10; 0; 0; 3; 0; 0; 0; 65; 1; 0; 0])
    as (_ & _ & payload & k & Henc & Hblob & Hbits & _).
  - vm_compute. reflexivity.
  - exists payload, k. repeat split; assumption.
Defined.

(** C1 as stated fails: a message of 2^32 bytes, all equal to 65, with
    the PMF that gives 65 probability 1, meets the conditions, and the
    encoder ends in [OverflowError] at [original_len.to_bytes(4, 'little')]
    without writing a blob. *)
Lemma round_trip_no_blob_at_4GiB :
  let M := repeat 65 (Z.to_nat (2 ^ 32)) in
  let frequencies : Py.dict Z Q := [(65, 1%Q)] in
  M <> []
  /\ Forall (fun b => 0 <= b < 256) M
  /\ (forall s, In s (map fst frequencies) <-> In s M)
  /\ SourceEncoder.main Qplus (Huffman.by_weight Qle_bool) frequencies M
     = Err OverflowError.
Proof.
  cbv zeta.
  assert (Hn : 2 ^ 32 <= Z.of_nat (Z.to_nat (2 ^ 32)))
    by (rewrite Z2Nat.id; lia).
  generalize dependent (Z.to_nat (2 ^ 32)). intros n Hn.
  assert (Hpos : (1 <= n)%nat) by lia.
  split; [destruct n; [lia|discriminate]|].
  split.
  { apply Forall_forall. intros x Hx. apply repeat_spec in Hx. lia. }
  split.
  { intros s. split.
    - intros [<-|[]]. destruct n; [lia|now left].
    - intros Hin. apply repeat_spec in Hin. now left. }
  now apply main_length_overflow.
Qed.

(** C1, amended, on a five-byte message over three symbols. *)
Lemma round_trip_below_4GiB_witness :
  exists blob,
    SourceEncoder.main Qplus (Huffman.by_weight Qle_bool)
      [(65, (1 # 2)%Q); (66, (1 # 4)%Q); (67, (1 # 4)%Q)]
      [65; 66; 67; 65; 65] = Ok blob
    /\ original_len_field blob = 5
    /\ SourceDecoder.main blob = Ok [65; 66; 67; 65; 65].
Proof.
  apply (@round_trip_below_4GiB Q Qplus (Huffman.by_weight Qle_bool)
           [(65, (1 # 2)%Q); (66, (1 # 4)%Q); (67, (1 # 4)%Q)]
           [65; 66; 67; 65; 65]).
  - discriminate.
  - repeat (apply Forall_cons; [lia|]). apply Forall_nil.
  - simpl. repeat (apply NoDup_cons; [simpl; lia|]). apply NoDup_nil.
  - intros s. simpl. intuition.
  - simpl. lia.
Defined.

End RoundTripFacts.

(** * Further properties of the code *)

(** ** Repetition code: rejected inputs, error correction, short inputs *)

Section RepetitionMore.

Import Repetition.
Local Open Scope char_scope.
Local Open Scope nat_scope.

Lemma forallb_in_01 (s : str) :
  forallb in_01 s = true <-> Forall (fun c => c = "0" \/ c = "1") s.
Proof.
  rewrite forallb_forall, Forall_forall.
  split; intros H c Hc; apply in_01_spec, H, Hc.
Qed.

(** X1: [encode_bit_string] raises [ValueError] exactly on the empty string and
    on strings holding a character other than '0' and '1'; every other
    string is encoded to three times its length. *)
Theorem encode_bit_string_rejects (s : str) :
  (encode_bit_string s = Err ValueError
   <-> s = [] \/ Exists (fun c => c <> "0" /\ c <> "1") s)
  /\ (forall e, encode_bit_string s = Ok e -> length e = 3 * length s).
Proof.
  unfold encode_bit_string, validate_bit_string. split.
  - destruct s as [|c s']; [simpl; tauto|].
    set (s := c :: s').
    destruct (forallb in_01 s) eqn:Hv; simpl negb; cbv iota.
    + split; [discriminate|].
      intros [Hnil|Hex]; [discriminate|].
      apply forallb_in_01 in Hv. apply Exists_exists in Hex as [x [Hx [H0 H1]]].
      rewrite Forall_forall in Hv. destruct (Hv x Hx); contradiction.
    + split; [|reflexivity]. intros _. right.
      apply Exists_exists.
      assert (Hnot : ~ Forall (fun c => c = "0" \/ c = "1") s).
      { intros HF. apply forallb_in_01 in HF. congruence. }
      apply neg_Forall_Exists_neg in Hnot.
      * apply Exists_exists in Hnot as [x [Hx Hnx]]. exists x. tauto.
      * intros x. destruct (ascii_dec x "0"); [now left; left|].
        destruct (ascii_dec x "1"); [now left; right|]. right. tauto.
  - intros e. destruct s as [|c s']; [discriminate|].
    destruct (forallb in_01 (c :: s')); simpl negb; cbv iota; [|discriminate].
    intros He. injection He as He. subst e.
    etransitivity; [apply (repeat3_length (c :: s'))|lia].
Qed.

Lemma count_le_length c (g : str) : count c g <= length g.
Proof.
  induction g as [|x g IH]; simpl; [lia|]. destruct (Ascii.eqb x c); lia.
Qed.

Lemma count_disjoint c d (g : str) :
  c <> d -> count c g + count d g <= length g.
Proof.
  intros Hcd. induction g as [|x g IH]; simpl; [lia|].
  destruct (Ascii.eqb_spec x c), (Ascii.eqb_spec x d);
    subst; try congruence; lia.
Qed.

(** A group of three that holds the bit [b] at least twice votes for [b]. *)
Lemma majority_two_of_three b (g : str) :
  b = "0" \/ b = "1" -> length g = 3 -> 2 <= count b g -> majority g = b.
Proof.
  intros Hb Hlen Hcount. unfold majority.
  assert (Hsum : count "0" g + count "1" g <= length g)
    by (apply count_disjoint; discriminate).
  destruct Hb as [-> | ->].
  - destruct (Nat.ltb_spec (count "1" g) (count "0" g)); [reflexivity|lia].
  - destruct (Nat.ltb_spec (count "1" g) (count "0" g)); [lia|].
    destruct (Nat.ltb_spec (count "0" g) (count "1" g)); [reflexivity|lia].
Qed.

Lemma groups_concat (gs : list str) :
  Forall (fun g => length g = 3) gs ->
  groups (concat gs) 3 (length gs) = gs.
Proof.
  induction 1 as [|g gs Hg _ IH]; [reflexivity|].
  cbn [concat length]. rewrite groups_cons by assumption. now rewrite IH.
Qed.

Lemma concat_groups_length (gs : list str) :
  Forall (fun g => length g = 3) gs -> length (concat gs) = length gs * 3.
Proof.
  induction 1 as [|g gs Hg _ IH]; [reflexivity|].
  cbn [concat length]. rewrite length_app. lia.
Qed.

Lemma decode_groups (gs : list str) :
  gs <> [] ->
  Forall (fun g => length g = 3) gs ->
  majority_vote_decode (concat gs) 3 = Ok (map majority gs).
Proof.
  intros Hne Hlen.
  rewrite majority_vote_decode_eq.
  - rewrite concat_groups_length, Nat.div_mul by (assumption || lia).
    now rewrite groups_concat.
  - intros Hnil. apply (f_equal (@length _)) in Hnil.
    rewrite concat_groups_length in Hnil by assumption.
    destruct gs; [congruence|simpl in Hnil; lia].
  - lia.
Qed.

(** X2: The repetition code corrects one error per group: if every received
    group of three holds the sent bit at least twice, whatever the third
    character is, [majority_vote_decode] returns the sent string. *)
Theorem majority_vote_corrects_one_error (s : str) (received : list str) :
  s <> [] ->
  Forall2 (fun b g => (b = "0" \/ b = "1") /\ length g = 3 /\ 2 <= count b g)
          s received ->
  majority_vote_decode (concat received) 3 = Ok s.
Proof.
  intros Hs Hall.
  rewrite decode_groups.
  - f_equal. clear Hs.
    induction Hall as [|b g s' gs (Hb & Hlen & Hc) _ IH]; [reflexivity|].
    cbn [map]. rewrite (@majority_two_of_three b g Hb Hlen Hc).
    now f_equal.
  - intros ->. inversion Hall. congruence.
  - clear Hs. induction Hall as [|b g s' gs (_ & Hlen & _) _ IH];
      constructor; assumption.
Qed.

Lemma majority_vote_corrects_one_error_witness :
  majority_vote_decode
    (concat [["1"; "0"; "1"]; ["0"; "0"; "x"]; ["1"; "1"; "1"]]) 3
  = Ok ["1"; "0"; "1"].
Proof.
  apply (@majority_vote_corrects_one_error ["1"; "0"; "1"]).
  - discriminate.
  - repeat (apply Forall2_cons;
            [split; [first [now left|now right]|split; [reflexivity|]];
             simpl; lia|]).
    apply Forall2_nil.
Defined.

(** X3: Edge cases of [majority_vote_decode]: the empty string raises
    [ValueError]; n = 0 raises [ZeroDivisionError] on any other string; a
    non-empty string shorter than 3 is cut to nothing and decodes to the
    empty string without an error. *)
Theorem majority_vote_decode_edges (s : str) (n : nat) :
  majority_vote_decode [] n = Err ValueError
  /\ (s <> [] -> majority_vote_decode s 0 = Err ZeroDivisionError)
  /\ (s <> [] -> length s < 3 -> majority_vote_decode s 3 = Ok []).
Proof.
  split; [reflexivity|]. split.
  - intros Hs. destruct s; [congruence|reflexivity].
  - intros Hs Hlen. rewrite majority_vote_decode_eq by (assumption || lia).
    now rewrite Nat.div_small.
Qed.

Lemma majority_vote_decode_edges_witness :
  majority_vote_decode ["1"; "1"] 0 = Err ZeroDivisionError
  /\ majority_vote_decode ["1"; "1"] 3 = Ok [].
Proof.
  destruct (majority_vote_decode_edges ["1"; "1"] 0) as (_ & H0 & H3).
  split; [apply H0; discriminate|apply H3; [discriminate|simpl; lia]].
Defined.

End RepetitionMore.

(** ** Hamming distance of [calculate.py] *)

Section CalculateFacts.

Import Repetition Calculate.
Local Open Scope char_scope.
Local Open Scope nat_scope.

Lemma list_sum_ones {A} (l : list A) : list_sum (map (fun _ => 1) l) = length l.
Proof. induction l as [|x l IH]; simpl; [reflexivity|now rewrite IH]. Qed.

Lemma py_slice_0 {A} (l : list A) n : py_slice l 0 n = firstn n l.
Proof. unfold py_slice. now rewrite Nat.sub_0_r. Qed.

Lemma combine_min {A B} (a : list A) (b : list B) :
  combine (firstn (Nat.min (length a) (length b)) a)
          (firstn (Nat.min (length a) (length b)) b)
  = combine a b.
Proof.
  revert b. induction a as [|x a IH]; intros [|y b]; simpl; try reflexivity.
  now rewrite IH.
Qed.

Lemma calculate_hamming_distance_eq (bits1 bits2 : str) :
  calculate_hamming_distance bits1 bits2
  = (length (differing bits1 bits2), Nat.min (length bits1) (length bits2)).
Proof.
  unfold calculate_hamming_distance, differing.
  now rewrite !py_slice_0, combine_min, list_sum_ones.
Qed.

Lemma differing_le (a b : str) :
  length (differing a b) <= Nat.min (length a) (length b).
Proof.
  unfold differing. etransitivity; [apply filter_length_le|].
  now rewrite length_combine.
Qed.

Lemma differing_sym (a b : str) :
  length (differing a b) = length (differing b a).
Proof.
  unfold differing. revert b.
  induction a as [|x a IH]; intros [|y b]; simpl; try reflexivity.
  rewrite (Ascii.eqb_sym y x).
  destruct (Ascii.eqb x y); simpl; now rewrite IH.
Qed.

Lemma differing_none (a b : str) :
  length (differing a b) = 0
  <-> firstn (Nat.min (length a) (length b)) a
      = firstn (Nat.min (length a) (length b)) b.
Proof.
  unfold differing. revert b.
  induction a as [|x a IH]; intros [|y b]; simpl; try tauto.
  destruct (Ascii.eqb_spec x y) as [->|Hxy]; simpl.
  - rewrite IH. split; [now intros ->|now intros [= ->]].
  - split; [discriminate|intros [= ?]; contradiction].
Qed.

Lemma differing_triangle (a b c : str) :
  length a = length b -> length b = length c ->
  length (differing a c) <= length (differing a b) + length (differing b c).
Proof.
  unfold differing. revert b c.
  induction a as [|x a IH]; intros [|y b] [|z c]; simpl; try lia;
    try discriminate.
  intros [= Hab] [= Hbc]. specialize (IH b c Hab Hbc).
  destruct (Ascii.eqb_spec x z), (Ascii.eqb_spec x y), (Ascii.eqb_spec y z);
    subst; simpl; try congruence; lia.
Qed.

(** X4: [calculate_hamming_distance] compares the two strings over the length
    of the shorter one: the distance is at most that length, it is 0
    exactly when the two prefixes of that length are equal, and swapping
    the arguments changes nothing. *)
Theorem hamming_distance_common_prefix (bits1 bits2 : str) :
  let min_length := Nat.min (length bits1) (length bits2) in
  exists distance,
    calculate_hamming_distance bits1 bits2 = (distance, min_length)
    /\ calculate_hamming_distance bits2 bits1 = (distance, min_length)
    /\ distance <= min_length
    /\ (distance = 0 <-> firstn min_length bits1 = firstn min_length bits2).
Proof.
  intros min_length. exists (length (differing bits1 bits2)).
  rewrite !calculate_hamming_distance_eq.
  split; [reflexivity|]. split.
  - now rewrite (differing_sym bits2 bits1), Nat.min_comm.
  - split; [apply differing_le|apply differing_none].
Qed.

(** X5: On strings of one length the distance of [calculate_hamming_distance]
    obeys the triangle inequality. *)
Theorem hamming_distance_triangle (a b c : str) :
  length a = length b -> length b = length c ->
  fst (calculate_hamming_distance a c)
  <= fst (calculate_hamming_distance a b)
     + fst (calculate_hamming_distance b c).
Proof.
  intros Hab Hbc. rewrite !calculate_hamming_distance_eq.
  now apply differing_triangle.
Qed.

Lemma hamming_distance_triangle_witness :
  fst (calculate_hamming_distance ["0"; "1"; "1"] ["1"; "1"; "0"])
  <= fst (calculate_hamming_distance ["0"; "1"; "1"] ["0"; "0"; "0"])
     + fst (calculate_hamming_distance ["0"; "0"; "0"] ["1"; "1"; "0"]).
Proof.
  apply (@hamming_distance_triangle ["0"; "1"; "1"] ["0"; "0"; "0"]
                                    ["1"; "1"; "0"]); reflexivity.
Defined.

End CalculateFacts.

(** ** The channel-coded path of [Top.py] *)

Section TopFacts.

Import Repetition Calculate Top.
Local Open Scope char_scope.
Local Open Scope nat_scope.

Ltac plain_str := unfold Repetition.str, Calculate.str in *.

Lemma format_08b_byte (b : Byte.byte) :
  length (format_08b (Byte.to_N b)) = 8
  /\ forallb in_01 (format_08b (Byte.to_N b)) = true
  /\ int_base2 (format_08b (Byte.to_N b)) = Ok (byte_value b).
Proof. destruct b; vm_compute; repeat split. Qed.

Lemma concat_chunks_length {A} n (cs : list (list A)) :
  Forall (fun c => length c = n) cs -> length (concat cs) = length cs * n.
Proof.
  induction 1 as [|c cs Hc _ IH]; [reflexivity|].
  cbn [concat length]. rewrite length_app. lia.
Qed.

Lemma groups_concat_chunks n (cs : list str) :
  Forall (fun c => length c = n) cs ->
  groups (concat cs) n (length cs) = cs.
Proof.
  induction 1 as [|c cs Hc _ IH]; [reflexivity|].
  cbn [concat length]. rewrite groups_cons by assumption. now rewrite IH.
Qed.

Lemma py_slice_chunk n (cs : list str) k :
  Forall (fun c => length c = n) cs -> k < length cs ->
  py_slice (concat cs) (k * n) (k * n + n) = nth k cs [].
Proof.
  intros Hcs Hk. rewrite <- (@groups_nth (concat cs) n (length cs) k Hk).
  now rewrite groups_concat_chunks.
Qed.

Lemma Forall2_nth {A B} (R : A -> B -> Prop) l l' d d' :
  Forall2 R l l' -> forall k, k < length l -> R (nth k l d) (nth k l' d').
Proof.
  induction 1 as [|x y l l' Hxy _ IH]; intros k Hk; simpl in Hk; [lia|].
  destruct k; [assumption|]. apply IH. lia.
Qed.

Lemma firstn_succ_nth {A} (l : list A) d m :
  m < length l -> firstn (S m) l = firstn m l ++ [nth m l d].
Proof.
  revert m. induction l as [|x l IH]; intros m Hm; simpl in Hm; [lia|].
  destruct m; [reflexivity|]. cbn [firstn nth app].
  f_equal. apply IH. lia.
Qed.

Lemma collect_chunks (cs : list str) (values : list Z) :
  Forall2 chunk_value cs values ->
  forall m, m <= length cs ->
  fold_left (collect_byte (concat cs)) (map (fun k => k * 8) (seq 0 m)) (Ok [])
  = Ok (firstn m values).
Proof.
  intros Hcs. assert (Hlen : Forall (fun c => length c = 8) cs).
  { clear -Hcs. induction Hcs as [|c v cs vs [Hc _] _ IH]; constructor; auto. }
  induction m as [|m IH]; intros Hm; [reflexivity|].
  rewrite seq_S, map_app, fold_left_app, IH by lia.
  cbn [map fold_left Nat.add]. unfold collect_byte. cbn [bind].
  rewrite py_slice_chunk by (assumption || lia).
  destruct (@Forall2_nth _ _ _ cs values [] 0%Z Hcs m) as [H8 Hv]; [lia|].
  rewrite H8, Hv. cbn [Nat.eqb bind].
  rewrite (@firstn_succ_nth _ values 0%Z m); [reflexivity|].
  rewrite <- (Forall2_length Hcs). exact Hm.
Qed.

Lemma collect_bytes_chunks (cs : list str) (values : list Z) :
  Forall2 chunk_value cs values -> collect_bytes (concat cs) = Ok values.
Proof.
  intros Hcs. assert (Hlen : Forall (fun c => length c = 8) cs).
  { clear -Hcs. induction Hcs as [|c v cs vs [Hc _] _ IH]; constructor; auto. }
  unfold collect_bytes. plain_str.
  rewrite (concat_chunks_length Hlen), py_range0_exact by lia.
  rewrite (collect_chunks Hcs) by apply le_n.
  rewrite (Forall2_length Hcs). now rewrite firstn_all.
Qed.

Lemma Forall_firstn_keeps {A} (P : A -> Prop) n (l : list A) :
  Forall P l -> Forall P (firstn n l).
Proof.
  intros H. rewrite Forall_forall in *. intros x Hx. apply H.
  rewrite <- (firstn_skipn n l). apply in_or_app. now left.
Qed.

Lemma fit_bits_id (d : str) size : length d = size * 8 -> fit_bits d size = d.
Proof.
  intros Hd. unfold fit_bits.
  assert (He : (if negb (size =? 0) then size * 8 else length d) = length d).
  { destruct (size =? 0); simpl; lia. }
  rewrite He, Nat.ltb_irrefl. rewrite Hd, Nat.Div0.mod_mul. reflexivity.
Qed.

Lemma fit_bits_spec (d : str) size :
  size <> 0 -> Forall (fun c => c = "0" \/ c = "1") d ->
  length (fit_bits d size) = size * 8
  /\ Forall (fun c => c = "0" \/ c = "1") (fit_bits d size).
Proof.
  intros Hsize Hd. unfold fit_bits.
  apply Nat.eqb_neq in Hsize. rewrite Hsize. cbn [negb].
  set (d' := if size * 8 <? length d then _ else _).
  assert (Hd' : length d' = size * 8
                /\ Forall (fun c => c = "0" \/ c = "1") d').
  { subst d'. destruct (Nat.ltb_spec (size * 8) (length d)).
    - rewrite py_slice_0. split; [rewrite length_firstn; lia|].
      now apply Forall_firstn_keeps.
    - destruct (Nat.ltb_spec (length d) (size * 8)).
      + split; [rewrite length_app, repeat_length; lia|].
        apply Forall_app. split; [assumption|].
        apply Forall_forall. intros c Hc. apply repeat_spec in Hc. now left.
      + split; [lia|assumption]. }
  destruct Hd' as [Hl Hb]. rewrite Hl, Nat.Div0.mod_mul. simpl. now split.
Qed.

Lemma int_base2_from_bits (s : str) :
  Forall (fun c => c = "0" \/ c = "1") s -> forall acc,
  exists v, int_base2_from acc s = Ok v
            /\ (acc * 2 ^ Z.of_nat (length s) <= v
                < (acc + 1) * 2 ^ Z.of_nat (length s))%Z.
Proof.
  induction 1 as [|c s Hc _ IH]; intros acc.
  - exists acc. split; [reflexivity|simpl; lia].
  - cbn [int_base2_from length]. rewrite Nat2Z.inj_succ, Z.pow_succ_r by lia.
    assert (0 < 2 ^ Z.of_nat (length s))%Z by (apply Z.pow_pos_nonneg; lia).
    destruct Hc as [-> | ->]; cbn [Ascii.eqb Bool.eqb andb].
    + destruct (IH (2 * acc)%Z) as (v & Hv & Hr). exists v. split; [exact Hv|nia].
    + destruct (IH (2 * acc + 1)%Z) as (v & Hv & Hr). exists v.
      split; [exact Hv|nia].
Qed.

Lemma int_base2_byte (c : str) :
  length c = 8 -> Forall (fun c => c = "0" \/ c = "1") c ->
  exists v, chunk_value c v /\ (0 <= v < 256)%Z.
Proof.
  intros H8 Hc. destruct (int_base2_from_bits Hc 0%Z) as (v & Hv & Hr).
  exists v. split; [split; [assumption|]|].
  - destruct c; [discriminate|exact Hv].
  - rewrite H8 in Hr. simpl in Hr. lia.
Qed.

Lemma chunks_of_bits m : forall d : str,
  length d = m * 8 -> Forall (fun c => c = "0" \/ c = "1") d ->
  exists cs values,
    d = concat cs /\ Forall2 chunk_value cs values
    /\ length values = m /\ Forall (fun v => 0 <= v < 256)%Z values.
Proof.
  induction m as [|m IH]; intros d Hd Hb.
  - destruct d; [|discriminate]. exists [], []. repeat split; constructor.
  - rewrite <- (firstn_skipn 8 d) in Hb. apply Forall_app in Hb as [Hb1 Hb2].
    destruct (IH (skipn 8 d)) as (cs & vs & Hcs & Hvs & Hlen & Hr);
      [rewrite length_skipn; lia|assumption|].
    destruct (@int_base2_byte (firstn 8 d)) as (v & Hv & Hvr);
      [rewrite length_firstn; lia|assumption|].
    exists (firstn 8 d :: cs), (v :: vs). repeat split.
    + cbn [concat]. rewrite <- Hcs. symmetry. apply firstn_skipn.
    + now constructor.
    + simpl. now rewrite Hlen.
    + constructor; assumption.
Qed.

Lemma restore_bytes_fitted (cs : list str) (values : list Z) size :
  Forall2 chunk_value cs values -> length values = size ->
  fit_bits (concat cs) size = concat cs ->
  restore_bytes (concat cs) size = Ok values.
Proof.
  intros Hcs Hlen Hfit. unfold restore_bytes. cbv zeta.
  rewrite Hfit, (collect_bytes_chunks Hcs). cbn [bind].
  rewrite Hlen, Nat.ltb_irrefl, andb_false_r. reflexivity.
Qed.

Lemma bit_string_chunks (data : list Byte.byte) :
  Forall2 chunk_value (map (fun byte => format_08b (Byte.to_N byte)) data)
          (map byte_value data).
Proof.
  induction data as [|b data IH]; constructor; [|assumption].
  destruct (format_08b_byte b) as (H8 & _ & Hv). now split.
Qed.

Lemma bit_string_of_bits (data : list Byte.byte) :
  length (bit_string_of data) = length data * 8
  /\ Forall (fun c => c = "0" \/ c = "1") (bit_string_of data).
Proof.
  unfold bit_string_of. split.
  - rewrite (@concat_chunks_length _ 8), length_map; [reflexivity|].
    apply Forall_map, Forall_forall. intros b _. apply format_08b_byte.
  - apply Forall_concat, Forall_map, Forall_forall. intros b _.
    apply forallb_in_01, format_08b_byte.
Qed.

Lemma restore_bit_string (data : list Byte.byte) :
  restore_bytes (bit_string_of data) (length data) = Ok (map byte_value data).
Proof.
  apply restore_bytes_fitted.
  - apply bit_string_chunks.
  - apply length_map.
  - apply fit_bits_id, bit_string_of_bits.
Qed.

(** X6: The bit string of a file is 8 characters '0' or '1' for each byte, most
    significant bit first, and the conversion back to bytes at the end of
    the channel-coded path inverts it. *)
Theorem bit_string_round_trip (data : list Byte.byte) :
  length (bit_string_of data) = 8 * length data
  /\ Forall (fun c => c = "0" \/ c = "1") (bit_string_of data)
  /\ restore_bytes (bit_string_of data) (length data)
     = Ok (map byte_value data).
Proof.
  destruct (bit_string_of_bits data) as [Hlen Hbits].
  split; [lia|]. split; [exact Hbits|]. apply restore_bit_string.
Qed.

Lemma restore_bytes_chunks (decoded_bits : str) size cs values :
  fit_bits decoded_bits size = concat cs ->
  Forall2 chunk_value cs values -> length values = size ->
  restore_bytes decoded_bits size = Ok values.
Proof.
  intros Hfit Hcs Hlen. unfold restore_bytes. cbv zeta.
  rewrite Hfit, (collect_bytes_chunks Hcs). cbn [bind].
  now rewrite Hlen, Nat.ltb_irrefl, andb_false_r.
Qed.

(** X7: Whatever bit string the channel decoder returns, longer or shorter than
    expected, the bytes restored from it are as many as the file that went
    into the channel coder had, each in 0..255. *)
Theorem restore_bytes_size (decoded_bits : str) (original_binary_size : nat) :
  original_binary_size <> 0 ->
  Forall (fun c => c = "0" \/ c = "1") decoded_bits ->
  exists bytes_list,
    restore_bytes decoded_bits original_binary_size = Ok bytes_list
    /\ length bytes_list = original_binary_size
    /\ Forall (fun v => 0 <= v < 256)%Z bytes_list.
Proof.
  intros Hsize Hbits.
  destruct (fit_bits_spec Hsize Hbits) as [Hlen Hfit].
  destruct (chunks_of_bits _ Hlen Hfit) as (cs & vs & Hcs & Hvs & Hl & Hr).
  exists vs. split; [|now split].
  now apply (@restore_bytes_chunks decoded_bits original_binary_size cs vs).
Qed.

Lemma restore_bytes_size_witness :
  exists bytes_list,
    restore_bytes ["1"; "0"; "1"] 2 = Ok bytes_list
    /\ length bytes_list = 2
    /\ Forall (fun v => 0 <= v < 256)%Z bytes_list.
Proof.
  apply restore_bytes_size; [discriminate|].
  repeat (apply Forall_cons; [first [now left|now right]|]). apply Forall_nil.
Defined.

Lemma only_bits_id (s : str) :
  Forall (fun c => c = "0" \/ c = "1") s -> only_bits s = s.
Proof. intros H. apply forallb_filter_id. now apply forallb_in_01. Qed.

Lemma xor_bits_cons x a y n :
  xor_bits (x :: a) (y :: n)
  = (if negb (Ascii.eqb x y) then "1" else "0") :: xor_bits a n.
Proof. reflexivity. Qed.

Lemma xor_bits_is_bits a n :
  Forall (fun c => c = "0" \/ c = "1") (xor_bits a n).
Proof.
  unfold xor_bits. apply Forall_map, Forall_forall. intros [x y] _. simpl.
  destruct (negb _); auto.
Qed.

Lemma xor_bits_length a n :
  length (xor_bits a n) = Nat.min (length a) (length n).
Proof. unfold xor_bits. now rewrite length_map, length_combine. Qed.

Lemma xor_bits_app a a' n n' :
  length a = length n ->
  xor_bits (a ++ a') (n ++ n') = xor_bits a n ++ xor_bits a' n'.
Proof.
  revert n. induction a as [|x a IH]; intros [|y n] H; simpl in H;
    try discriminate; [reflexivity|].
  rewrite <- !app_comm_cons, !xor_bits_cons, <- app_comm_cons.
  f_equal. apply IH. lia.
Qed.

Lemma xor_bits_twice (e n : str) :
  Forall (fun c => c = "0" \/ c = "1") e ->
  Forall (fun c => c = "0" \/ c = "1") n ->
  length e = length n -> xor_bits (xor_bits e n) n = e.
Proof.
  intros He. revert n. induction He as [|x e Hx _ IH]; intros n Hn Hlen.
  - reflexivity.
  - destruct Hn as [|y n Hy Hn]; [discriminate|].
    rewrite !xor_bits_cons. f_equal; [|apply IH; [assumption|simpl in Hlen; lia]].
    destruct Hx as [-> | ->], Hy as [-> | ->]; reflexivity.
Qed.

Lemma differing_xor_bits (e n : str) :
  Forall (fun c => c = "0" \/ c = "1") e ->
  Forall (fun c => c = "0" \/ c = "1") n ->
  length e = length n ->
  length (differing e (xor_bits e n)) = count "1" n.
Proof.
  intros He. revert n. induction He as [|x e Hx _ IH]; intros n Hn Hlen.
  - destruct n; [reflexivity|discriminate].
  - destruct Hn as [|y n Hy Hn]; [discriminate|].
    rewrite xor_bits_cons. unfold differing in *.
    cbn [combine filter fst snd count].
    specialize (IH n Hn ltac:(simpl in Hlen; lia)).
    destruct Hx as [-> | ->], Hy as [-> | ->]; cbn; now rewrite IH.
Qed.

(** X8: The bit channel of [simulate_scenario]: on bit strings of one length,
    adding the same noise a second time restores the input, and the Hamming
    distance between input and output is the number of '1' in the
    noise. *)
Theorem xor_bits_flips (encoded_bits noise_bits : str) :
  Forall (fun c => c = "0" \/ c = "1") encoded_bits ->
  Forall (fun c => c = "0" \/ c = "1") noise_bits ->
  length encoded_bits = length noise_bits ->
  xor_bits (xor_bits encoded_bits noise_bits) noise_bits = encoded_bits
  /\ calculate_hamming_distance encoded_bits
                                (xor_bits encoded_bits noise_bits)
     = (count "1" noise_bits, length encoded_bits).
Proof.
  intros He Hn Hlen. split; [now apply xor_bits_twice|].
  rewrite calculate_hamming_distance_eq, differing_xor_bits by assumption.
  rewrite xor_bits_length. f_equal. lia.
Qed.

Lemma xor_bits_flips_witness :
  xor_bits (xor_bits ["1"; "1"; "0"] ["0"; "1"; "1"]) ["0"; "1"; "1"]
  = ["1"; "1"; "0"]
  /\ calculate_hamming_distance
       ["1"; "1"; "0"] (xor_bits ["1"; "1"; "0"] ["0"; "1"; "1"])
     = (count "1" ["0"; "1"; "1"], length ["1"; "1"; "0"]).
Proof.
  apply xor_bits_flips;
    [repeat (apply Forall_cons; [first [now left|now right]|]);
     apply Forall_nil ..|reflexivity].
Defined.

Lemma encode_bit_string_ok (s : str) :
  s <> [] -> Forall (fun c => c = "0" \/ c = "1") s ->
  encode_bit_string s = Ok (concat (map (fun bit => repeat bit N) s)).
Proof.
  intros Hs Hb. unfold encode_bit_string, validate_bit_string.
  destruct s as [|c s]; [congruence|].
  apply forallb_in_01 in Hb. now rewrite Hb.
Qed.

Lemma repeat3_bits (s : str) :
  Forall (fun c => c = "0" \/ c = "1") s ->
  Forall (fun c => c = "0" \/ c = "1")
         (concat (map (fun bit => repeat bit N) s)).
Proof.
  intros Hs. apply Forall_concat, Forall_map.
  eapply Forall_impl; [|exact Hs]. intros b Hb.
  apply Forall_forall. intros c Hc. apply repeat_spec in Hc. now subst.
Qed.

Lemma bit_string_of_nonempty (data : list Byte.byte) :
  data <> [] -> bit_string_of data <> [].
Proof.
  intros Hd Hnil. apply (f_equal (@length _)) in Hnil.
  destruct (bit_string_of_bits data) as [Hlen _].
  rewrite Hlen in Hnil. destruct data; [congruence|simpl in Hnil; lia].
Qed.

Lemma channel_coded_path_steps (data : list Byte.byte) (noise_bits : str) :
  data <> [] ->
  channel_coded_path data noise_bits
  = (decoded_bits <-
       majority_vote_decode
         (xor_bits (concat (map (fun bit => repeat bit N) (bit_string_of data)))
                   noise_bits) 3 ;;
     restore_bytes decoded_bits (length data)).
Proof.
  intros Hd. unfold channel_coded_path. cbv zeta.
  destruct (bit_string_of_bits data) as [_ Hbits].
  rewrite encode_bit_string_ok by (now apply bit_string_of_nonempty || assumption).
  cbn [bind]. rewrite (only_bits_id (repeat3_bits Hbits)).
  now rewrite (only_bits_id (xor_bits_is_bits _ _)).
Qed.

Lemma majority_vote_decode_bits (e : str) :
  e <> [] ->
  exists r, majority_vote_decode e 3 = Ok r
            /\ Forall (fun c => c = "0" \/ c = "1") r.
Proof.
  intros He. eexists. split; [apply majority_vote_decode_eq; [assumption|lia]|].
  apply Forall_map, Forall_forall. intros g _. apply majority_is_bit.
Qed.

(** X9: The channel-coded path ends in an error only on an empty file or an
    empty noise string, where the repetition coder or decoder raises
    [ValueError]; in every other case, whatever the noise is, it writes as
    many bytes as the file had. *)
Theorem channel_coded_path_size (data : list Byte.byte) (noise_bits : str) :
  match channel_coded_path data noise_bits with
  | Ok bytes_list =>
      data <> [] /\ noise_bits <> []
      /\ length bytes_list = length data
      /\ Forall (fun v => 0 <= v < 256)%Z bytes_list
  | Err e => e = ValueError /\ (data = [] \/ noise_bits = [])
  end.
Proof.
  destruct data as [|b data]; [split; [reflexivity|now left]|].
  rewrite channel_coded_path_steps by discriminate.
  destruct noise_bits as [|y noise].
  - unfold xor_bits. rewrite combine_nil. split; [reflexivity|now right].
  - destruct (@majority_vote_decode_bits
                (xor_bits (concat (map (fun bit => repeat bit N)
                                       (bit_string_of (b :: data))))
                          (y :: noise))) as (r & Hr & Hbits).
    { intros Hnil. apply (f_equal (@length _)) in Hnil.
      rewrite xor_bits_length, repeat3_length in Hnil.
      destruct (bit_string_of_bits (b :: data)) as [Hlen _].
      plain_str. rewrite Hlen in Hnil. simpl in Hnil. lia. }
    rewrite Hr. cbn [bind].
    destruct (@fit_bits_spec r (length (b :: data))) as [Hlen Hfit];
      [discriminate|assumption|].
    destruct (chunks_of_bits _ Hlen Hfit) as (cs & vs & Hcs & Hvs & Hl & Hrange).
    rewrite (@restore_bytes_chunks r (length (b :: data)) cs vs Hcs Hvs Hl).
    repeat split; (discriminate || assumption).
Qed.

Lemma count_xor_group b (g : str) :
  b = "0" \/ b = "1" ->
  count "0" g <= count b (xor_bits (repeat b (length g)) g).
Proof.
  intros Hb. induction g as [|x g IH]; [apply le_n|].
  cbn [length repeat]. rewrite xor_bits_cons. cbn [count].
  destruct (Ascii.eqb_spec x "0") as [->|Hx].
  - destruct Hb as [-> | ->]; cbn; lia.
  - destruct (Ascii.eqb _ b); lia.
Qed.

Lemma xor_groups (s : str) (noise : list str) :
  Forall2 (fun (_ : ascii) g => length g = 3) s noise ->
  xor_bits (concat (map (fun bit => repeat bit N) s)) (concat noise)
  = concat (map (fun bg => xor_bits (repeat (fst bg) 3) (snd bg))
                (combine s noise)).
Proof.
  induction 1 as [|b g s noise Hg _ IH]; [reflexivity|].
  cbn [map concat combine fst snd].
  rewrite xor_bits_app by (rewrite repeat_length; unfold N; lia).
  now rewrite IH.
Qed.

(** X10: The channel-coded path corrects one flipped bit in every group of
    three: if the file is not empty and every three noise characters hold
    '0' at least twice, the bytes written after channel decoding are the
    bytes of the file. *)
Theorem channel_coded_path_corrects (data : list Byte.byte)
    (noise : list str) :
  data <> [] ->
  length noise = 8 * length data ->
  Forall (fun g => length g = 3 /\ 2 <= count "0" g) noise ->
  channel_coded_path data (concat noise) = Ok (map byte_value data).
Proof.
  intros Hd Hlen Hnoise.
  rewrite channel_coded_path_steps by assumption.
  destruct (bit_string_of_bits data) as [Hbl Hbits].
  assert (Hpair : Forall2 (fun b g => (b = "0" \/ b = "1")
                                      /\ length g = 3 /\ 2 <= count "0" g)
                          (bit_string_of data) noise).
  { assert (Hl : length (bit_string_of data) = length noise) by lia.
    clear -Hl Hbits Hnoise. revert noise Hl Hnoise.
    induction Hbits as [|b s Hb _ IH]; intros [|g noise] Hl Hnoise;
      try discriminate; constructor.
    - inversion Hnoise; subst. tauto.
    - apply IH; [simpl in Hl; lia|now inversion Hnoise]. }
  rewrite xor_groups
    by (eapply Forall2_impl; [|exact Hpair]; intros b g H; apply H).
  rewrite decode_groups.
  - replace (map majority _) with (bit_string_of data);
      [cbn [bind]; apply restore_bit_string|].
    clear -Hpair. induction Hpair as [|b g s noise (Hb & Hg & Hc) _ IH];
      [reflexivity|].
    cbn [combine map fst snd]. rewrite <- IH. f_equal. symmetry.
    apply majority_two_of_three; [assumption| |].
    + rewrite xor_bits_length, repeat_length. lia.
    + rewrite <- Hg. etransitivity; [|apply count_xor_group; assumption].
      exact Hc.
  - intros Hnil. apply (f_equal (@length _)) in Hnil.
    rewrite length_map, length_combine in Hnil. simpl in Hnil.
    plain_str. destruct data; [congruence|simpl in *; lia].
  - apply Forall_map. clear -Hpair.
    induction Hpair as [|b g s noise (Hb & Hg & Hc) _ IH]; constructor;
      [|assumption].
    cbn [fst snd]. rewrite xor_bits_length, repeat_length. lia.
Qed.

Lemma channel_coded_path_corrects_witness :
  channel_coded_path
    [Byte.x41]
    (concat [["0"; "0"; "1"]; ["1"; "0"; "0"]; ["0"; "0"; "0"];
             ["0"; "1"; "0"]; ["0"; "0"; "0"]; ["0"; "0"; "0"];
             ["1"; "0"; "0"]; ["0"; "0"; "1"]])
  = Ok (map byte_value [Byte.x41]).
Proof.
  apply channel_coded_path_corrects.
  - discriminate.
  - reflexivity.
  - repeat (apply Forall_cons; [split; [reflexivity|simpl; lia]|]).
    apply Forall_nil.
Defined.

End TopFacts.

(** ** The byte channel of [channel.py] *)

Section ByteChannelFacts.

Import Sampler Channel.
Local Open Scope Z_scope.

Lemma lxor_byte x y : 0 <= x < 256 -> 0 <= y < 256 -> 0 <= Z.lxor x y < 256.
Proof.
  intros Hx Hy.
  assert (H0 : 0 <= Z.lxor x y) by (apply Z.lxor_nonneg; lia).
  split; [assumption|].
  destruct (Z.eq_dec (Z.lxor x y) 0) as [->|Hne]; [lia|].
  change 256 with (2 ^ 8). apply Z.log2_lt_pow2; [lia|].
  eapply Z.le_lt_trans; [apply Z.log2_lxor; lia|].
  assert (Hlog : forall a, 0 <= a < 256 -> Z.log2 a < 8).
  { intros a Ha. destruct (Z.eq_dec a 0) as [->|]; [reflexivity|].
    apply Z.log2_lt_pow2; lia. }
  specialize (Hlog x Hx) as Hlx. specialize (Hlog y Hy) as Hly. lia.
Qed.

Lemma lxor_twice x y : Z.lxor (Z.lxor x y) y = x.
Proof. now rewrite Z.lxor_assoc, Z.lxor_nilpotent, Z.lxor_0_r. Qed.

Lemma bitwise_xor_same_length (a b : list Z) :
  length a = length b ->
  bitwise_xor a b = Ok (map (fun xy => Z.lxor (fst xy) (snd xy)) (combine a b)).
Proof. intros H. unfold bitwise_xor. now rewrite H, Nat.eqb_refl. Qed.

Lemma xor_combine_twice (a b : list Z) :
  length a = length b ->
  map (fun xy => Z.lxor (fst xy) (snd xy))
      (combine (map (fun xy => Z.lxor (fst xy) (snd xy)) (combine a b)) b)
  = a.
Proof.
  revert b. induction a as [|x a IH]; intros [|y b] H; simpl in H;
    try discriminate; [reflexivity|].
  cbn [combine map fst snd]. rewrite lxor_twice. f_equal. apply IH. lia.
Qed.

(** X11: [simulate_bsc] on a noise array as long as the input, as
    [bsc_workflow] calls it: the output has the length of the input, bytes
    stay bytes, and the same noise applied to the output gives the input
    back. *)
Theorem simulate_bsc_involution (input_data noise_data : list Z) :
  length input_data = length noise_data ->
  exists output_data,
    simulate_bsc input_data noise_data = Ok output_data
    /\ length output_data = length input_data
    /\ simulate_bsc output_data noise_data = Ok input_data
    /\ (Forall (fun b => 0 <= b < 256) input_data ->
        Forall (fun b => 0 <= b < 256) noise_data ->
        Forall (fun b => 0 <= b < 256) output_data).
Proof.
  intros Hlen. unfold simulate_bsc.
  rewrite (bitwise_xor_same_length _ _ Hlen). eexists. split; [reflexivity|].
  assert (Hout : length (map (fun xy => Z.lxor (fst xy) (snd xy))
                             (combine input_data noise_data))
                 = length input_data).
  { rewrite length_map, length_combine. lia. }
  split; [exact Hout|]. split.
  - rewrite bitwise_xor_same_length by lia.
    now rewrite xor_combine_twice.
  - intros Hi Hn. apply Forall_map, Forall_forall. intros [x y] Hxy.
    rewrite Forall_forall in Hi, Hn. cbn [fst snd].
    apply lxor_byte; [apply Hi; eapply in_combine_l|apply Hn; eapply in_combine_r];
      exact Hxy.
Qed.

Lemma simulate_bsc_involution_witness :
  exists output_data,
    simulate_bsc [65; 255; 0] [1; 1; 0] = Ok output_data
    /\ length output_data = length [65; 255; 0]
    /\ simulate_bsc output_data [1; 1; 0] = Ok [65; 255; 0].
Proof.
  destruct (@simulate_bsc_involution [65; 255; 0] [1; 1; 0] eq_refl)
    as (out & H1 & H2 & H3 & _).
  exists out. repeat split; assumption.
Defined.

Lemma noise_symbol (p_one u : Q) :
  (u < 1)%Q ->
  searchsorted_right (compute_cdf (map snd (noise_prob p_one))) u
  = if Qle_bool (1 - p_one) u then 1 else 0.
Proof.
  intros Hu. unfold noise_prob, compute_cdf, cumsum.
  cbn [map snd cumsum_from searchsorted_right].
  assert (E1 : Qle_bool (0 + (1 - p_one)) u = Qle_bool (1 - p_one) u).
  { apply eq_true_iff_eq. rewrite !Qle_bool_iff.
    now rewrite Qplus_0_l. }
  assert (E2 : Qle_bool (0 + (1 - p_one) + p_one) u = false).
  { apply not_true_is_false. rewrite Qle_bool_iff. intros H.
    apply (Qlt_not_le _ _ Hu). eapply Qle_trans; [|exact H].
    apply Qle_lteq. right. ring. }
  rewrite E1, E2. destruct (Qle_bool (1 - p_one) u); reflexivity.
Qed.

Lemma lxor_low_bit x n : n = 0 \/ n = 1 -> Z.lxor x n / 2 = x / 2.
Proof.
  intros [-> | ->]; [now rewrite Z.lxor_0_r|].
  change 2 with (2 ^ 1). rewrite <- !Z.shiftr_div_pow2 by lia.
  rewrite Z.shiftr_lxor. change (Z.shiftr 1 1) with 0. apply Z.lxor_0_r.
Qed.

(** X12: [bsc_workflow] draws its noise from the two-row distribution
    written by [generate_probability_csv], so for a probability p_one (the
    CDF is then sorted) and draws in [0, 1) every noise byte is 0 or 1 (1
    exactly on a draw of at least 1 - p_one) and the output differs from
    the input in the least significant bit of a byte at most: the seven
    upper bits of every byte pass unchanged. *)
Theorem bsc_workflow_flips_low_bit (input_data : list Z) (p_one : Q)
    (symbol_random : list Q) :
  (0 <= p_one <= 1)%Q ->
  length symbol_random = length input_data ->
  Forall (fun u => 0 <= u /\ u < 1)%Q symbol_random ->
  Forall (fun b => 0 <= b < 256) input_data ->
  exists noise_data output_data,
    bsc_workflow input_data p_one symbol_random = Ok (noise_data, output_data)
    /\ noise_data
       = map (fun u => if Qle_bool (1 - p_one) u then 1 else 0) symbol_random
    /\ Forall2 (fun x y => 0 <= y < 256 /\ y / 2 = x / 2)
               input_data output_data.
Proof.
  intros _ Hlen Hdraws Hbytes. unfold bsc_workflow. cbv zeta.
  assert (Hnoise : get_data (compute_cdf (map snd (noise_prob p_one)))
                            symbol_random
                   = map (fun u => if Qle_bool (1 - p_one) u then 1 else 0)
                         symbol_random).
  { unfold get_data. apply map_ext_in. intros u Hu.
    rewrite Forall_forall in Hdraws. rewrite noise_symbol by apply Hdraws, Hu.
    destruct (Qle_bool (1 - p_one) u); reflexivity. }
  rewrite Hnoise. unfold simulate_bsc.
  rewrite bitwise_xor_same_length by (rewrite length_map; lia).
  cbn [bind]. do 2 eexists. split; [reflexivity|]. split; [reflexivity|].
  clear Hnoise. revert symbol_random Hlen Hdraws.
  induction Hbytes as [|x input Hx _ IH]; intros [|u draws] Hlen Hdraws;
    try discriminate; [constructor|].
  cbn [map combine fst snd]. constructor.
  - assert (Hn : (if Qle_bool (1 - p_one) u then 1 else 0) = 0
                 \/ (if Qle_bool (1 - p_one) u then 1 else 0) = 1)
      by (destruct (Qle_bool (1 - p_one) u); auto).
    split; [|now apply lxor_low_bit].
    apply lxor_byte; [assumption|]. destruct Hn as [-> | ->]; lia.
  - apply IH; [simpl in Hlen; lia|now inversion Hdraws].
Qed.

Lemma bsc_workflow_flips_low_bit_witness :
  exists noise_data output_data,
    bsc_workflow [65; 255; 0] (1 # 10) [(1 # 2)%Q; (19 # 20)%Q; 0%Q]
    = Ok (noise_data, output_data)
    /\ noise_data
       = map (fun u => if Qle_bool (1 - (1 # 10)) u then 1 else 0)
             [(1 # 2)%Q; (19 # 20)%Q; 0%Q]
    /\ Forall2 (fun x y => 0 <= y < 256 /\ y / 2 = x / 2)
               [65; 255; 0] output_data.
Proof.
  apply bsc_workflow_flips_low_bit.
  - split; discriminate.
  - reflexivity.
  - repeat (apply Forall_cons; [split; [discriminate|reflexivity]|]).
    apply Forall_nil.
  - repeat (apply Forall_cons; [lia|]). apply Forall_nil.
Defined.

End ByteChannelFacts.

(** ** Inverse-CDF sampling: symbols of probability zero *)

Section SamplerMore.

Import Sampler.
Local Open Scope Q_scope.

Lemma last_cons_default {A} (l : list A) : forall c d,
  last (c :: l) d = last l c.
Proof.
  induction l as [|x l IH]; intros c d; [reflexivity|].
  change (last (c :: x :: l) d) with (last (x :: l) d).
  now rewrite (IH x d), (IH x c).
Qed.

Lemma last_in {A} (l : list A) : forall x d, In (last (x :: l) d) (x :: l).
Proof.
  induction l as [|y l IH]; intros x d; [now left|].
  change (last (x :: y :: l) d) with (last (y :: l) d). right. apply IH.
Qed.

Lemma searchsorted_right_above (a : list Q) u :
  Forall (fun c => c <= u) a -> searchsorted_right a u = Z.of_nat (length a).
Proof.
  induction 1 as [|c a Hc _ IH]; [reflexivity|].
  cbn [searchsorted_right length].
  rewrite (proj2 (Qle_bool_iff c u) Hc), IH. lia.
Qed.

Lemma searchsorted_left_above (a : list Q) u :
  Forall (fun c => c < u) a -> searchsorted_left a u = Z.of_nat (length a).
Proof.
  induction 1 as [|c a Hc _ IH]; [reflexivity|].
  cbn [searchsorted_left length].
  destruct (Qle_bool u c) eqn:E.
  - apply Qle_bool_iff in E. exfalso. exact (Qlt_not_le _ _ Hc E).
  - rewrite IH. lia.
Qed.

Lemma sorted_below_last (a : list Q) :
  StronglySorted Qle a -> forall d, Forall (fun c => c <= last a d) a.
Proof.
  induction 1 as [|c a _ IH Hc]; intros d; [constructor|].
  rewrite last_cons_default. constructor.
  - destruct a as [|x a]; [apply Qle_refl|].
    rewrite Forall_forall in Hc. apply Hc, last_in.
  - apply IH.
Qed.

(** *** The CDF with rounded sums *)

Section RoundedSums.

(** float64 addition: adding zero changes nothing, and adding a number
    that is not negative does not give less. *)
Variable fadd : Q -> Q -> Q.
Hypothesis fadd_zero : forall a x, x == 0 -> fadd a x == a.
Hypothesis fadd_increasing : forall a x, 0 <= x -> a <= fadd a x.

Lemma cumsum_f64_from_length (p : list Q) : forall acc,
  length (cumsum_f64_from fadd acc p) = length p.
Proof.
  induction p as [|x p IH]; intros acc; [reflexivity|].
  cbn [cumsum_f64_from length]. now rewrite IH.
Qed.

Lemma cumsum_f64_length (p : list Q) : length (cumsum_f64 fadd p) = length p.
Proof.
  destruct p as [|x p]; [reflexivity|].
  cbn [cumsum_f64 length]. now rewrite cumsum_f64_from_length.
Qed.

Lemma cumsum_f64_from_sorted (p : list Q) :
  Forall (Qle 0) p -> forall acc,
  Forall (Qle acc) (cumsum_f64_from fadd acc p)
  /\ StronglySorted Qle (cumsum_f64_from fadd acc p).
Proof.
  induction 1 as [|x p Hx _ IH]; intros acc; cbn [cumsum_f64_from].
  - split; constructor.
  - destruct (IH (fadd acc x)) as [Hall Hsorted].
    pose proof (fadd_increasing acc Hx) as Hstep.
    split.
    + constructor; [exact Hstep|].
      eapply Forall_impl; [|exact Hall].
      intros c Hc. eapply Qle_trans; eassumption.
    + now constructor.
Qed.

Lemma cumsum_f64_sorted (p : list Q) :
  Forall (Qle 0) p -> StronglySorted Qle (cumsum_f64 fadd p).
Proof.
  intros Hp. destruct Hp as [|x p Hx Hp]; cbn [cumsum_f64]; [constructor|].
  destruct (cumsum_f64_from_sorted Hp x) as [Hall Hsorted].
  now constructor.
Qed.

(** The step of probability zero: the CDF does not move there. *)
Lemma positive_step acc x u :
  0 <= x -> acc <= u -> u < fadd acc x -> 0 < x.
Proof.
  intros Hx Hlo Hhi. apply Qnot_le_lt. intros Hle.
  assert (E : x == 0) by now apply Qle_antisym.
  apply (Qlt_not_le _ _ Hhi). rewrite (fadd_zero acc E). exact Hlo.
Qed.

Lemma searchsorted_right_positive (p : list Q) :
  Forall (Qle 0) p -> forall acc u,
  acc <= u -> u < last (cumsum_f64_from fadd acc p) acc ->
  let k := searchsorted_right (cumsum_f64_from fadd acc p) u in
  (0 <= k < Z.of_nat (length p))%Z /\ 0 < nth (Z.to_nat k) p 0.
Proof.
  induction 1 as [|x p Hx _ IH]; intros acc u Hlo Hhi.
  - exfalso. exact (Qlt_not_le _ _ Hhi Hlo).
  - cbn [cumsum_f64_from] in *. rewrite last_cons_default in Hhi.
    cbn [searchsorted_right length].
    destruct (Qle_bool (fadd acc x) u) eqn:E.
    + apply Qle_bool_iff in E.
      destruct (IH (fadd acc x) u E Hhi) as [Hk Hp].
      cbv zeta.
      set (k := searchsorted_right (cumsum_f64_from fadd (fadd acc x) p) u)
        in *.
      split; [lia|].
      replace (Z.to_nat (1 + k)) with (S (Z.to_nat k)) by lia. exact Hp.
    + cbv zeta. split; [lia|]. cbn [Z.to_nat nth].
      apply (@positive_step acc x u Hx Hlo).
      apply Qnot_le_lt. intros H. apply Qle_bool_iff in H. congruence.
Qed.

Lemma searchsorted_left_positive (p : list Q) :
  Forall (Qle 0) p -> forall acc u,
  acc < u -> u <= last (cumsum_f64_from fadd acc p) acc ->
  let k := searchsorted_left (cumsum_f64_from fadd acc p) u in
  (0 <= k < Z.of_nat (length p))%Z /\ 0 < nth (Z.to_nat k) p 0.
Proof.
  induction 1 as [|x p Hx _ IH]; intros acc u Hlo Hhi.
  - exfalso. exact (Qlt_not_le _ _ Hlo Hhi).
  - cbn [cumsum_f64_from] in *. rewrite last_cons_default in Hhi.
    cbn [searchsorted_left length].
    destruct (Qle_bool u (fadd acc x)) eqn:E.
    + cbv zeta. split; [lia|]. cbn [Z.to_nat nth].
      apply Qle_bool_iff in E. apply Qnot_le_lt. intros Hle.
      assert (Ex : x == 0) by now apply Qle_antisym.
      rewrite (fadd_zero acc Ex) in E. exact (Qlt_not_le _ _ Hlo E).
    + assert (Hlt : fadd acc x < u).
      { apply Qnot_le_lt. intros H. apply Qle_bool_iff in H. congruence. }
      destruct (IH (fadd acc x) u Hlt Hhi) as [Hk Hp].
      cbv zeta.
      set (k := searchsorted_left (cumsum_f64_from fadd (fadd acc x) p) u)
        in *.
      split; [lia|].
      replace (Z.to_nat (1 + k)) with (S (Z.to_nat k)) by lia. exact Hp.
Qed.

(** X13: [get_data] on the CDF that [compute_cdf] returns, with the sums
    of [cumsum] rounded as float64 addition rounds them, for a PMF of at
    most 256 non-negative entries.  The CDF is sorted, as [np.searchsorted]
    expects.  A draw that is below the last entry of the CDF never gives a
    symbol of probability zero: the symbol returned is an index of the PMF
    whose probability is positive.  A draw at or above the last entry,
    which a draw below 1 can be when the rounded sums end below 1, is given
    the index [len(p)], reduced modulo 256. *)
Theorem get_data_draws_possible_symbols (p symbol_random : list Q) :
  (length p <= 256)%nat ->
  Forall (Qle 0) p ->
  let cdf := compute_cdf_f64 fadd p in
  StronglySorted Qle cdf
  /\ (Forall (fun u => 0 <= u /\ u < last cdf 0) symbol_random ->
      Forall (fun s => (0 <= s < Z.of_nat (length p))%Z
                       /\ 0 < nth (Z.to_nat s) p 0)
             (get_data cdf symbol_random))
  /\ (forall u, last cdf 0 <= u ->
      get_data cdf [u] = [(Z.of_nat (length p) mod 256)%Z]).
Proof.
  intros Hlen Hp cdf. subst cdf. unfold compute_cdf_f64.
  pose proof (cumsum_f64_sorted Hp) as Hsorted.
  split; [exact Hsorted|]. split.
  - intros Hdraws. unfold get_data. apply Forall_map.
    eapply Forall_impl; [|exact Hdraws].
    intros u [Hlo Hhi]. unfold astype_uint8.
    destruct Hp as [|x p Hx Hp]; cbn [cumsum_f64] in *.
    { exfalso. exact (Qlt_not_le _ _ Hhi Hlo). }
    rewrite last_cons_default in Hhi.
    cbn [searchsorted_right length] in *.
    destruct (Qle_bool x u) eqn:E.
    + apply Qle_bool_iff in E.
      destruct (@searchsorted_right_positive p Hp x u E Hhi) as [Hk Hpos].
      set (k := searchsorted_right (cumsum_f64_from fadd x p) u) in *.
      rewrite Z.mod_small by lia. split; [lia|].
      replace (Z.to_nat (1 + k)) with (S (Z.to_nat k)) by lia. exact Hpos.
    + rewrite Z.mod_small by lia. split; [lia|]. cbn [Z.to_nat nth].
      eapply Qle_lt_trans; [exact Hlo|].
      apply Qnot_le_lt. intros H. apply Qle_bool_iff in H. congruence.
  - intros u Hu. unfold get_data, astype_uint8. cbn [map].
    rewrite searchsorted_right_above.
    + now rewrite cumsum_f64_length.
    + eapply Forall_impl; [|apply (sorted_below_last Hsorted 0)].
      intros c Hc. cbv beta in Hc. exact (Qle_trans _ _ _ Hc Hu).
Qed.

(** X14: [generate_msg] searches with [side='left'], in the CDF of
    [np.cumsum] with its sums rounded as float64 addition rounds them.
    For a PMF of non-negative entries, a draw in (0, last entry of the
    CDF] is given a symbol of positive probability; a draw of exactly 0,
    which [np.random.uniform] can return, is given symbol 0 whatever its
    probability is; and a draw above the last entry of the CDF, which a
    draw below 1 can be when the rounded sums end below 1, is given the
    index [len(symbol_prob)], which is no symbol of the PMF. *)
Theorem generate_msg_draws_possible_symbols (p symbol_random : list Q) :
  Forall (Qle 0) p ->
  let cdf := cumsum_f64 fadd p in
  (Forall (fun u => 0 < u /\ u <= last cdf 0) symbol_random ->
   Forall (fun s => (0 <= s < Z.of_nat (length p))%Z
                    /\ 0 < nth (Z.to_nat s) p 0)
          (generate_msg_f64 fadd p symbol_random))
  /\ (p <> [] -> generate_msg_f64 fadd p [0] = [0%Z])
  /\ (forall u, last cdf 0 < u ->
      generate_msg_f64 fadd p [u] = [Z.of_nat (length p)]).
Proof.
  intros Hp cdf. subst cdf.
  pose proof (cumsum_f64_sorted Hp) as Hsorted.
  unfold generate_msg_f64. cbv zeta. split; [|split].
  - intros Hdraws. apply Forall_map.
    eapply Forall_impl; [|exact Hdraws].
    intros u [Hlo Hhi].
    destruct Hp as [|x p Hx Hp]; cbn [cumsum_f64] in *.
    { exfalso. exact (Qlt_not_le _ _ Hlo Hhi). }
    rewrite last_cons_default in Hhi.
    cbn [searchsorted_left length] in *.
    destruct (Qle_bool u x) eqn:E.
    + split; [lia|]. cbn [Z.to_nat nth].
      apply Qle_bool_iff in E. eapply Qlt_le_trans; eassumption.
    + assert (Hlt : x < u).
      { apply Qnot_le_lt. intros H. apply Qle_bool_iff in H. congruence. }
      destruct (@searchsorted_left_positive p Hp x u Hlt Hhi) as [Hk Hpos].
      set (k := searchsorted_left (cumsum_f64_from fadd x p) u) in *.
      split; [lia|].
      replace (Z.to_nat (1 + k)) with (S (Z.to_nat k)) by lia. exact Hpos.
  - intros Hne. destruct Hp as [|x p Hx Hp]; [congruence|].
    cbn [cumsum_f64 map searchsorted_left].
    now rewrite (proj2 (Qle_bool_iff 0 x) Hx).
  - intros u Hu. cbn [map]. rewrite searchsorted_left_above.
    + now rewrite cumsum_f64_length.
    + eapply Forall_impl; [|apply (sorted_below_last Hsorted 0)].
      intros c Hc. cbv beta in Hc. exact (Qle_lt_trans _ _ _ Hc Hu).
Qed.

End RoundedSums.

Lemma Qplus_zero a x : x == 0 -> a + x == a.
Proof. intros ->. apply Qplus_0_r. Qed.

Lemma Qplus_increasing a x : 0 <= x -> a <= a + x.
Proof.
  intros Hx. rewrite <- (Qplus_0_r a) at 1. now apply Qplus_le_r.
Qed.

Lemma get_data_draws_possible_symbols_witness :
  Forall (fun s => (0 <= s < 4)%Z
                   /\ 0 < nth (Z.to_nat s) [0; 1 # 2; 0; 1 # 2] 0)
         (get_data (compute_cdf_f64 Qplus [0; 1 # 2; 0; 1 # 2])
                   [0; 1 # 2; 3 # 4]).
Proof.
  apply (@get_data_draws_possible_symbols Qplus Qplus_zero Qplus_increasing
           [0; 1 # 2; 0; 1 # 2] [0; 1 # 2; 3 # 4]).
  - simpl. lia.
  - repeat (apply Forall_cons; [discriminate|]). apply Forall_nil.
  - repeat (apply Forall_cons; [split; [discriminate|reflexivity]|]).
    apply Forall_nil.
Defined.

Lemma generate_msg_draws_possible_symbols_witness :
  generate_msg_f64 Qplus [0; 1 # 2; 1 # 2] [0] = [0%Z]
  /\ Forall (fun s => (0 <= s < 3)%Z
                      /\ 0 < nth (Z.to_nat s) [0; 1 # 2; 1 # 2] 0)
            (generate_msg_f64 Qplus [0; 1 # 2; 1 # 2] [1 # 4; 1]).
Proof.
  destruct (@generate_msg_draws_possible_symbols Qplus Qplus_zero
              Qplus_increasing [0; 1 # 2; 1 # 2] [1 # 4; 1])
    as (Hpos & Hzero & _).
  - repeat (apply Forall_cons; [discriminate|]). apply Forall_nil.
  - split; [apply Hzero; discriminate|]. apply Hpos.
    repeat (apply Forall_cons; [split; [reflexivity|discriminate]|]).
    apply Forall_nil.
Defined.

(** With float64 addition the CDF of ten probabilities [0.1] ends at
    1 - 2^-53, and a draw of that value is given the index 10 by
    [get_data]; the CDF of seven probabilities [1/7] ends at 1 - 2^-52, and
    a draw of 1 - 2^-53 is given the index 7 by [generate_msg]. *)
Lemma draws_above_rounded_cdf :
  last (compute_cdf_f64 Float64.add64 ten_tenths) 0
  == 1 - (1 # 9007199254740992)
  /\ get_data (compute_cdf_f64 Float64.add64 ten_tenths)
              [1 - (1 # 9007199254740992)] = [10%Z]
  /\ last (cumsum_f64 Float64.add64 seven_sevenths) 0
     == 1 - (1 # 4503599627370496)
  /\ generate_msg_f64 Float64.add64 seven_sevenths
                      [1 - (1 # 9007199254740992)] = [7%Z].
Proof. vm_compute. repeat split. Qed.

End SamplerMore.

(** ** Blob decoder: truncated headers, degenerate tables, output length *)

Section DecoderMore.

Import Huffman BlobFormat SourceDecoder.
Local Open Scope Z_scope.

Lemma py_slice_length_le {A} (l : list A) i j :
  (length (py_slice l i j) <= j - i)%nat.
Proof. unfold py_slice. rewrite length_firstn. lia. Qed.

Lemma Forall_py_slice {A} (P : A -> Prop) (l : list A) i j :
  Forall P l -> Forall P (py_slice l i j).
Proof.
  intros H. rewrite Forall_forall in *. intros x Hx. apply H.
  unfold py_slice in Hx.
  rewrite <- (firstn_skipn i l). apply in_or_app. right.
  rewrite <- (firstn_skipn (j - i) (skipn i l)). apply in_or_app. now left.
Qed.

Lemma decode_blob_short (header payload : list Z) :
  Forall (fun b => 0 <= b < 256) header ->
  (length header < 7)%nat ->
  decode_blob header payload = Err IndexError.
Proof.
  intros Hbytes Hlen. unfold decode_blob.
  destruct header as [|c0 header]; [reflexivity|].
  cbn [Py.index nth_error bind]. cbv zeta.
  inversion Hbytes as [|? ? Hc0 _]; subst.
  destruct (Z.to_nat (c0 + 1)) as [|n] eqn:Hn; [lia|].
  cbn [rebuild Nat.add]. unfold Py.index.
  destruct (nth_error (c0 :: header) 5) eqn:E5; [|reflexivity].
  cbn [bind].
  destruct (nth_error (c0 :: header) 6) eqn:E6; [|reflexivity].
  exfalso. assert (H6 : nth_error (c0 :: header) 6 <> None) by congruence.
  apply nth_error_Some in H6. lia.
Qed.

(** X15: A file of 6 bytes or more whose header-length field is below 9 leaves
    no room for one table entry: the decoder does not exit with status 1
    but runs into an [IndexError] while it reads the table. *)
Theorem decoder_truncated_header (data : list Z) :
  Forall (fun b => 0 <= b < 256) data ->
  (6 <= length data)%nat ->
  header_size_field data < 9 ->
  SourceDecoder.main data = Err IndexError.
Proof.
  intros Hbytes Hlen Hfield. unfold SourceDecoder.main.
  destruct (Nat.ltb_spec (length data) 6) as [Hlt|_]; [lia|].
  cbv zeta. fold (header_size_field data).
  apply decode_blob_short.
  - now apply Forall_py_slice.
  - eapply Nat.le_lt_trans; [apply py_slice_length_le|]. lia.
Qed.

Lemma decoder_truncated_header_witness :
  SourceDecoder.main [8; 0; 0; 1; 0; 0; 0; 65; 1; 0] = Err IndexError.
Proof.
  apply decoder_truncated_header.
  - repeat (apply Forall_cons; [lia|]). apply Forall_nil.
  - simpl. lia.
  - vm_compute. reflexivity.
Defined.

(** X16: A table of the one symbol [symbol] with code length 1 makes the decoder
    fill the output with [original_len] copies of [symbol]: the code value
    and the payload are not looked at, so a file of ten bytes decodes to
    any length below 2^32. *)
Theorem decoder_fills_degenerate_blob (symbol value original_len : Z)
    (payload : list Z) :
  0 <= symbol < 256 -> 0 <= value < 256 -> 0 <= original_len < 2 ^ 32 ->
  SourceDecoder.main ([10; 0; 0] ++ Py.little_digits original_len 4
                      ++ [symbol; 1; value] ++ payload)
  = Ok (repeat symbol (Z.to_nat original_len)).
Proof.
  intros Hs Hv Hl.
  assert (E : blob_layout [(symbol, (1, value))] original_len payload
              = [10; 0; 0] ++ Py.little_digits original_len 4
                ++ [symbol; 1; value] ++ payload).
  { unfold blob_layout, header_size, table_bytes, entry_bytes.
    cbn [map concat].
    change (Z.to_nat ((1 + 7) / 8)) with 1%nat.
    change (Py.little_digits value 1) with [value mod 256].
    rewrite Z.mod_small by lia. reflexivity. }
  rewrite <- E, main_blob_layout.
  - reflexivity.
  - simpl. lia.
  - constructor; [|constructor]. cbn. lia.
  - repeat constructor. simpl. tauto.
  - assumption.
Qed.

Lemma decoder_fills_degenerate_blob_witness :
  SourceDecoder.main [10; 0; 0; 232; 3; 0; 0; 65; 1; 0]
  = Ok (repeat 65 1000).
Proof.
  apply (@decoder_fills_degenerate_blob 65 0 1000 []); lia.
Defined.

Lemma decode_with_length code_table payload original_len out :
  decode_with code_table payload original_len = Ok out ->
  (length out <= Z.to_nat original_len)%nat.
Proof.
  assert (Hpayload : decode_payload code_table payload original_len = Ok out ->
                     (length out <= Z.to_nat original_len)%nat).
  { unfold decode_payload.
    destruct (decode (HuffmanCodec code_table) payload); cbn [bind];
      [|discriminate].
    intros [= <-]. rewrite length_firstn. lia. }
  unfold decode_with.
  destruct code_table as [|[symbol [bits value]] [|e rest]]; try exact Hpayload.
  destruct (bits <=? 1); [|exact Hpayload].
  intros [= <-]. rewrite repeat_length. lia.
Qed.

Lemma py_slice_inner {A} (data : list A) h :
  (5 <= length (py_slice data 2 h))%nat ->
  py_slice (py_slice data 2 h) 1 5 = py_slice data 3 7.
Proof.
  unfold py_slice. intros Hlen. rewrite length_firstn in Hlen.
  change (5 - 1)%nat with 4%nat. change (7 - 3)%nat with 4%nat.
  rewrite skipn_firstn_comm, firstn_firstn, skipn_skipn.
  now replace (Nat.min 4 (h - 2 - 1)) with 4%nat by lia.
Qed.

Lemma from_bytes_little_bound (b : list Z) :
  Forall (fun x => 0 <= x < 256) b ->
  0 <= Py.from_bytes_little b < 256 ^ Z.of_nat (length b).
Proof.
  induction 1 as [|x b Hx _ IH]; [simpl; lia|].
  cbn [Py.from_bytes_little length]. rewrite Nat2Z.inj_succ, Z.pow_succ_r by lia.
  lia.
Qed.

(** X17: The decoder never writes more bytes than the 4-byte original-length
    field says, which is below 2^32, whatever the table and the payload
    are. *)
Theorem decoder_output_bounded (data out : list Z) :
  Forall (fun b => 0 <= b < 256) data ->
  SourceDecoder.main data = Ok out ->
  Z.of_nat (length out) <= original_len_field data < 2 ^ 32.
Proof.
  intros Hbytes Hmain.
  assert (Hfield : 0 <= original_len_field data < 2 ^ 32).
  { unfold original_len_field.
    pose proof (@from_bytes_little_bound (py_slice data 3 7)) as Hb.
    pose proof (@py_slice_length_le _ data 3 7) as Hl.
    assert (Hin : Forall (fun x => 0 <= x < 256) (py_slice data 3 7))
      by now apply Forall_py_slice.
    specialize (Hb Hin).
    assert (256 ^ Z.of_nat (length (py_slice data 3 7)) <= 256 ^ 4)
      by (apply Z.pow_le_mono_r; lia).
    change (2 ^ 32) with (256 ^ 4). lia. }
  split; [|apply Hfield].
  unfold SourceDecoder.main in Hmain.
  destruct (length data <? 6)%nat; [discriminate|]. cbv zeta in Hmain.
  set (hs := Z.to_nat (Py.from_bytes_little (py_slice data 0 2))) in *.
  assert (Hheader : Forall (fun b => 0 <= b < 256) (py_slice data 2 hs))
    by now apply Forall_py_slice.
  destruct (Nat.lt_ge_cases (length (py_slice data 2 hs)) 7) as [Hshort|Hlong].
  { rewrite (decode_blob_short _ Hheader Hshort) in Hmain. discriminate. }
  unfold decode_blob in Hmain.
  destruct (Py.index (py_slice data 2 hs) 0) as [c0|]; [|discriminate].
  cbn [bind] in Hmain. cbv zeta in Hmain.
  change (0 + 1)%nat with 1%nat in Hmain.
  change (1 + 4)%nat with 5%nat in Hmain.
  rewrite py_slice_inner in Hmain by lia.
  fold (original_len_field data) in Hmain.
  destruct (rebuild (py_slice data 2 hs) (Z.to_nat (c0 + 1)) 5 [])
    as [[code_table pos]|]; [|discriminate].
  cbn [bind] in Hmain. apply decode_with_length in Hmain. lia.
Qed.

Lemma decoder_output_bounded_witness :
  Z.of_nat (length [65; 65; 65; 65; 65])
  <= original_len_field oversized_header_blob < 2 ^ 32.
Proof.
  apply decoder_output_bounded.
  - repeat (apply Forall_cons; [lia|]). apply Forall_nil.
  - vm_compute. reflexivity.
Defined.

End DecoderMore.

(** ** Empirical distributions: [read_byte_dat] and the transition matrix *)

Section EmpiricalFacts.

Import ChannelIndexCalc CalaDMSInfo.
Local Open Scope Q_scope.

Lemma count_byte_length counts b :
  length (count_byte counts b) = length counts.
Proof. apply update_length. Qed.

Lemma byte_counts_length data : forall counts,
  length (fold_left count_byte data counts) = length counts.
Proof.
  induction data as [|b data IH]; intros counts; [reflexivity|].
  cbn [fold_left]. now rewrite IH, count_byte_length.
Qed.

Lemma sumZ_update_incr (counts : list Z) k :
  (k < length counts)%nat ->
  fold_right Z.add 0%Z (update counts k (fun c => (c + 1)%Z))
  = (fold_right Z.add 0%Z counts + 1)%Z.
Proof.
  revert k. induction counts as [|c counts IH]; intros k Hk; simpl in Hk; [lia|].
  destruct k; cbn [update fold_right]; [lia|]. rewrite IH by lia. lia.
Qed.

Lemma byte_counts_total data : forall counts,
  length counts = 256%nat ->
  fold_right Z.add 0%Z (fold_left count_byte data counts)
  = (fold_right Z.add 0%Z counts + Z.of_nat (length data))%Z.
Proof.
  induction data as [|b data IH]; intros counts Hlen; cbn [fold_left length].
  - lia.
  - rewrite IH by now rewrite count_byte_length.
    unfold count_byte. rewrite sumZ_update_incr; [lia|].
    rewrite Hlen. apply byte_index_bounded.
Qed.

Lemma byte_counts_nth data k : forall counts,
  length counts = 256%nat ->
  nth k (fold_left count_byte data counts) 0%Z
  = (nth k counts 0%Z
     + Z.of_nat (count_occ Nat.eq_dec (map Byte.to_nat data) k))%Z.
Proof.
  induction data as [|b data IH]; intros counts Hlen;
    cbn [fold_left map count_occ].
  - lia.
  - rewrite IH by now rewrite count_byte_length.
    unfold count_byte. destruct (Nat.eq_dec (Byte.to_nat b) k) as [E|Hne].
    + rewrite <- E. rewrite nth_update_same; [lia|].
      rewrite Hlen. apply byte_index_bounded.
    + rewrite nth_update_other by congruence. lia.
Qed.

Lemma sum_of_quotients (counts : list Z) (n : Q) :
  sum (map (fun c => inject_Z c / n) counts)
  == inject_Z (fold_right Z.add 0%Z counts) / n.
Proof.
  induction counts as [|c counts IH]; cbn [map sum fold_right].
  - unfold Qdiv. now rewrite Qmult_0_l.
  - fold (sum (map (fun c => inject_Z c / n) counts)). rewrite IH.
    rewrite inject_Z_plus. unfold Qdiv. ring.
Qed.

Lemma zero_counts_total n : fold_right Z.add 0%Z (repeat 0%Z n) = 0%Z.
Proof. induction n; simpl; lia. Qed.

Lemma zero_counts_nth n k : nth k (repeat 0%Z n) 0%Z = 0%Z.
Proof.
  revert k. induction n as [|n IH]; intros [|k]; simpl; auto.
Qed.

Lemma read_byte_dat_length data : length (read_byte_dat data) = 256%nat.
Proof.
  unfold read_byte_dat.
  now rewrite length_map, byte_counts_length, repeat_length.
Qed.

Lemma read_byte_dat_sum data : data <> [] -> sum (read_byte_dat data) == 1.
Proof.
  intros Hne. unfold read_byte_dat.
  rewrite sum_of_quotients, byte_counts_total by apply repeat_length.
  rewrite zero_counts_total, Z.add_0_l. apply Qmult_inv_r.
  destruct data; [congruence|]. unfold Qeq. simpl. lia.
Qed.

Lemma read_byte_dat_nth data k :
  (k < 256)%nat ->
  nth k (read_byte_dat data) 0
  == inject_Z (Z.of_nat (count_occ Nat.eq_dec (map Byte.to_nat data) k))
     / inject_Z (Z.of_nat (length data)).
Proof.
  intros Hk. unfold read_byte_dat.
  set (f := fun c => inject_Z c / inject_Z (Z.of_nat (length data))).
  rewrite (nth_indep _ 0 (f 0%Z))
    by now rewrite length_map, byte_counts_length, repeat_length.
  assert (E : nth k (map f (fold_left count_byte data (repeat 0%Z 256))) (f 0%Z)
              = f (nth k (fold_left count_byte data (repeat 0%Z 256)) 0%Z))
    by apply map_nth.
  rewrite E, byte_counts_nth by apply repeat_length.
  now rewrite zero_counts_nth, Z.add_0_l.
Qed.

(** X18: On a non-empty file [read_byte_dat] returns a probability
    distribution over the 256 byte values: entry k is the relative
    frequency of byte k in the file, and the entries sum to 1. *)
Theorem read_byte_dat_distribution (data : list Byte.byte) :
  data <> [] ->
  let symbol_prob := read_byte_dat data in
  length symbol_prob = 256%nat
  /\ sum symbol_prob == 1
  /\ forall k, (k < 256)%nat ->
       nth k symbol_prob 0
       == inject_Z (Z.of_nat (count_occ Nat.eq_dec (map Byte.to_nat data) k))
          / inject_Z (Z.of_nat (length data)).
Proof.
  intros Hne. cbv zeta. split; [apply read_byte_dat_length|].
  split; [now apply read_byte_dat_sum|]. intros k. apply read_byte_dat_nth.
Qed.

Lemma read_byte_dat_distribution_witness :
  sum (read_byte_dat [Byte.x41; Byte.x42; Byte.x41]) == 1.
Proof.
  apply (@read_byte_dat_distribution [Byte.x41; Byte.x42; Byte.x41]).
  discriminate.
Defined.

Lemma sum_map_ext {A} (f g : A -> Q) (l : list A) :
  (forall x, In x l -> f x == g x) -> sum (map f l) == sum (map g l).
Proof.
  induction l as [|x l IH]; intros H; [reflexivity|].
  cbn [map sum fold_right]. fold (sum (map f l)). fold (sum (map g l)).
  rewrite IH by (intros y Hy; apply H; now right).
  rewrite (H x) by now left. reflexivity.
Qed.

Lemma sum_map_plus {A} (f g : A -> Q) (l : list A) :
  sum (map (fun x => f x + g x) l) == sum (map f l) + sum (map g l).
Proof.
  induction l as [|x l IH]; [reflexivity|].
  cbn [map sum fold_right]. fold (sum (map f l)). fold (sum (map g l)).
  fold (sum (map (fun x => f x + g x) l)). rewrite IH. ring.
Qed.

Lemma sum_map_scaled {A} (f : A -> Q) (c : Q) (l : list A) :
  sum (map (fun x => f x * c) l) == sum (map f l) * c.
Proof.
  induction l as [|x l IH]; [cbn; ring|].
  cbn [map sum fold_right]. fold (sum (map f l)).
  fold (sum (map (fun x => f x * c) l)). rewrite IH. ring.
Qed.

Lemma sum_map_zero {A} (f : A -> Q) (l : list A) :
  (forall x, In x l -> f x == 0) -> sum (map f l) == 0.
Proof.
  induction l as [|x l IH]; intros H; [reflexivity|].
  cbn [map sum fold_right]. fold (sum (map f l)).
  rewrite IH by (intros y Hy; apply H; now right).
  rewrite (H x) by now left. reflexivity.
Qed.

Lemma sum_indicator (w : nat -> Q) b n : forall s,
  (s <= b < s + n)%nat ->
  sum (map (fun i => (if Nat.eq_dec b i then 1 else 0) * w i) (seq s n))
  == w b.
Proof.
  induction n as [|n IH]; intros s Hb; [lia|].
  cbn [seq map sum fold_right].
  fold (sum (map (fun i => (if Nat.eq_dec b i then 1 else 0) * w i)
                 (seq (S s) n))).
  destruct (Nat.eq_dec b s) as [->|Hne].
  - assert (Hz : sum (map (fun i => (if Nat.eq_dec s i then 1 else 0) * w i)
                          (seq (S s) n)) == 0).
    { apply sum_map_zero. intros i Hi. apply in_seq in Hi.
      destruct (Nat.eq_dec s i); [lia|ring]. }
    rewrite Hz. ring.
  - rewrite IH by lia. ring.
Qed.

Lemma combine_map_same {A B C} (f : A -> B) (g : A -> C) (l : list A) :
  combine (map f l) (map g l) = map (fun x => (f x, g x)) l.
Proof. induction l as [|x l IH]; [reflexivity|]. cbn. now rewrite IH. Qed.

Lemma calculate_binary_probabilities_eq (rows : list (N * Q)) :
  (length rows <= 256)%nat ->
  calculate_binary_probabilities rows
  = Ok (sum (map (fun i => filled rows snd i
                           * filled rows (fun row => (8 - count_ones (fst row)) / 8) i)
                 (seq 0 256)),
        sum (map (fun i => filled rows snd i
                           * filled rows (fun row => count_ones (fst row) / 8) i)
                 (seq 0 256))).
Proof.
  intros Hlen. unfold calculate_binary_probabilities.
  destruct (Nat.ltb_spec 256 (length rows)) as [Hgt|_]; [lia|].
  cbv zeta. now rewrite !combine_map_same, !map_map.
Qed.

Lemma filled_rows_of_file data (f : N * Q -> Q) i :
  (i < 256)%nat ->
  filled (DMS_2bit_from_byte_dat data) f i
  = f (N.of_nat i, nth i (read_byte_dat data) 0).
Proof.
  intros Hi. unfold filled, DMS_2bit_from_byte_dat. cbv zeta.
  rewrite nth_error_map, nth_error_seq.
  destruct (Nat.ltb_spec i 256) as [_|Hge]; [reflexivity|lia].
Qed.

Lemma count_app c (a b : Repetition.str) :
  Repetition.count c (a ++ b) = (Repetition.count c a + Repetition.count c b)%nat.
Proof. induction a as [|x a IH]; simpl; [reflexivity|]. rewrite IH. lia. Qed.

Lemma byte_to_N_of_nat b : N.of_nat (Byte.to_nat b) = Byte.to_N b.
Proof. destruct b; reflexivity. Qed.

Lemma ones_of_file (data : list Byte.byte) :
  sum (map (fun i =>
              inject_Z (Z.of_nat (count_occ Nat.eq_dec (map Byte.to_nat data) i))
              * count_ones (N.of_nat i))
           (seq 0 256))
  == inject_Z (Z.of_nat (Repetition.count "1"%char
                                          (Calculate.bit_string_of data))).
Proof.
  induction data as [|b data IH].
  - cbn [map count_occ]. apply sum_map_zero. intros i _. cbn. ring.
  - unfold Calculate.bit_string_of in *. cbn [map concat].
    rewrite count_app, Nat2Z.inj_add, inject_Z_plus, <- IH.
    rewrite (sum_map_ext _
      (fun i => (if Nat.eq_dec (Byte.to_nat b) i then 1 else 0)
                * count_ones (N.of_nat i)
                + inject_Z (Z.of_nat (count_occ Nat.eq_dec
                                                (map Byte.to_nat data) i))
                  * count_ones (N.of_nat i))).
    + rewrite sum_map_plus, sum_indicator
        by (split; [lia|apply (byte_index_bounded b)]).
      unfold count_ones. rewrite byte_to_N_of_nat. reflexivity.
    + intros i _. cbn [count_occ].
      destruct (Nat.eq_dec (Byte.to_nat b) i).
      * rewrite Nat2Z.inj_succ, <- Z.add_1_l, inject_Z_plus. ring.
      * ring.
Qed.

(** X19: The two values [main] gets from [calculate_binary_probabilities] for
    the CSV file that [DMS_2bit_from_byte_dat] wrote from a non-empty
    file: the second is the share of '1' among the bits of the file, and
    the two sum to 1. *)
Theorem binary_probabilities_of_file (data : list Byte.byte) :
  data <> [] ->
  exists binary_p0 binary_p1,
    calculate_binary_probabilities (DMS_2bit_from_byte_dat data)
    = Ok (binary_p0, binary_p1)
    /\ binary_p1
       == inject_Z (Z.of_nat (Repetition.count "1"%char
                                               (Calculate.bit_string_of data)))
          / inject_Z (Z.of_nat (8 * length data))
    /\ binary_p0 + binary_p1 == 1.
Proof.
  intros Hne.
  rewrite calculate_binary_probabilities_eq
    by (unfold DMS_2bit_from_byte_dat; now rewrite length_map, length_seq).
  do 2 eexists. split; [reflexivity|].
  assert (Hn : ~ inject_Z (Z.of_nat (length data)) == 0).
  { destruct data; [congruence|]. unfold Qeq. simpl. lia. }
  split.
  - rewrite (sum_map_ext _
      (fun i => inject_Z (Z.of_nat (count_occ Nat.eq_dec
                                              (map Byte.to_nat data) i))
                * count_ones (N.of_nat i)
                * / inject_Z (Z.of_nat (8 * length data)))).
    + rewrite sum_map_scaled, ones_of_file. reflexivity.
    + intros i Hi. apply in_seq in Hi.
      rewrite !filled_rows_of_file by lia. cbn [fst snd].
      rewrite read_byte_dat_nth by lia.
      rewrite Nat2Z.inj_mul, inject_Z_mult. change (inject_Z (Z.of_nat 8)) with 8.
      field. exact Hn.
  - rewrite <- sum_map_plus.
    rewrite (sum_map_ext _ (fun i => nth i (read_byte_dat data) 0)).
    + rewrite <- (read_byte_dat_sum Hne) at 1.
      assert (E : map (fun i => nth i (read_byte_dat data) 0) (seq 0 256)
                  = read_byte_dat data).
      { rewrite <- (read_byte_dat_length data) at 1.
        generalize (read_byte_dat data). intros l. clear.
        induction l as [|x l IH]; [reflexivity|].
        cbn [length seq map nth]. f_equal.
        rewrite <- seq_shift, map_map. exact IH. }
      now rewrite E.
    + intros i Hi. apply in_seq in Hi.
      rewrite !filled_rows_of_file by lia. cbn [fst snd]. field.
Qed.

Lemma binary_probabilities_of_file_witness :
  exists binary_p0 binary_p1,
    calculate_binary_probabilities
      (DMS_2bit_from_byte_dat [Byte.x41; Byte.x42; Byte.xff])
    = Ok (binary_p0, binary_p1)
    /\ binary_p1 == 12 # 24
    /\ binary_p0 + binary_p1 == 1.
Proof.
  apply (@binary_probabilities_of_file [Byte.x41; Byte.x42; Byte.xff]).
  discriminate.
Defined.

End EmpiricalFacts.

(** ** Mutual information of an estimated transition matrix *)

Section MutualInformationOfEstimate.

Import ChannelIndexCalc.
Local Open Scope Q_scope.

Variable log2 : Q -> Q.

(** What is used of [np.log2]: it is not positive on (0, 1]. *)
Hypothesis log2_nonpos : forall r, 0 < r -> r <= 1 -> log2 r <= 0.

Lemma mi_step_nonincreasing tp p_x p_y i j mi :
  (0 < entry tp i j -> entry tp i j <= nth i p_x 0 * nth j p_y 0) ->
  mi_step log2 tp p_x p_y i mi j <= mi.
Proof.
  intros Hle. unfold mi_step.
  destruct (gt0 (entry tp i j)) eqn:He; [|apply Qle_refl].
  destruct (gt0 (nth i p_x 0) && gt0 (nth j p_y 0)) eqn:Hp; [|apply Qle_refl].
  cbv zeta.
  destruct (gt0 (entry tp i j / (nth i p_x 0 * nth j p_y 0))) eqn:Hr;
    [|apply Qle_refl].
  apply gt0_true in He, Hr. apply andb_true_iff in Hp as [Hx Hy].
  apply gt0_true in Hx, Hy.
  assert (Hlog : log2 (entry tp i j / (nth i p_x 0 * nth j p_y 0)) <= 0).
  { apply log2_nonpos; [assumption|].
    apply Qle_shift_div_r; [now apply Qmult_lt_0_compat|].
    rewrite Qmult_1_l. now apply Hle. }
  set (l := log2 _) in *.
  assert (H : entry tp i j * l <= entry tp i j * 0)
    by (apply Qmult_le_l; assumption).
  rewrite Qmult_0_r in H.
  apply Qle_trans with (mi + 0);
    [now apply Qplus_le_r|rewrite Qplus_0_r; apply Qle_refl].
Qed.

Lemma fold_nonincreasing {A} (f : Q -> A -> Q) (l : list A) :
  (forall a x, In x l -> f a x <= a) -> forall a, fold_left f l a <= a.
Proof.
  induction l as [|x l IH]; intros Hf a; [apply Qle_refl|].
  cbn [fold_left]. eapply Qle_trans.
  - apply IH. intros b y Hy. apply Hf. now right.
  - apply Hf. now left.
Qed.

Lemma nth_nonneg row j : Forall (Qle 0) row -> 0 <= nth j row 0.
Proof.
  intros H. revert j. induction H as [|x row Hx _ IH]; intros [|j]; simpl;
    try apply Qle_refl; auto.
Qed.

Lemma entry_le_sum row j : Forall (Qle 0) row -> nth j row 0 <= sum row.
Proof.
  intros H. revert j.
  induction H as [|x row Hx Hrow IH]; intros [|j]; cbn [nth sum fold_right];
    try apply Qle_refl; fold (sum row).
  - rewrite <- (Qplus_0_r x) at 1. apply Qplus_le_r. now apply sum_nonneg.
  - rewrite <- (Qplus_0_l (nth j row 0)). apply Qplus_le_compat; auto.
Qed.

Lemma entry_le_column (tp : matrix) i j :
  Forall (Forall (Qle 0)) tp -> (i < length tp)%nat ->
  entry tp i j <= sum (map (fun row => nth j row 0) tp).
Proof.
  unfold entry. intros H. revert i.
  induction H as [|row tp Hrow Htp IH]; intros i Hi; simpl in Hi; [lia|].
  cbn [map sum fold_right]. fold (sum (map (fun row => nth j row 0) tp)).
  destruct i as [|i]; cbn [nth].
  - rewrite <- (Qplus_0_r (nth j row 0)) at 1. apply Qplus_le_r.
    apply sum_nonneg. apply Forall_map.
    eapply Forall_impl; [|exact Htp]. intros r Hr. now apply nth_nonneg.
  - rewrite <- (Qplus_0_l (nth j (nth i tp []) 0)).
    apply Qplus_le_compat; [now apply nth_nonneg|apply IH; lia].
Qed.

Lemma sum_axis1_nth (tp : matrix) i :
  (i < length tp)%nat -> nth i (sum_axis1 tp) 0 = sum (nth i tp []).
Proof.
  intros Hi. unfold sum_axis1.
  rewrite (nth_indep _ 0 (sum [])) by now rewrite length_map.
  apply map_nth.
Qed.

Lemma sum_axis0_nth (tp : matrix) j :
  (j < length (sum_axis0 tp))%nat ->
  nth j (sum_axis0 tp) 0 = sum (map (fun row => nth j row 0) tp).
Proof.
  unfold sum_axis0. rewrite length_map, length_seq. intros Hj.
  set (f := fun j => sum (map (fun row => nth j row 0) tp)).
  rewrite (nth_indep _ 0 (f 0%nat)) by now rewrite length_map, length_seq.
  rewrite map_nth, seq_nth by assumption. reflexivity.
Qed.

Lemma mi_loops_nonpos (tp : matrix) :
  row_stochastic tp -> mi_loops log2 tp <= 0.
Proof.
  intros Hst. unfold mi_loops. cbv zeta.
  assert (Hnn : Forall (Forall (Qle 0)) tp).
  { unfold row_stochastic in Hst.
    eapply Forall_impl; [|exact Hst]. now intros row [H _]. }
  apply fold_nonincreasing. intros mi i Hi.
  apply fold_nonincreasing. intros mi' j Hj.
  apply in_seq in Hi, Hj. unfold sum_axis1 in Hi. rewrite length_map in Hi.
  apply mi_step_nonincreasing. intros Hpos.
  rewrite sum_axis1_nth, sum_axis0_nth by lia.
  assert (Hrow : sum (nth i tp []) == 1).
  { unfold row_stochastic in Hst. rewrite Forall_forall in Hst.
    destruct (Hst (nth i tp [])) as [Hr [H1|H0]];
      [apply nth_In; lia|assumption|].
    exfalso. apply (Qlt_not_le _ _ Hpos). rewrite <- H0.
    now apply entry_le_sum. }
  rewrite Hrow, Qmult_1_l. apply entry_le_column; [assumption|lia].
Qed.

Lemma mutual_information_zero (tp : matrix) :
  row_stochastic tp -> calculate_mutual_information log2 tp == 0.
Proof.
  intros Hst. pose proof (mi_loops_nonpos Hst) as Hle.
  unfold calculate_mutual_information. cbv zeta.
  destruct (Qle_bool 0 (mi_loops log2 tp)) eqn:E; cbn [negb]; [|reflexivity].
  apply Qle_bool_iff in E. now apply Qle_antisym.
Qed.

Lemma normalise_row_stochastic row :
  Forall (Qle 0) row ->
  Forall (Qle 0) (normalise row)
  /\ (sum (normalise row) == 1 \/ sum (normalise row) == 0).
Proof.
  intros Hrow. split; [now apply normalise_nonneg|].
  destruct (Qlt_le_dec 0 (sum row)) as [Hpos|Hzero].
  - left. rewrite normalise_positive, sum_scaled by assumption.
    apply Qmult_inv_r. intros H0. rewrite H0 in Hpos.
    exact (Qlt_irrefl _ Hpos).
  - right. rewrite normalise_zero by assumption.
    clear. induction row as [|x row IH]; [reflexivity|].
    cbn [map sum fold_right]. fold (sum (map (fun _ : Q => 0) row)).
    rewrite IH. reflexivity.
Qed.

Lemma channel_probabilities_row_stochastic input_data noise_data :
  row_stochastic (calculate_channel_probabilities input_data noise_data).
Proof.
  rewrite calculate_channel_probabilities_rows. unfold row_stochastic.
  apply Forall_map.
  pose proof (@counts_inv_loop (combine input_data noise_data) [] _
                               counts_inv_zeros) as Hinv.
  eapply Forall_impl; [|exact (inv_nonneg Hinv)].
  intros row Hrow. now apply normalise_row_stochastic.
Qed.

(** X20: [calculate_mutual_information] sums p(y|x) log2 (p(y|x) / (p_x p_y))
    with p_x and p_y the row and column sums of the transition matrix
    itself.  On a matrix whose rows sum to 1 or 0, every ratio is at most 1,
    no term is positive, and the value returned is 0: so it is for every
    matrix that [calculate_channel_probabilities] returns, whatever the
    channel was.  (Exact arithmetic; in float64 the row sums are 1 up to
    rounding.) *)
Theorem mutual_information_of_estimate_is_zero :
  (forall tp,
     Forall (fun row => Forall (Qle 0) row
                        /\ (sum row == 1 \/ sum row == 0)) tp ->
     calculate_mutual_information log2 tp == 0)
  /\ (forall input_data noise_data,
        calculate_mutual_information
          log2 (calculate_channel_probabilities input_data noise_data) == 0).
Proof.
  split.
  - apply mutual_information_zero.
  - intros input_data noise_data.
    apply mutual_information_zero, channel_probabilities_row_stochastic.
Qed.

End MutualInformationOfEstimate.


Lemma mutual_information_of_estimate_is_zero_witness :
  (ChannelIndexCalc.calculate_mutual_information
     (fun x => x - 1)
     (ChannelIndexCalc.calculate_channel_probabilities
        [Byte.x01; Byte.x01; Byte.x02] [Byte.x01; Byte.x03; Byte.x03]) == 0)%Q.
Proof.
  apply (@mutual_information_of_estimate_is_zero (fun x => x - 1)%Q).
  intros r _ Hr. apply (Qplus_le_l _ _ 1). now ring_simplify.
Defined.

(** ** Entries of the estimated transition matrix *)

Section TransitionFrequencies.

Import ChannelIndexCalc.
Local Open Scope Q_scope.

Lemma entry_count_pair (m : matrix) xy i j :
  length m = num_states ->
  Forall (fun row => length row = num_states) m ->
  entry (count_pair m xy) i j
  == entry m i j
     + (if Nat.eqb (Byte.to_nat (fst xy)) i && Nat.eqb (Byte.to_nat (snd xy)) j
        then 1 else 0).
Proof.
  intros Hrows Hcols. unfold entry, count_pair.
  destruct (Nat.eqb_spec (Byte.to_nat (fst xy)) i) as [Hi|Hi]; cbn [andb].
  - rewrite <- Hi. rewrite nth_update_same
      by (rewrite Hrows; apply byte_index_bounded).
    destruct (Nat.eqb_spec (Byte.to_nat (snd xy)) j) as [Hj|Hj].
    + rewrite <- Hj. rewrite nth_update_same; [reflexivity|].
      rewrite Forall_forall in Hcols. rewrite (Hcols (nth _ m [])).
      * apply byte_index_bounded.
      * apply nth_In. rewrite Hrows. apply byte_index_bounded.
    + rewrite nth_update_other by congruence. now rewrite Qplus_0_r.
  - rewrite nth_update_other by congruence. now rewrite Qplus_0_r.
Qed.

Lemma pair_count_snoc pairs xy i j :
  pair_count (pairs ++ [xy]) i j
  == pair_count pairs i j
     + (if Nat.eqb (Byte.to_nat (fst xy)) i && Nat.eqb (Byte.to_nat (snd xy)) j
        then 1 else 0).
Proof.
  unfold pair_count. rewrite filter_app, length_app. cbn [filter].
  destruct (_ && _); cbn [length].
  - rewrite Nat2Z.inj_add, inject_Z_plus. reflexivity.
  - now rewrite Nat.add_0_r, Qplus_0_r.
Qed.

Lemma counts_entries pairs i j : forall seen m,
  counts_inv seen m ->
  entry m i j == pair_count seen i j ->
  entry (fold_left count_pair pairs m) i j == pair_count (seen ++ pairs) i j.
Proof.
  induction pairs as [|xy pairs IH]; intros seen m Hinv Hm.
  - now rewrite app_nil_r.
  - cbn [fold_left].
    replace (seen ++ xy :: pairs) with ((seen ++ [xy]) ++ pairs)
      by now rewrite <- app_assoc.
    apply IH; [now apply counts_inv_step|].
    rewrite entry_count_pair by apply Hinv.
    now rewrite pair_count_snoc, Hm.
Qed.

Lemma entry_zeros i j : entry (zeros num_states num_states) i j == 0.
Proof.
  unfold entry, zeros.
  destruct (Nat.lt_ge_cases i num_states) as [Hi|Hi].
  - rewrite (nth_indep _ [] (repeat 0 num_states)) by now rewrite repeat_length.
    rewrite nth_repeat.
    destruct (Nat.lt_ge_cases j num_states) as [Hj|Hj].
    + rewrite nth_repeat. reflexivity.
    + rewrite nth_overflow by now rewrite repeat_length. reflexivity.
  - rewrite (@nth_overflow _ (repeat (repeat 0 num_states) num_states) i [])
      by now rewrite repeat_length.
    destruct j; reflexivity.
Qed.

(** X21: The entry (i, j) of the matrix returned by
    [calculate_channel_probabilities] is the relative frequency of output
    j among the compared pairs with input i, and 0 when input i does not
    occur. *)
Theorem transition_probability_is_relative_frequency
    (input_data noise_data : list Byte.byte) (i j : nat) :
  (i < 256)%nat -> (j < 256)%nat ->
  let pairs := combine input_data noise_data in
  let tp := calculate_channel_probabilities input_data noise_data in
  (0 < occurrences pairs i ->
   entry tp i j == pair_count pairs i j / occurrences pairs i)
  /\ (occurrences pairs i == 0 -> entry tp i j == 0).
Proof.
  intros Hi Hj pairs tp. subst tp.
  rewrite calculate_channel_probabilities_rows. fold pairs.
  pose proof (@counts_inv_loop pairs [] _ counts_inv_zeros) as Hinv.
  cbn [app] in Hinv.
  pose proof (@counts_entries pairs i j [] _ counts_inv_zeros
                              (entry_zeros i j)) as Hentry.
  cbn [app] in Hentry.
  set (counts := fold_left count_pair pairs (zeros num_states num_states)) in *.
  pose proof (inv_sums Hinv Hi) as Hsum.
  assert (Hrow : length (nth i counts []) = num_states).
  { pose proof (inv_cols Hinv) as Hcols. rewrite Forall_forall in Hcols.
    apply Hcols, nth_In. now rewrite (inv_rows Hinv). }
  unfold entry in *.
  assert (E : nth i (map normalise counts) [] = normalise (nth i counts []))
    by apply (map_nth normalise counts [] i).
  rewrite E. clear E.
  set (row := nth i counts []) in *.
  split.
  - intros Hocc. rewrite normalise_positive by now rewrite Hsum.
    set (f := fun c => c / sum row).
    rewrite (nth_indep _ 0 (f 0)) by (rewrite length_map, Hrow; exact Hj).
    rewrite map_nth. unfold f. now rewrite Hentry, Hsum.
  - intros Hocc. rewrite normalise_zero by (rewrite Hsum, Hocc; apply Qle_refl).
    set (f := fun _ : Q => 0).
    rewrite (nth_indep _ 0 (f 0)) by (rewrite length_map, Hrow; exact Hj).
    now rewrite map_nth.
Qed.

Lemma transition_probability_is_relative_frequency_witness :
  entry (calculate_channel_probabilities
           [Byte.x01; Byte.x01; Byte.x01; Byte.x02]
           [Byte.x01; Byte.x03; Byte.x03; Byte.x00]) 1 3
  == pair_count (combine [Byte.x01; Byte.x01; Byte.x01; Byte.x02]
                         [Byte.x01; Byte.x03; Byte.x03; Byte.x00]) 1 3
     / occurrences (combine [Byte.x01; Byte.x01; Byte.x01; Byte.x02]
                            [Byte.x01; Byte.x03; Byte.x03; Byte.x00]) 1.
Proof.
  apply (@transition_probability_is_relative_frequency
           [Byte.x01; Byte.x01; Byte.x01; Byte.x02]
           [Byte.x01; Byte.x03; Byte.x03; Byte.x00] 1 3);
    [lia|lia|reflexivity].
Defined.

End TransitionFrequencies.

(** ** Rows of the transition matrix with rounded quotients *)

Section RoundedRows.

Import ChannelIndexCalc.
Local Open Scope Q_scope.

Lemma sum_map_le {A} (f g : A -> Q) (l : list A) :
  (forall x, In x l -> f x <= g x) -> sum (map f l) <= sum (map g l).
Proof.
  induction l as [|x l IH]; intros H; [apply Qle_refl|].
  cbn [map sum fold_right]. fold (sum (map f l)). fold (sum (map g l)).
  apply Qplus_le_compat; [apply H; now left|].
  apply IH. intros y Hy. apply H. now right.
Qed.

Lemma sum_quotients_scaled (row : list Q) k :
  ~ sum row == 0 -> sum (map (fun c => c / sum row * k) row) == k.
Proof.
  intros Hs.
  rewrite (sum_map_scaled (fun c => c / sum row) k row), sum_scaled.
  unfold Qdiv. rewrite Qmult_inv_r by exact Hs. apply Qmult_1_l.
Qed.

(** Every count is an integer. *)
Lemma counts_integers pairs i j :
  let counts := fold_left count_pair pairs (zeros num_states num_states) in
  exists n : Z, entry counts i j == inject_Z n.
Proof.
  cbv zeta. eexists.
  apply (@counts_entries pairs i j [] _ counts_inv_zeros (entry_zeros i j)).
Qed.

Section Quotients.

(** float64 division of a count by a row sum.  Both are integers below
    2^53, which float64 holds exactly, and the quotient is rounded to a
    float64 nearest to it: the relative error is at most 2^-53. *)
Variable fdiv : Q -> Q -> Q.
Hypothesis fdiv_rounds : forall (a b : Q) (n m : Z),
  a == inject_Z n -> b == inject_Z m ->
  (0 <= n <= m)%Z -> (0 < m < 2 ^ 53)%Z ->
  a / b * (1 - Float64.unit_roundoff) <= fdiv a b
  /\ fdiv a b <= a / b * (1 + Float64.unit_roundoff).

Lemma calculate_channel_probabilities_f64_rows input_data noise_data :
  calculate_channel_probabilities_f64 fdiv input_data noise_data
  = map (normalise_f64 fdiv)
        (fold_left count_pair (combine input_data noise_data)
                   (zeros num_states num_states)).
Proof.
  unfold calculate_channel_probabilities_f64, sum_axis1.
  generalize (fold_left count_pair (combine input_data noise_data)
                        (zeros num_states num_states)).
  intros m. induction m as [|row m IH]; simpl; [reflexivity|].
  now rewrite IH.
Qed.

Lemma normalise_f64_zero row :
  sum row <= 0 -> normalise_f64 fdiv row = map (fun _ => 0) row.
Proof.
  intros Hz. unfold normalise_f64. apply map_ext. intros c.
  now rewrite (proj2 (gt0_false _) Hz).
Qed.

Lemma normalise_f64_positive row :
  0 < sum row ->
  normalise_f64 fdiv row = map (fun c => fdiv c (sum row)) row.
Proof.
  intros Hpos. unfold normalise_f64. apply map_ext. intros c.
  now rewrite (proj2 (gt0_true _) Hpos).
Qed.

(** The quotients of one row of counts whose sum is [m]. *)
Lemma rounded_quotients (row : list Q) (m : Z) :
  Forall (Qle 0) row ->
  Forall (fun c => exists n : Z, c == inject_Z n) row ->
  sum row == inject_Z m -> (0 < m < 2 ^ 53)%Z ->
  forall c, In c row ->
    c / sum row * (1 - Float64.unit_roundoff) <= fdiv c (sum row)
    /\ fdiv c (sum row) <= c / sum row * (1 + Float64.unit_roundoff).
Proof.
  intros Hnn Hint Hsum Hm c Hc.
  rewrite Forall_forall in Hint. destruct (Hint c Hc) as [n Hn].
  apply (@fdiv_rounds c (sum row) n m Hn Hsum); [|exact Hm].
  split.
  - rewrite Zle_Qle, <- Hn. rewrite Forall_forall in Hnn. now apply Hnn.
  - rewrite Zle_Qle, <- Hn, <- Hsum.
    destruct (In_nth row c 0 Hc) as (j & _ & <-).
    now apply entry_le_sum.
Qed.

(** C8, amended: every row of the matrix returned by
    [calculate_channel_probabilities], for fewer than 2^53 compared pairs,
    has only non-negative entries; the row of an input symbol that does not
    occur in the compared prefix is entirely zero; the row of a symbol that
    occurs sums to 1 up to the rounding of its quotients: each entry is the
    float64 quotient of a count by the row's count, and the sum of the
    entries differs from 1 by at most 2^-53. *)
Theorem transition_rows_rounded
    (input_data noise_data : list Byte.byte) (i : nat) :
  (i < 256)%nat ->
  (Z.of_nat (length (combine input_data noise_data)) < 2 ^ 53)%Z ->
  let tp := calculate_channel_probabilities_f64 fdiv input_data noise_data in
  let row := nth i tp [] in
  let seen := prefix_inputs (combine input_data noise_data) in
  length tp = 256%nat
  /\ length row = 256%nat
  /\ Forall (Qle 0) row
  /\ (In i seen ->
      1 - Float64.unit_roundoff <= sum row
      /\ sum row <= 1 + Float64.unit_roundoff)
  /\ (~ In i seen -> Forall (fun p => p = 0) row).
Proof.
  intros Hi Hlen tp row seen. subst tp row.
  rewrite calculate_channel_probabilities_f64_rows.
  set (pairs := combine input_data noise_data) in *.
  pose proof (@counts_inv_loop pairs [] _ counts_inv_zeros)
    as [Hrows Hcols Hnn Hsums].
  cbn [app] in Hsums.
  pose proof (fun j => @counts_integers pairs i j) as Hint. cbv zeta in Hint.
  set (m := fold_left count_pair pairs (zeros num_states num_states)) in *.
  assert (E : nth i (map (normalise_f64 fdiv) m) []
              = normalise_f64 fdiv (nth i m []))
    by apply (map_nth (normalise_f64 fdiv) m [] i).
  rewrite !E, length_map. clear E.
  assert (Hin : In (nth i m []) m) by (apply nth_In; rewrite Hrows; exact Hi).
  rewrite Forall_forall in Hcols, Hnn.
  specialize (Hsums i Hi). unfold occurrences in Hsums. fold seen in Hsums.
  specialize (Hnn _ Hin). specialize (Hcols _ Hin).
  unfold entry in Hint.
  set (row := nth i m []) in *.
  assert (Hbound : (count_occ Nat.eq_dec seen i <= length pairs)%nat).
  { pose proof (count_occ_bound Nat.eq_dec i seen) as H.
    unfold seen, prefix_inputs in H. now rewrite length_map in H. }
  assert (Hrow_int : Forall (fun c => exists n : Z, c == inject_Z n) row).
  { apply Forall_forall. intros c Hc.
    destruct (In_nth row c 0 Hc) as (j & _ & <-). apply Hint. }
  assert (Hcase : forall c, In c row -> In i seen ->
            c / sum row * (1 - Float64.unit_roundoff) <= fdiv c (sum row)
            /\ fdiv c (sum row)
               <= c / sum row * (1 + Float64.unit_roundoff)).
  { intros c Hc Hseen. apply (count_occ_In Nat.eq_dec) in Hseen.
    apply (@rounded_quotients row _ Hnn Hrow_int Hsums); [lia|exact Hc]. }
  assert (Hpos : In i seen -> 0 < sum row).
  { intros Hseen. apply (count_occ_In Nat.eq_dec) in Hseen.
    rewrite Hsums. change 0 with (inject_Z 0). rewrite <- Zlt_Qlt. lia. }
  split; [exact Hrows|]. split; [|split; [|split]].
  - unfold normalise_f64. rewrite length_map. exact Hcols.
  - destruct (in_dec Nat.eq_dec i seen) as [Hseen|Hseen].
    + rewrite normalise_f64_positive by auto.
      apply Forall_forall. intros q Hq.
      apply in_map_iff in Hq as [c [<- Hc]].
      eapply Qle_trans; [|apply (Hcase c Hc Hseen)].
      apply Qmult_le_0_compat; [|discriminate].
      apply Qle_shift_div_l; [auto|]. rewrite Qmult_0_l.
      rewrite Forall_forall in Hnn. now apply Hnn.
    + apply (count_occ_not_In Nat.eq_dec) in Hseen. rewrite Hseen in Hsums.
      rewrite normalise_f64_zero by (rewrite Hsums; discriminate).
      apply Forall_forall. intros q Hq.
      apply in_map_iff in Hq as [c [<- _]]. apply Qle_refl.
  - intros Hseen. rewrite normalise_f64_positive by auto.
    assert (Hne : ~ sum row == 0).
    { intros E. specialize (Hpos Hseen). rewrite E in Hpos. discriminate. }
    split.
    + rewrite <- (@sum_quotients_scaled row (1 - Float64.unit_roundoff) Hne).
      apply sum_map_le. intros c Hc. apply (Hcase c Hc Hseen).
    + rewrite <- (@sum_quotients_scaled row (1 + Float64.unit_roundoff) Hne).
      apply sum_map_le. intros c Hc. apply (Hcase c Hc Hseen).
  - intros Hseen.
    apply (count_occ_not_In Nat.eq_dec) in Hseen. rewrite Hseen in Hsums.
    rewrite normalise_f64_zero by (rewrite Hsums; discriminate).
    apply Forall_forall. intros q Hq.
    apply in_map_iff in Hq as [c [<- _]]. reflexivity.
Qed.

End Quotients.

(** Exact division is within every rounding bound. *)
Lemma Qdiv_rounds (a b : Q) (n m : Z) :
  a == inject_Z n -> b == inject_Z m ->
  (0 <= n <= m)%Z -> (0 < m < 2 ^ 53)%Z ->
  a / b * (1 - Float64.unit_roundoff) <= a / b
  /\ a / b <= a / b * (1 + Float64.unit_roundoff).
Proof.
  intros Ha Hb Hn Hm.
  assert (Hq : 0 <= a / b).
  { apply Qle_shift_div_l.
    - rewrite Hb. change 0 with (inject_Z 0). rewrite <- Zlt_Qlt. lia.
    - rewrite Qmult_0_l, Ha. change 0 with (inject_Z 0).
      rewrite <- Zle_Qle. lia. }
  split.
  - rewrite <- (Qmult_1_r (a / b)) at 2.
    rewrite !(Qmult_comm (a / b)).
    apply Qmult_le_compat_r; [discriminate|exact Hq].
  - rewrite <- (Qmult_1_r (a / b)) at 1.
    rewrite !(Qmult_comm (a / b)).
    apply Qmult_le_compat_r; [discriminate|exact Hq].
Qed.

Lemma transition_rows_rounded_witness :
  let tp := calculate_channel_probabilities_f64 Qdiv
              [Byte.x01; Byte.x01; Byte.x02] [Byte.x01; Byte.x03] in
  (1 - Float64.unit_roundoff <= sum (nth 1 tp [])
   /\ sum (nth 1 tp []) <= 1 + Float64.unit_roundoff)
  /\ Forall (fun p => p = 0) (nth 2 tp []).
Proof.
  split.
  - apply (@transition_rows_rounded Qdiv Qdiv_rounds
             [Byte.x01; Byte.x01; Byte.x02] [Byte.x01; Byte.x03] 1).
    + lia.
    + simpl. lia.
    + simpl. auto.
  - apply (@transition_rows_rounded Qdiv Qdiv_rounds
             [Byte.x01; Byte.x01; Byte.x02] [Byte.x01; Byte.x03] 2).
    + lia.
    + simpl. lia.
    + simpl. intros [H|[H|[]]]; discriminate H.
Defined.

(** C8 as stated fails: the input byte 5 occurs seventeen times, each
    time with another output byte, so every quotient of row 5 is the
    float64 nearest to 1/17, which is below 1/17; the seventeen of them sum
    to 1 - 2^-56, not to 1 (and not to less than 1 - 2^-53). *)
Lemma rows_do_not_sum_to_one :
  let pairs := combine seventeen_inputs seventeen_outputs in
  let tp := calculate_channel_probabilities_f64 Float64.div64
              seventeen_inputs seventeen_outputs in
  In 5%nat (prefix_inputs pairs)
  /\ sum (nth 5 tp []) == 1 - (1 # 72057594037927936)
  /\ ~ sum (nth 5 tp []) == 1
  /\ 1 - Float64.unit_roundoff <= sum (nth 5 tp []).
Proof.
  cbv zeta. split; [now left|].
  assert (E : sum (nth 5 (calculate_channel_probabilities_f64 Float64.div64
                            seventeen_inputs seventeen_outputs) [])
              == 1 - (1 # 72057594037927936))
    by (vm_compute; reflexivity).
  split; [exact E|]. rewrite E. split; discriminate.
Qed.

End RoundedRows.

(** ** The encoder's text file read back by the decoder *)

Section EncodedFileFacts.

Import Repetition EncodedFile String.StringSyntax.
Local Open Scope nat_scope.

(** *** Searching for a heading without ASCII characters *)

Section Search.

Variable sub : text.
Hypothesis sub_nonempty : sub <> [].
Hypothesis sub_not_ascii : Forall (fun c => (128 <= c)%N) sub.

Lemma starts_with_sep (x : text) c (b : text) : forall part,
  (c < 128)%N -> Forall (fun c => (128 <= c)%N) part ->
  starts_with (x ++ c :: b) part = starts_with x part.
Proof.
  intros part Hc. revert part.
  induction x as [|d x IH]; intros [|m part] Hpart; try reflexivity.
  - cbn. inversion Hpart; subst.
    destruct (N.eqb_spec m c); [lia|reflexivity].
  - cbn. inversion Hpart; subst. now rewrite IH.
Qed.

Lemma find_from_sep (a : text) c (b : text) : forall i,
  (c < 128)%N ->
  find_from (a ++ c :: b) sub i
  = match find_from a sub i with
    | Some k => Some k
    | None => find_from b sub (i + length a + 1)
    end.
Proof.
  intros i Hc. revert i. induction a as [|d a IH]; intros i.
  - cbn [app length find_from].
    destruct sub as [|m sub'] eqn:Hsub; [congruence|].
    inversion sub_not_ascii; subst. cbn [starts_with].
    destruct (N.eqb_spec m c); [lia|]. cbn [andb].
    now replace (i + 0 + 1) with (S i) by lia.
  - cbn [app find_from].
    change (d :: a ++ c :: b) with ((d :: a) ++ c :: b).
    rewrite starts_with_sep by assumption.
    destruct (starts_with (d :: a) sub); [reflexivity|].
    rewrite IH. cbn [length].
    now replace (S i + length a + 1) with (i + S (length a) + 1) by lia.
Qed.

Lemma free_sep a c b :
  free sub a -> free sub b -> (c < 128)%N -> free sub (a ++ c :: b).
Proof.
  intros Ha Hb Hc i. rewrite find_from_sep by assumption.
  now rewrite Ha, Hb.
Qed.

Lemma free_ascii s : Forall (fun c => (c < 128)%N) s -> free sub s.
Proof.
  intros Hs i. revert i. induction Hs as [|c s Hc _ IH]; intros i.
  - cbn. destruct sub; [congruence|reflexivity].
  - cbn [find_from]. destruct sub as [|m sub'] eqn:Hsub; [congruence|].
    inversion sub_not_ascii; subst. cbn [starts_with].
    destruct (N.eqb_spec m c); [lia|]. cbn [andb]. apply IH.
Qed.

Lemma free_app_ascii a x :
  free sub a -> Forall (fun c => (c < 128)%N) x -> free sub (a ++ x).
Proof.
  intros Ha Hx. destruct Hx as [|c x Hc Hx]; [now rewrite app_nil_r|].
  apply free_sep; [assumption|now apply free_ascii|assumption].
Qed.

Lemma free_label label x :
  label <> [] -> free sub (removelast label) -> (last label 0%N < 128)%N ->
  free sub x -> free sub (label ++ x).
Proof.
  intros Hne Hfree Hlast Hx.
  rewrite (app_removelast_last 0%N Hne), <- app_assoc. cbn [app].
  now apply free_sep.
Qed.

Lemma free_unlines lines : Forall (free sub) lines -> free sub (unlines lines).
Proof.
  unfold unlines. induction 1 as [|line lines Hline _ IH].
  - intros i. cbn. destruct sub; [congruence|reflexivity].
  - cbn [map concat]. rewrite <- app_assoc. cbn [app].
    apply free_sep; [assumption|assumption|reflexivity].
Qed.

Lemma starts_with_self rest : forall part : text,
  starts_with (part ++ rest) part = true.
Proof.
  induction part as [|c part IH]; [reflexivity|].
  cbn. now rewrite N.eqb_refl, IH.
Qed.

Lemma find_after_free a c rest :
  free sub a -> (c < 128)%N ->
  find (a ++ c :: sub ++ rest) sub = Some (length a + 1).
Proof.
  intros Ha Hc. unfold find. rewrite find_from_sep, Ha by assumption.
  destruct sub as [|m sub'] eqn:Hsub; [congruence|]. rewrite <- Hsub.
  assert (E : find_from (sub ++ rest) sub (0 + length a + 1)
              = Some (0 + length a + 1)).
  { destruct (sub ++ rest) eqn:Hs; cbn [find_from];
      rewrite <- Hs, starts_with_self; reflexivity. }
  exact E.
Qed.

End Search.

(** *** Slices, joins and splits *)

Lemma firstn_plus {A} (l : list A) a b :
  firstn (a + b) l = firstn a l ++ firstn b (skipn a l).
Proof.
  revert l. induction a as [|a IH]; intros l; [reflexivity|].
  destruct l as [|x l]; cbn [Nat.add firstn skipn app].
  - now rewrite firstn_nil.
  - now rewrite IH.
Qed.

Lemma concat_slices {A} (l : list A) n m :
  concat (map (fun i => py_slice l i (i + n)) (map (fun k => k * n) (seq 0 m)))
  = firstn (m * n) l.
Proof.
  induction m as [|m IH]; [reflexivity|].
  rewrite seq_S, !map_app, concat_app, IH. cbn [map concat Nat.add].
  rewrite app_nil_r. unfold py_slice.
  replace (m * n + n - m * n) with n by lia.
  replace (S m * n) with (m * n + n) by lia. now rewrite firstn_plus.
Qed.

Lemma concat_chunks {A} (l : list A) n :
  0 < n -> concat (chunks l n) = l.
Proof.
  intros Hn. unfold chunks, py_range0. rewrite concat_slices.
  apply firstn_all2.
  pose proof (Nat.div_mod (length l + n - 1) n ltac:(lia)) as Hdiv.
  pose proof (Nat.mod_upper_bound (length l + n - 1) n ltac:(lia)) as Hmod.
  nia.
Qed.

Lemma Forall_chunks {A} (P : A -> Prop) (l : list A) n :
  Forall P l -> Forall (Forall P) (chunks l n).
Proof.
  intros Hl. unfold chunks. apply Forall_map, Forall_forall. intros i _.
  unfold py_slice. rewrite Forall_forall in *. intros x Hx. apply Hl.
  rewrite <- (firstn_skipn i l). apply in_or_app. right.
  rewrite <- (firstn_skipn (i + n - i) (skipn i l)). apply in_or_app. now left.
Qed.

Lemma chunks_nonempty {A} (l : list A) n :
  0 < n -> l <> [] -> chunks l n <> [].
Proof.
  intros Hn Hl Hc. apply Hl. rewrite <- (concat_chunks l Hn). now rewrite Hc.
Qed.

Lemma split_from_word (g rest word : text) :
  Forall (fun c => c <> 32%N) g ->
  split_from (g ++ rest) word = split_from rest (word ++ g).
Proof.
  intros Hg. revert word. induction Hg as [|c g Hc _ IH]; intros word.
  - now rewrite app_nil_r.
  - cbn [app split_from]. destruct (N.eqb_spec c 32); [contradiction|].
    rewrite IH, <- app_assoc. reflexivity.
Qed.

Lemma split_join (groups : list text) : forall word,
  groups <> [] ->
  Forall (Forall (fun c => c <> 32%N)) groups ->
  split_from (join space groups) word
  = (word ++ hd [] groups) :: tl groups.
Proof.
  induction groups as [|g groups IH]; intros word Hne Hall; [congruence|].
  inversion Hall as [|? ? Hg Hrest]; subst. cbn [hd tl].
  destruct groups as [|g' groups].
  - cbn [join]. rewrite <- (app_nil_r g) at 1.
    now rewrite split_from_word.
  - change (join space (g :: g' :: groups))
      with (g ++ space ++ join space (g' :: groups)).
    rewrite split_from_word by assumption. unfold space. cbn [app split_from].
    cbn [N.eqb Pos.eqb]. rewrite IH by (discriminate || assumption).
    reflexivity.
Qed.

Lemma is_bit_spec c : is_bit c = true <-> c = 48%N \/ c = 49%N.
Proof.
  unfold is_bit. rewrite orb_true_iff, !N.eqb_eq. reflexivity.
Qed.

Lemma filter_bits_id (s : text) :
  Forall (fun c => c = 48%N \/ c = 49%N) s -> filter is_bit s = s.
Proof.
  intros H. apply forallb_filter_id, forallb_forall.
  rewrite Forall_forall in H. intros c Hc. now apply is_bit_spec, H.
Qed.

Lemma filter_join (line : list text) :
  Forall (Forall (fun c => c = 48%N \/ c = 49%N)) line ->
  filter is_bit (join space line) = concat line.
Proof.
  induction 1 as [|g line Hg Hline IH]; [reflexivity|].
  destruct line as [|g' line].
  - cbn [join concat]. rewrite app_nil_r. now apply filter_bits_id.
  - change (join space (g :: g' :: line))
      with (g ++ space ++ join space (g' :: line)).
    rewrite !filter_app, IH, (filter_bits_id Hg). reflexivity.
Qed.

Lemma filter_unlines (lines : list text) :
  filter is_bit (unlines lines) = concat (map (filter is_bit) lines).
Proof.
  unfold unlines. induction lines as [|line lines IH]; [reflexivity|].
  cbn [map concat]. rewrite !filter_app, IH. cbn [filter is_bit].
  cbn. now rewrite app_nil_r.
Qed.

Lemma bits_have_no_space (s : text) :
  Forall (fun c => c = 48%N \/ c = 49%N) s -> Forall (fun c => c <> 32%N) s.
Proof.
  apply Forall_impl. intros c [-> | ->]; discriminate.
Qed.

Lemma concat_map_concat {A} (ll : list (list (list A))) :
  concat (map (@concat A) ll) = concat (concat ll).
Proof.
  induction ll as [|l ll IH]; [reflexivity|].
  cbn [map concat]. now rewrite concat_app, IH.
Qed.

Lemma encoded_lines_bits (encoded_bits : text) :
  encoded_bits <> [] ->
  Forall (fun c => c = 48%N \/ c = 49%N) encoded_bits ->
  filter is_bit (unlines (encoded_lines encoded_bits)) = encoded_bits.
Proof.
  intros Hne Hbits. unfold encoded_lines. cbv zeta.
  pose proof (@Forall_chunks _ _ encoded_bits 3 Hbits) as Hgroups.
  assert (Hsplit : split_spaces (join space (chunks encoded_bits 3))
                   = chunks encoded_bits 3).
  { unfold split_spaces. rewrite split_join.
    - destruct (chunks encoded_bits 3) eqn:E; [|reflexivity].
      exfalso. now apply (@chunks_nonempty _ encoded_bits 3); [lia| |].
    - apply chunks_nonempty; [lia|assumption].
    - eapply Forall_impl; [|exact Hgroups]. apply bits_have_no_space. }
  rewrite Hsplit, filter_unlines, map_map.
  rewrite (map_ext_in _ (@concat BinNums.N)).
  - rewrite concat_map_concat. rewrite concat_chunks by lia.
    apply concat_chunks. lia.
  - intros line Hline. apply filter_join.
    pose proof (@Forall_chunks _ _ (chunks encoded_bits 3) 10 Hgroups) as H.
    rewrite Forall_forall in H. now apply H.
Qed.

(** *** The heading and the lines before it *)

Lemma heading_not_ascii :
  heading <> [] /\ Forall (fun c => (128 <= c)%N) heading.
Proof.
  split; [discriminate|].
  apply Forall_forall. intros c Hc. vm_compute in Hc.
  repeat (destruct Hc as [<-|Hc]; [discriminate|]). contradiction.
Qed.

Lemma find_from_none (s sub : text) : forall i j,
  find_from s sub i = None -> find_from s sub j = None.
Proof.
  induction s as [|c s IH]; intros i j; cbn [find_from];
    destruct (starts_with _ sub); try discriminate; [reflexivity|apply IH].
Qed.

Lemma free_closed (s : text) : find s heading = None -> free heading s.
Proof. intros H i. exact (find_from_none s heading 0 i H). Qed.

Lemma free_heading_ascii (s : text) :
  Forall (fun c => (c < 128)%N) s -> free heading s.
Proof. apply free_ascii; apply heading_not_ascii. Qed.

Lemma free_heading_label (label x : text) :
  label <> [] -> find (removelast label) heading = None ->
  (last label 0%N < 128)%N -> free heading x -> free heading (label ++ x).
Proof.
  intros Hne Hfree Hlast Hx.
  apply free_label; try apply heading_not_ascii; try assumption.
  now apply free_closed.
Qed.

Lemma digits_ascii u : Forall (fun c => (c < 128)%N) (digits u).
Proof. induction u; cbn [digits]; constructor; (reflexivity || assumption). Qed.

Lemma bits_ascii (s : text) :
  Forall (fun c => c = 48%N \/ c = 49%N) s -> Forall (fun c => (c < 128)%N) s.
Proof. apply Forall_impl. intros c [-> | ->]; reflexivity. Qed.

Ltac closed_ascii :=
  apply Forall_forall; intros ? Hin; vm_compute in Hin;
  repeat (destruct Hin as [<-|Hin]; [reflexivity|]); contradiction.

Ltac closed_free := apply free_closed; vm_compute; reflexivity.

Ltac labelled :=
  apply free_heading_label;
  [discriminate|vm_compute; reflexivity|vm_compute; reflexivity|].

Lemma head_lines_free (clean_file_path : text -> text)
    (generated input_file_path original_bits encoded_bits : text) :
  Forall (fun c => (c < 128)%N) generated ->
  free heading (clean_file_path input_file_path) ->
  Forall (free heading)
         (head_lines clean_file_path generated input_file_path
                     original_bits encoded_bits).
Proof.
  intros Hgen Hpath. unfold head_lines. cbv zeta.
  repeat (apply Forall_cons;
          [first [closed_free
                 |labelled;
                  first [assumption
                        |now apply free_heading_ascii
                        |apply free_heading_ascii, digits_ascii]]|]).
  apply Forall_nil.
Qed.

Lemma example_line_free (original_bits encoded_bits : text) i :
  Forall (fun c => (c < 128)%N) original_bits ->
  Forall (fun c => (c < 128)%N) encoded_bits ->
  free heading (example_line original_bits encoded_bits i).
Proof.
  intros Ho He. unfold example_line. labelled.
  apply free_heading_ascii.
  repeat (apply Forall_app; split);
    first [apply digits_ascii|now apply Forall_py_slice|closed_ascii].
Qed.

Lemma original_lines_free (original_bits encoded_bits : text) :
  Forall (fun c => (c < 128)%N) original_bits ->
  Forall (fun c => (c < 128)%N) encoded_bits ->
  Forall (free heading) (original_lines original_bits encoded_bits).
Proof.
  intros Ho He. unfold original_lines.
  repeat (apply Forall_app; split).
  - constructor; [closed_free|constructor].
  - eapply Forall_impl; [|apply (@Forall_chunks _ _ original_bits 80 Ho)].
    intros line. apply free_heading_ascii.
  - constructor; [now apply free_heading_ascii|constructor].
  - constructor; [closed_free|]. constructor; [closed_free|constructor].
  - apply Forall_map, Forall_forall. intros i _.
    now apply example_line_free.
  - constructor; [now apply free_heading_ascii|constructor].
Qed.

Lemma unlines_app (a b : list text) : unlines (a ++ b) = unlines a ++ unlines b.
Proof. unfold unlines. now rewrite map_app, concat_app. Qed.

Lemma skipn_exact {A} (pre rest : list A) n :
  n = length pre -> skipn n (pre ++ rest) = rest.
Proof.
  intros ->. rewrite skipn_app, skipn_all, Nat.sub_diag. reflexivity.
Qed.

Lemma extract_after_heading (before rest bits : text) :
  free heading before -> filter is_bit rest = bits -> bits <> [] ->
  extract_encoded_bits (before ++ 32%N :: heading ++ rest) = bits.
Proof.
  unfold extract_encoded_bits. generalize heading_not_ascii.
  generalize heading. intros h [Hne Hna] Hfree Hbits Hsome. cbv zeta.
  rewrite (@find_after_free h Hne Hna before 32%N rest Hfree eq_refl).
  rewrite (app_comm_cons h rest 32%N), app_assoc.
  rewrite skipn_exact by (rewrite length_app; cbn [length]; lia).
  rewrite Hbits. destruct bits; [congruence|reflexivity].
Qed.

Lemma saved_content_parts (clean_file_path : text -> text)
    (generated input_file_path original_bits encoded_bits : text) :
  saved_content clean_file_path generated input_file_path original_bits
                encoded_bits
  = (unlines (head_lines clean_file_path generated input_file_path
                         original_bits encoded_bits
              ++ original_lines original_bits encoded_bits)
     ++ [35; 32; 51; 46]%N)
    ++ 32%N :: heading ++ 10%N :: unlines (encoded_lines encoded_bits).
Proof.
  unfold saved_content. rewrite app_assoc, !unlines_app.
  change (unlines [lit "# 3. 编码后的完整比特序列"])
    with (([35; 32; 51; 46]%N ++ 32%N :: heading) ++ [10%N]).
  rewrite <- !app_assoc. do 3 apply (f_equal (app _)).
  rewrite <- app_comm_cons. do 2 apply f_equal.
  reflexivity.
Qed.

Lemma extract_saved_content (clean_file_path : text -> text)
    (generated input_file_path original_bits encoded_bits : text) :
  Forall (fun c => (c < 128)%N) generated ->
  free heading (clean_file_path input_file_path) ->
  Forall (fun c => c = 48%N \/ c = 49%N) original_bits ->
  Forall (fun c => c = 48%N \/ c = 49%N) encoded_bits ->
  encoded_bits <> [] ->
  extract_encoded_bits
    (saved_content clean_file_path generated input_file_path original_bits
                   encoded_bits)
  = encoded_bits.
Proof.
  intros Hgen Hpath Ho He Hne. rewrite saved_content_parts.
  apply extract_after_heading; [| |assumption].
  - apply free_app_ascii; try apply heading_not_ascii.
    + apply free_unlines; try apply heading_not_ascii.
      apply Forall_app. split.
      * now apply head_lines_free.
      * apply original_lines_free; now apply bits_ascii.
    + closed_ascii.
  - change (10%N :: unlines (encoded_lines encoded_bits))
      with ([10%N] ++ unlines (encoded_lines encoded_bits)).
    rewrite filter_app. now rewrite encoded_lines_bits.
Qed.

(** *** Strings of bits between the two representations *)

Lemma points_bits (s : str) :
  Forall (fun c => c = "0"%char \/ c = "1"%char) s ->
  Forall (fun c => c = 48%N \/ c = 49%N) (points s).
Proof.
  intros H. unfold points. apply Forall_map.
  eapply Forall_impl; [|exact H]. intros c [-> | ->]; [now left|now right].
Qed.

Lemma chars_points (s : str) : chars (points s) = s.
Proof.
  unfold chars, points. rewrite map_map.
  rewrite (map_ext _ (fun c => c)) by apply ascii_N_embedding.
  apply map_id.
Qed.

(** X22: The file that [coding.py] writes for a bit string is read back by
    [decoding.py]: for a non-empty string of '0' and '1', an ASCII time
    stamp and an input path whose cleaned form, [clean_file_path] of it,
    which is what the file records, does not hold the text of the third
    heading, [extract_encoded_bits_from_file] finds exactly the encoded
    bits in the saved text, and [repetition_decode_file] returns the
    original string.  This holds whatever [clean_file_path] computes. *)
Theorem encoded_file_round_trip (clean_file_path : text -> text)
    (generated input_file_path : text) (original_bits : str) :
  Forall (fun c => (c < 128)%N) generated ->
  free heading (clean_file_path input_file_path) ->
  original_bits <> [] ->
  Forall (fun c => c = "0"%char \/ c = "1"%char) original_bits ->
  exists encoded_bits,
    encode_bit_string original_bits = Ok encoded_bits
    /\ extract_encoded_bits
         (saved_content clean_file_path generated input_file_path
                        (points original_bits) (points encoded_bits))
       = points encoded_bits
    /\ repetition_decode_file
         (saved_content clean_file_path generated input_file_path
                        (points original_bits) (points encoded_bits))
       = original_bits.
Proof.
  intros Hgen Hpath Hne Hbits.
  exists (concat (map (fun bit => repeat bit Repetition.N) original_bits)).
  split; [now apply encode_bit_string_ok|].
  set (encoded_bits := concat (map (fun bit => repeat bit Repetition.N)
                                   original_bits)).
  assert (Hextract :
    extract_encoded_bits
      (saved_content clean_file_path generated input_file_path
                     (points original_bits) (points encoded_bits))
    = points encoded_bits).
  { apply extract_saved_content; try assumption.
    - now apply points_bits.
    - apply points_bits. now apply repeat3_bits.
    - unfold encoded_bits. destruct original_bits as [|b s]; [congruence|].
      discriminate. }
  split; [exact Hextract|].
  unfold repetition_decode_file. rewrite Hextract.
  destruct (points encoded_bits) eqn:Hp.
  { unfold encoded_bits in Hp. destruct original_bits; [congruence|].
    discriminate. }
  rewrite <- Hp, chars_points. unfold encoded_bits.
  change (concat (map (fun bit => repeat bit Repetition.N) original_bits))
    with (concat (map (fun bit => [bit; bit; bit]) original_bits)).
  rewrite decode_groups.
  - rewrite map_map. rewrite <- (map_id original_bits) at 2.
    apply map_ext_in. intros b Hb. apply majority_bit.
    rewrite Forall_forall in Hbits. now apply Hbits.
  - destruct original_bits; [congruence|discriminate].
  - apply Forall_map, Forall_forall. intros b _. reflexivity.
Qed.

Lemma encoded_file_round_trip_witness :
  exists encoded_bits,
    encode_bit_string ["1"; "0"; "1"; "1"]%char = Ok encoded_bits
    /\ repetition_decode_file
         (saved_content (fun file_path => file_path)
                        (lit "2024-01-01 10:00:00") (lit "data/bits.txt")
                        (points ["1"; "0"; "1"; "1"]%char)
                        (points encoded_bits))
       = ["1"; "0"; "1"; "1"]%char.
Proof.
  destruct (@encoded_file_round_trip (fun file_path => file_path)
              (lit "2024-01-01 10:00:00") (lit "data/bits.txt")
              ["1"; "0"; "1"; "1"]%char)
    as (encoded_bits & Hencode & _ & Hdecode).
  - closed_ascii.
  - closed_free.
  - discriminate.
  - repeat (apply Forall_cons; [first [now left|now right]|]). apply Forall_nil.
  - exists encoded_bits. now split.
Defined.

Lemma bit_runs_bits (content : text) : forall run,
  Forall (fun c => c = 48%N \/ c = 49%N) run ->
  Forall (Forall (fun c => c = 48%N \/ c = 49%N)) (bit_runs content run).
Proof.
  induction content as [|c content IH]; intros run Hrun; cbn [bit_runs].
  - destruct run; [constructor|]. constructor; [assumption|constructor].
  - destruct (is_bit c) eqn:Hc.
    + apply IH. apply Forall_app. split; [assumption|].
      constructor; [now apply is_bit_spec|constructor].
    + destruct run; [apply IH; constructor|].
      constructor; [assumption|apply IH; constructor].
Qed.

Lemma longest_in (patterns : list text) : forall best,
  In (longest best patterns) (best :: patterns).
Proof.
  induction patterns as [|p patterns IH]; intros best; [now left|].
  change (longest best (p :: patterns))
    with (longest (if length best <? length p then p else best) patterns).
  destruct (IH (if length best <? length p then p else best)) as [H|H];
    [|right; now right].
  rewrite <- H. destruct (length best <? length p); [right|]; now left.
Qed.

Lemma bit_runs_of_bits (content : text) : forall run,
  Forall (fun c => c = 48%N \/ c = 49%N) content ->
  bit_runs content run
  = match run ++ content with [] => [] | _ => [run ++ content] end.
Proof.
  induction content as [|c content IH]; intros run Hbits.
  - cbn [bit_runs]. rewrite app_nil_r. reflexivity.
  - inversion Hbits as [|? ? Hc Hrest]; subst. cbn [bit_runs].
    apply is_bit_spec in Hc. rewrite Hc, IH by assumption.
    rewrite <- app_assoc. reflexivity.
Qed.

(** X23: Whatever the file holds, [extract_encoded_bits_from_file] returns a
    string of '0' and '1' only; a file that holds nothing but '0' and '1'
    is returned whole. *)
Theorem extract_gives_bits (content : text) :
  Forall (fun c => c = 48%N \/ c = 49%N) (extract_encoded_bits content)
  /\ (Forall (fun c => c = 48%N \/ c = 49%N) content ->
      extract_encoded_bits content = content).
Proof.
  assert (Hfilter : forall s, Forall (fun c => c = 48%N \/ c = 49%N)
                                     (filter is_bit s)).
  { intros s. apply Forall_forall. intros c Hc.
    apply filter_In in Hc. now apply is_bit_spec. }
  assert (Hruns : forall n,
    Forall (fun c => c = 48%N \/ c = 49%N)
           match bit_runs content [] with
           | [] => filter is_bit content
           | pattern :: patterns =>
             if n <=? length (longest pattern patterns)
             then longest pattern patterns else filter is_bit content
           end).
  { intros n. pose proof (@bit_runs_bits content [] (Forall_nil _)) as Hall.
    destruct (bit_runs content []) as [|p ps]; [apply Hfilter|].
    destruct (n <=? _); [|apply Hfilter].
    rewrite Forall_forall in Hall. apply Hall, longest_in. }
  split.
  - unfold extract_encoded_bits. cbv zeta.
    destruct (find content heading) as [idx|]; [|apply Hruns].
    destruct (filter is_bit (skipn (idx + length heading) content)) eqn:E;
      [apply Hruns|]. rewrite <- E. apply Hfilter.
  - intros Hbits. unfold extract_encoded_bits. cbv zeta.
    assert (Hfree : find content heading = None)
      by (apply free_heading_ascii; now apply bits_ascii).
    rewrite Hfree, bit_runs_of_bits, filter_bits_id by assumption.
    cbn [app]. destruct content as [|c content]; [reflexivity|].
    unfold longest. cbn [fold_left]. now destruct (10 <=? _).
Qed.

End EncodedFileFacts.

(** ** The metrics of [calculate.py] *)

Section MetricsFacts.

Import Calculate.
Local Open Scope Q_scope.








End MetricsFacts.
